(** * LiveAlpha: quota-aware ingestion scheduler

    A shallow embedding of the scheduling core of the tracker:
    - [RateLimitManager] (services/rateLimitManager.js): per-endpoint quota
      windows backed by the [rate_limits] table, the in-memory status cache
      and the priority queue with its drain loop;
    - [TweetCache] (services/tweetCache.js): the per-account freshness cache;
    - [TwitterService] (services/twitterService.js): the user-id cache, the
      fetch of an account's tweets and the batched save;
    - [TrackerService] (services/trackerService.js): the on-demand sync with
      its per-account cooldown and the smart backfill loop.

    JavaScript numbers that hold timestamps, counters and priorities are
    integers far below 2^53, so they are modelled by [Z]; [Math.floor(a / b)]
    for a positive [b] is [a / b] on [Z].  Where the code computes with
    [undefined] the number is [NaN], see [num].  Every reading of
    [Date.now()] is an explicit argument, or a field of the record that
    describes what one call meets. *)

From stdpp Require Import gmap strings list fin_maps sorting.
From Stdlib Require Import ZArith Lia.

#[local] Open Scope Z_scope.

(** ** Results of calls that may throw *)

Inductive result (E A : Type) : Type :=
| Returned (a : A)
| Threw (e : E).
Arguments Returned {E A} a.
Arguments Threw {E A} e.

(** ** Numbers that may be [NaN]

    [this.limits[endpoint]] also finds the properties that the limits
    object inherits from [Object.prototype].  Such a value has neither
    [requests] nor [windowMs], and what the manager computes from them is
    [NaN] or stays [undefined]; both fail every comparison, and [NaN]
    stands for both. *)

Inductive num : Type :=
| Num (z : Z)
| NaN.

Coercion Num : Z >-> num.

(** [n > 0] *)
Definition positive (n : num) : bool :=
  match n with
  | Num z => 0 <? z
  | NaN => false
  end.

(** [a === b] on numbers: [NaN] equals nothing. *)
Definition same (a b : num) : bool :=
  match a, b with
  | Num x, Num y => x =? y
  | _, _ => false
  end.

(** ** The storage collaborator (config/database.js, mysql2 pool)

    Only the [rate_limits] table matters here.  Its unique key is
    [(endpoint_key, window_start)] and the one column that is read back is
    [requests_count].  The table may not exist yet.  Every [pool.execute]
    consumes one entry of [outages]: [true] means this call throws a
    connection-level error, an exhausted script means no further outage.

    [window_start] is an integer column.  A statement whose window
    parameter is [NaN] selects no row, as a comparison with [NaN] matches
    nothing; what the store keeps of an insert with such a parameter is
    not a row of an integer window and is not modelled, since no statement
    of the manager can read it back. *)

Inductive db_error : Type :=
| ER_NO_SUCH_TABLE
| ER_OTHER.

Record pool : Type := mkPool {
  rate_limits : option (gmap (string * Z) Z);
  outages : list bool
}.

Definition next_outage (db : pool) : bool * pool :=
  match outages db with
  | [] => (false, db)
  | b :: bs => (b, mkPool (rate_limits db) bs)
  end.

(** [SELECT requests_count as count ... WHERE endpoint_key = ? AND window_start = ?] *)
Definition select_usage (key : string) (windowStart : num) (db : pool)
  : result db_error (option Z) * pool :=
  let '(down, db') := next_outage db in
  if down then (Threw ER_OTHER, db')
  else match rate_limits db' with
       | None => (Threw ER_NO_SUCH_TABLE, db')
       | Some t =>
           (Returned match windowStart with
                     | Num w => t !! (key, w)
                     | NaN => None
                     end, db')
       end.

(** [INSERT ... VALUES (?, ?, ?, 1, ?, ?) ON DUPLICATE KEY UPDATE
    requests_count = requests_count + 1] *)
Definition upsert_usage (key : string) (windowStart : num) (db : pool)
  : result db_error unit * pool :=
  let '(down, db') := next_outage db in
  if down then (Threw ER_OTHER, db')
  else match rate_limits db' with
       | None => (Threw ER_NO_SUCH_TABLE, db')
       | Some t =>
           match windowStart with
           | Num w =>
               let c := match t !! (key, w) with
                        | Some c => c + 1
                        | None => 1
                        end in
               (Returned tt, mkPool (Some (<[(key, w) := c]> t)) (outages db'))
           | NaN => (Returned tt, db')
           end
       end.

(** [CREATE TABLE IF NOT EXISTS rate_limits (...)] *)
Definition create_table (db : pool) : result db_error unit * pool :=
  let '(down, db') := next_outage db in
  if down then (Threw ER_OTHER, db')
  else match rate_limits db' with
       | None => (Returned tt, mkPool (Some ∅) (outages db'))
       | Some _ => (Returned tt, db')
       end.

(** The stored count of a window, [0] when there is no row (or no table). *)
Definition stored_count (key : string) (windowStart : Z) (db : pool) : Z :=
  match rate_limits db with
  | Some t => default 0 (t !! (key, windowStart))
  | None => 0
  end.

Module RateLimitManager.

(** *** Configuration: [this.rateLimits], [this.currentPlan], [this.limits] *)

Record limit : Type := mkLimit { requests : Z; windowMs : Z }.

(** [process.env.TWITTER_PLAN || 'pro'], taken to name one of the two
    plans of the table. *)
Inductive plan : Type := basic | pro.

Definition fifteen_minutes : Z := 15 * 60 * 1000.

(** The own properties of [this.rateLimits[plan]]. *)
Definition rateLimits (p : plan) (endpoint : string) : option limit :=
  match p with
  | basic =>
      if String.eqb endpoint "userTimeline" then Some (mkLimit 75 fifteen_minutes)
      else if String.eqb endpoint "userLookup" then Some (mkLimit 300 fifteen_minutes)
      else if String.eqb endpoint "searchStream" then Some (mkLimit 50 fifteen_minutes)
      else if String.eqb endpoint "streamRules" then Some (mkLimit 25 fifteen_minutes)
      else None
  | pro =>
      if String.eqb endpoint "userTimeline" then Some (mkLimit 280 fifteen_minutes)
      else if String.eqb endpoint "userLookup" then Some (mkLimit 900 fifteen_minutes)
      else if String.eqb endpoint "searchStream" then Some (mkLimit 45 fifteen_minutes)
      else if String.eqb endpoint "streamRules" then Some (mkLimit 20 fifteen_minutes)
      else None
  end.

(** The property names that an object literal inherits from
    [Object.prototype]. *)
Definition objectPrototypeNames : list string :=
  ["constructor"; "__defineGetter__"; "__defineSetter__"; "hasOwnProperty";
   "__lookupGetter__"; "__lookupSetter__"; "isPrototypeOf";
   "propertyIsEnumerable"; "toString"; "valueOf"; "__proto__"; "toLocaleString"].

(** What the property read [this.limits[endpoint]] finds: a configured
    limit; a function (or, for [__proto__], an object) inherited from
    [Object.prototype], which is truthy and has neither [requests] nor
    [windowMs]; or [undefined]. *)
Inductive property : Type :=
| Own (l : limit)
| Inherited
| Undefined.

(** *** The in-memory status cache, [this.rateLimitCache] *)

Record cacheEntry : Type := mkEntry {
  cached_endpoint : string;
  cached_windowStart : num;
  cached_count : Z;
  cached_limit : num;
  cached_remaining : num;
  cached_resetTime : num;
  cached_lastUpdated : Z
}.

(** The manager's quota state: the cache and the pool it talks to. *)
Record quota : Type := mkQuota {
  rateLimitCache : gmap string cacheEntry;
  db : pool
}.

(** [accountId ? `${endpoint}_${accountId}` : endpoint]; [null] and the
    empty string are both falsy. *)
Definition cacheKey (endpoint : string) (accountId : option string) : string :=
  match accountId with
  | Some a => if String.eqb a "" then endpoint else endpoint +:+ "_" +:+ a
  | None => endpoint
  end.

(** [Math.floor(now / limit.windowMs) * limit.windowMs] *)
Definition windowStartOf (l : limit) (now : Z) : Z :=
  now / windowMs l * windowMs l.

(** Provider headers after [parseInt]: [None] stands for a missing header
    or [NaN].  [applied_at] is the reading of [Date.now()] that
    [updateFromTwitterHeaders] takes when it applies these headers. *)
Record headers : Type := mkHeaders {
  x_rate_limit_remaining : option Z;
  x_rate_limit_reset : option Z;
  x_rate_limit_limit : option Z;
  applied_at : Z
}.

(** [parseInt(h) || null]: [NaN] and [0] are both falsy. *)
Definition or_null (v : option Z) : option Z :=
  match v with
  | Some 0 => None
  | Some n => Some n
  | None => None
  end.

Section Manager.

Variable currentPlan : plan.

(** The own properties of [this.limits]. *)
Definition limits : string -> option limit := rateLimits currentPlan.

(** [this.limits[endpoint]] *)
Definition limitOf (endpoint : string) : property :=
  match limits endpoint with
  | Some l => Own l
  | None =>
      if bool_decide (endpoint ∈ objectPrototypeNames) then Inherited else Undefined
  end.

Definition createRateLimitTable (db0 : pool) : result db_error unit * pool :=
  create_table db0.

Definition getCurrentUsage (endpoint : string) (windowStart : num)
    (accountId : option string) (db0 : pool) : result db_error Z * pool :=
  let key := cacheKey endpoint accountId in
  match select_usage key windowStart db0 with
  | (Returned (Some c), db1) => (Returned c, db1)
  | (Returned None, db1) => (Returned 0, db1)
  | (Threw ER_NO_SUCH_TABLE, db1) =>
      match createRateLimitTable db1 with
      | (Returned _, db2) => (Returned 0, db2)
      | (Threw e, db2) => (Threw e, db2)
      end
  | (Threw e, db1) => (Threw e, db1)
  end.

Definition incrementUsage (endpoint : string) (windowStart : num)
    (accountId : option string) (db0 : pool) : result db_error unit * pool :=
  upsert_usage (cacheKey endpoint accountId) windowStart db0.

(** For an inherited property [limit.requests] and [limit.windowMs] are
    [undefined]: [windowStart], [remaining] and [resetTime] are [NaN], and
    [remaining > 0] is false whatever the count. *)
Definition canMakeRequest (endpoint : string) (accountId : option string)
    (now : Z) (q : quota) : bool * quota :=
  let key := cacheKey endpoint accountId in
  match limitOf endpoint with
  | Undefined => (true, q)
  | Own l =>
      let windowStart := windowStartOf l now in
      match getCurrentUsage endpoint windowStart accountId (db q) with
      | (Returned count, db1) =>
          let remaining := requests l - count in
          let entry := mkEntry endpoint windowStart count (requests l) remaining
                               (windowStart + windowMs l) now in
          (0 <? remaining, mkQuota (<[key := entry]> (rateLimitCache q)) db1)
      | (Threw _, db1) => (false, mkQuota (rateLimitCache q) db1)
      end
  | Inherited =>
      match getCurrentUsage endpoint NaN accountId (db q) with
      | (Returned count, db1) =>
          let entry := mkEntry endpoint NaN count NaN NaN NaN now in
          (positive NaN, mkQuota (<[key := entry]> (rateLimitCache q)) db1)
      | (Threw _, db1) => (false, mkQuota (rateLimitCache q) db1)
      end
  end.

(** [now] is the reading of [Date.now()] for [lastUpdated]. *)
Definition updateFromTwitterHeaders (endpoint : string) (h : headers)
    (accountId : option string) (now : Z)
    (cache : gmap string cacheEntry) : gmap string cacheEntry :=
  let key := cacheKey endpoint accountId in
  match or_null (x_rate_limit_remaining h), or_null (x_rate_limit_reset h) with
  | Some remaining, Some resetTime =>
      match cache !! key with
      | Some cached =>
          let lim := match or_null (x_rate_limit_limit h) with
                     | Some l => Num l
                     | None => cached_limit cached
                     end in
          <[key := mkEntry (cached_endpoint cached) (cached_windowStart cached)
                           (cached_count cached) lim remaining
                           (resetTime * 1000) now]> cache
      | None => cache
      end
  | _, _ => cache
  end.

(** The body of the [try] block of [recordRequest] for the window start
    and the request limit it computed. *)
Definition recordIn (endpoint : string) (accountId : option string)
    (responseHeaders : option headers) (now : Z) (windowStart : num)
    (limitRequests : num) (q : quota) : quota :=
  let key := cacheKey endpoint accountId in
  match incrementUsage endpoint windowStart accountId (db q) with
  | (Returned _, db1) =>
      let cache1 :=
        match rateLimitCache q !! key with
        | Some cached =>
            if same (cached_windowStart cached) windowStart then
              let count := cached_count cached + 1 in
              <[key := mkEntry (cached_endpoint cached) (cached_windowStart cached)
                               count (cached_limit cached)
                               match limitRequests with
                               | Num requests => Num (Z.max 0 (requests - count))
                               | NaN => NaN
                               end
                               (cached_resetTime cached) now]> (rateLimitCache q)
            else rateLimitCache q
        | None => rateLimitCache q
        end in
      let cache2 :=
        match responseHeaders with
        | Some h => updateFromTwitterHeaders endpoint h accountId (applied_at h) cache1
        | None => cache1
        end in
      mkQuota cache2 db1
  | (Threw _, db1) => mkQuota (rateLimitCache q) db1
  end.

Definition recordRequest (endpoint : string) (accountId : option string)
    (responseHeaders : option headers) (now : Z) (q : quota) : quota :=
  match limitOf endpoint with
  | Undefined => q
  | Own l =>
      recordIn endpoint accountId responseHeaders now (windowStartOf l now)
               (requests l) q
  | Inherited => recordIn endpoint accountId responseHeaders now NaN NaN q
  end.

(** [Math.max(0, cached.resetTime - now)] is [NaN] for a [NaN] reset
    time. *)
Definition getWaitTime (endpoint : string) (accountId : option string)
    (now : Z) (q : quota) : num :=
  match rateLimitCache q !! cacheKey endpoint accountId with
  | None => 0
  | Some cached =>
      if positive (cached_remaining cached) then 0
      else match cached_resetTime cached with
           | Num resetTime => Z.max 0 (resetTime - now)
           | NaN => NaN
           end
  end.

(** *** The request queue and its drain loop

    A queued request is the object pushed by [queueRequest].  Its three
    closures ([requestFn], [resolve], [reject]) belong to one call of
    [queueRequest] and are named by [req_id]; what [requestFn] does when it
    is called is decided by the environment. *)

Record request : Type := mkRequest {
  req_id : nat;
  req_endpoint : string;
  req_accountId : option string;
  req_priority : Z;
  req_timestamp : Z
}.

(** The error thrown by a failing [requestFn]: its [status] and [code]. *)
Record failure : Type := mkFailure {
  err_status : option Z;
  err_code : option Z
}.

(** [error.status === 429 || error.code === 429] *)
Definition is429 (e : failure) : bool :=
  bool_decide (err_status e = Some 429) || bool_decide (err_code e = Some 429).

(** What one call of [requestFn] does: it returns a result, whose
    [headers] may be absent, or it throws. *)
Inductive outcome : Type :=
| Succeeds (h : option headers)
| Fails (e : failure).

(** What the outside world observes of the drain loop. *)
Inductive event : Type :=
| Called (id : nat)
| Resolved (id : nat)
| Rejected (id : nat)
| Slept (ms : Z).

(** Where the single activation of [processQueue] is suspended. *)
Inductive loop_pc : Type :=
| NotRunning
| AwaitingRequest (r : request)
| AwaitingDelay.

Record scheduler : Type := mkScheduler {
  requestQueue : list request;
  isProcessingQueue : bool;
  pc : loop_pc;
  quotaState : quota;
  log : list event
}.

(** [this.requestQueue.sort((a, b) => b.priority - a.priority)]:
    descending priority; [Array.prototype.sort] is stable. *)
Fixpoint insertByPriority (x : request) (l : list request) : list request :=
  match l with
  | [] => [x]
  | y :: l' =>
      if req_priority y <=? req_priority x then x :: y :: l'
      else y :: insertByPriority x l'
  end.

Definition sortQueue (l : list request) : list request :=
  foldr insertByPriority [] l.

(** The environment of one pass through the body of the [while] loop: the
    three readings of the clock and what [requestFn] does. *)
Record attempt : Type := mkAttempt {
  t_check : Z;
  t_wait : Z;
  t_record : Z;
  result_of_call : outcome
}.

(** Top of the [while] loop: leave when the queue is empty, otherwise
    [shift] the head and start on it. *)
Definition loopHead (s : scheduler) : scheduler :=
  match requestQueue s with
  | [] => mkScheduler [] false NotRunning (quotaState s) (log s)
  | r :: rest => mkScheduler rest (isProcessingQueue s) (AwaitingRequest r)
                             (quotaState s) (log s)
  end.

Definition processQueue (s : scheduler) : scheduler :=
  if isProcessingQueue s then s
  else match requestQueue s with
       | [] => s
       | _ :: _ =>
           loopHead (mkScheduler (requestQueue s) true (pc s) (quotaState s) (log s))
       end.

Definition queueRequest (r : request) (s : scheduler) : scheduler :=
  let s1 := mkScheduler (sortQueue (requestQueue s ++ [r])) (isProcessingQueue s)
                        (pc s) (quotaState s) (log s) in
  if isProcessingQueue s1 then s1 else processQueue s1.

(** [if (waitTime > 0)] the loop sleeps [waitTime]; [NaN] is not greater
    than 0. *)
Definition sleepTime (waitTime : num) : Z :=
  match waitTime with
  | Num ms => ms
  | NaN => 0
  end.

(** The first half of the [try] block: the admission check and, when it
    fails, the time to wait before the request is made all the same. *)
Definition checkAndWait (a : attempt) (r : request) (q : quota) : Z * quota :=
  let '(canProceed, q1) :=
    canMakeRequest (req_endpoint r) (req_accountId r) (t_check a) q in
  (if canProceed then 0
   else sleepTime (getWaitTime (req_endpoint r) (req_accountId r) (t_wait a) q1),
   q1).

(** The body of the [while] loop for the request that was shifted, up to
    the next suspension of the loop. *)
Definition runRequest (a : attempt) (r : request) (s : scheduler) : scheduler :=
  let '(waitTime, q1) := checkAndWait a r (quotaState s) in
  let log1 := if 0 <? waitTime then log s ++ [Slept waitTime] else log s in
  match result_of_call a with
  | Succeeds h =>
      let q2 := recordRequest (req_endpoint r) (req_accountId r) h (t_record a) q1 in
      mkScheduler (requestQueue s) (isProcessingQueue s) AwaitingDelay q2
                  (log1 ++ [Called (req_id r); Resolved (req_id r); Slept 50])
  | Fails e =>
      if is429 e then
        let waitTime429 := 1000 in
        let r' := mkRequest (req_id r) (req_endpoint r) (req_accountId r)
                            (Z.max 0 (req_priority r - 1)) (req_timestamp r) in
        mkScheduler (r' :: requestQueue s) (isProcessingQueue s) AwaitingDelay q1
                    (log1 ++ [Called (req_id r); Slept waitTime429])
      else
        loopHead (mkScheduler (requestQueue s) (isProcessingQueue s) (pc s) q1
                              (log1 ++ [Called (req_id r); Rejected (req_id r)]))
  end.

(** What can happen next to the manager: a caller enqueues, the awaited
    request settles, or the delay the loop sleeps on elapses. *)
Inductive input : Type :=
| Enqueue (r : request)
| Settle (a : attempt)
| Resume.

Definition step (s : scheduler) (i : input) : scheduler :=
  match i, pc s with
  | Enqueue r, _ => queueRequest r s
  | Settle a, AwaitingRequest r => runRequest a r s
  | Resume, AwaitingDelay => loopHead s
  | _, _ => s
  end.

Definition run (s : scheduler) (inputs : list input) : scheduler :=
  fold_left step inputs s.

(** An honest clock for a run that starts at time [T]: the readings
    of [Date.now()] never go back, and the request is made and recorded no
    sooner than the time the loop set out to wait. *)
Fixpoint clocked (T : Z) (s : scheduler) (inputs : list input) : Prop :=
  match inputs with
  | [] => True
  | i :: rest =>
      match i, pc s with
      | Settle a, AwaitingRequest r =>
          T <= t_check a /\ t_check a <= t_wait a
          /\ t_wait a + fst (checkAndWait a r (quotaState s)) <= t_record a
          /\ clocked (t_record a) (step s i) rest
      | _, _ => clocked T (step s i) rest
      end
  end.

(** The order in which [requestFn]s were called. *)
Definition calledIds (l : list event) : list nat :=
  omap (fun e => match e with Called id => Some id | _ => None end) l.

End Manager.

End RateLimitManager.

(** ** Tweets as the cache and the tracker see them

    [created_at] is the reading of [new Date(tweet.created_at)] in epoch
    milliseconds; [None] is an invalid date, whose comparisons are all
    false. *)

Record tweet : Type := mkTweet {
  tweet_id : string;
  created_at : option Z
}.

Module TweetCache.

Definition CACHE_DURATION : Z := 5 * 60 * 1000.
Definition MAX_TWEETS_PER_ACCOUNT : nat := 50.
Definition twentyFourHours : Z := 24 * 60 * 60 * 1000.

Record tweetCache : Type := mkTweetCache {
  cache : gmap string (list tweet);
  lastFetch : gmap string Z
}.

(** [new Date(t.created_at) > twentyFourHoursAgo] *)
Definition isRecent (now : Z) (t : tweet) : bool :=
  match created_at t with
  | Some c => now - twentyFourHours <? c
  | None => false
  end.

(** [cachedTweets.findIndex(t => t.id === tweet.id) !== -1] *)
Definition hasTweet (id : string) (l : list tweet) : bool :=
  existsb (fun t => String.eqb (tweet_id t) id) l.

Definition getCachedTweets (username : string) (now : Z) (tc : tweetCache)
  : option (list tweet) :=
  let last := default 0 (lastFetch tc !! username) in
  let cacheAge := now - last in
  if cacheAge <? CACHE_DURATION then cache tc !! username else None.

(** [t_cut] is the reading of [Date.now()] for the 24-hour cut, [t_set]
    the later one that becomes the fetch time. *)
Definition addNewTweet (username : string) (t : tweet) (t_cut t_set : Z)
    (tc : tweetCache) : tweetCache :=
  let cachedTweets := default [] (cache tc !! username) in
  if hasTweet (tweet_id t) cachedTweets then tc
  else
    let freshTweets :=
      take MAX_TWEETS_PER_ACCOUNT
           (filter (fun x => isRecent t_cut x = true) (t :: cachedTweets)) in
    mkTweetCache (<[username := freshTweets]> (cache tc))
                 (<[username := t_set]> (lastFetch tc)).

(** Newest first: no tweet is followed, anywhere later in the list, by a
    strictly newer one. *)
Definition newer_or_equal (a b : tweet) : Prop :=
  match created_at a, created_at b with
  | Some x, Some y => y <= x
  | _, _ => False
  end.

Definition newestFirst (l : list tweet) : Prop :=
  StronglySorted newer_or_equal l.

End TweetCache.

(** ** More of the tweet cache: writing, sweeping, statistics *)

Module TweetCacheMore.
Import TweetCache.

(** [(a, b) => new Date(b.created_at) - new Date(a.created_at)], as the
    stable [sort] uses it: [x] goes in front of the first tweet that is
    not newer.  A comparison with an invalid date counts as a tie; the
    cache only sorts lists from which invalid dates have been filtered. *)
Definition notNewer (y x : tweet) : bool :=
  match created_at y, created_at x with
  | Some cy, Some cx => cy <=? cx
  | _, _ => true
  end.

Fixpoint insertNewest (x : tweet) (l : list tweet) : list tweet :=
  match l with
  | [] => [x]
  | y :: l' => if notNewer y x then x :: y :: l' else y :: insertNewest x l'
  end.

Definition sortNewest (l : list tweet) : list tweet := foldr insertNewest [] l.

(** [t_cut] is the reading of [Date.now()] for the 24-hour cut, [t_set]
    the later one that becomes the fetch time. *)
Definition cacheTweets (username : string) (tweets : list tweet) (t_cut t_set : Z)
    (tc : tweetCache) : tweetCache :=
  match tweets with
  | [] => tc
  | _ :: _ =>
      let freshTweets :=
        take MAX_TWEETS_PER_ACCOUNT
             (sortNewest (filter (fun t => isRecent t_cut t = true) tweets)) in
      mkTweetCache (<[username := freshTweets]> (cache tc))
                   (<[username := t_set]> (lastFetch tc))
  end.

(** [now - lastFetch > this.CACHE_DURATION * 2] *)
Definition overdue (now lastFetched : Z) : Prop := CACHE_DURATION * 2 < now - lastFetched.

Definition swept (now : Z) (tc : tweetCache) (username : string) : Prop :=
  match lastFetch tc !! username with
  | Some lastFetched => overdue now lastFetched
  | None => False
  end.

#[global] Instance overdue_dec now lastFetched : Decision (overdue now lastFetched).
Proof. unfold overdue. apply _. Defined.

#[global] Instance swept_dec now tc username : Decision (swept now tc username).
Proof. unfold swept. destruct (lastFetch tc !! username); apply _. Defined.

(** [cleanup]: every account whose fetch time is overdue is deleted from
    both maps. *)
Definition cleanup (now : Z) (tc : tweetCache) : tweetCache :=
  mkTweetCache
    (filter (fun entry : string * list tweet => ~ swept now tc (fst entry)) (cache tc))
    (filter (fun entry : string * Z => ~ overdue now (snd entry)) (lastFetch tc)).

Record accountStats : Type := mkAccountStats {
  stat_tweets : nat;
  stat_lastFetch : option Z;
  stat_age : Z
}.

Record cacheStats : Type := mkCacheStats {
  totalAccounts : nat;
  totalTweets : nat;
  cacheHitRate : Z;
  accounts : gmap string accountStats
}.

(** [getStats] reads [Date.now()] once for each cached account: [now]
    gives the reading taken for an account. *)
Definition getStats (now : string -> Z) (tc : tweetCache) : cacheStats :=
  mkCacheStats
    (size (cache tc))
    (map_fold (fun _ (tweets : list tweet) total => (total + length tweets)%nat) 0%nat
              (cache tc))
    0
    (map_imap (fun username (tweets : list tweet) =>
                 Some (mkAccountStats (length tweets) (lastFetch tc !! username)
                                      (now username - default 0 (lastFetch tc !! username))))
              (cache tc)).

(** The three writers of the cache, each with its readings of the
    clock. *)
Inductive cacheOp : Type :=
| Put (username : string) (tweets : list tweet) (t_cut t_set : Z)
| Merge (username : string) (t : tweet) (t_cut t_set : Z)
| Sweep (now : Z).

Definition applyOp (tc : tweetCache) (op : cacheOp) : tweetCache :=
  match op with
  | Put username tweets t_cut t_set => cacheTweets username tweets t_cut t_set tc
  | Merge username t t_cut t_set => addNewTweet username t t_cut t_set tc
  | Sweep now => cleanup now tc
  end.

(** The second reading of the clock in a write, which becomes the fetch
    time, comes at most [skew] after the first, which makes the cut. *)
Definition readingsWithin (skew : Z) (op : cacheOp) : Prop :=
  match op with
  | Put _ _ t_cut t_set | Merge _ _ t_cut t_set => t_set <= t_cut + skew
  | Sweep _ => True
  end.

Definition emptyCache : tweetCache := mkTweetCache ∅ ∅.

(** Every entry is capped, has a fetch time, and holds only tweets
    created less than 24 hours and [skew] before that time. *)
Definition wellKept (skew : Z) (tc : tweetCache) : Prop :=
  forall username entry,
    cache tc !! username = Some entry ->
    (length entry <= MAX_TWEETS_PER_ACCOUNT)%nat
    /\ exists fetched,
         lastFetch tc !! username = Some fetched
         /\ Forall (fun t => isRecent (fetched - skew) t = true) entry.

End TweetCacheMore.

(** ** The Twitter service: user ids, fetches, saving *)

Module TwitterService.
Import TweetCache TweetCacheMore.

(** JavaScript truthiness of a string that may be [null]. *)
Definition truthy (s : option string) : bool :=
  match s with
  | Some v => negb (String.eqb v "")
  | None => false
  end.

(** *** [getUserId] *)

Definition USER_CACHE_TTL_MS : Z := 12 * 60 * 60 * 1000.

Record cachedUser : Type := mkCachedUser {
  user_id : string;
  expiresAt : Z
}.

(** What the queued [userByUsername] request comes to: a user, with the
    clock at the time the cache is written; a response without [data];
    or an exception anywhere in the [try] block. *)
Inductive lookup : Type :=
| UserFound (userId : string) (t_done : Z)
| UserMissing
| LookupThrew.

(** The requests handed to [rateLimitManager.queueRequest]. *)
Record timelineOptions : Type := mkOptions {
  max_results : Z;
  since_id : option string;
  until_id : option string
}.

Inductive apiCall : Type :=
| UserLookup (username : string) (priority : Z)
| UserTimeline (username userId : string) (priority : Z) (options : timelineOptions).

Definition getUserId (username : string) (now : Z) (l : lookup)
    (userCache : gmap string cachedUser)
  : option string * gmap string cachedUser * list apiCall :=
  let request :=
    match l with
    | UserFound userId t_done =>
        (Some userId,
         <[username := mkCachedUser userId (t_done + USER_CACHE_TTL_MS)]> userCache,
         [UserLookup username 1])
    | UserMissing => (None, userCache, [UserLookup username 1])
    | LookupThrew => (None, userCache, [UserLookup username 1])
    end in
  match userCache !! username with
  | Some cached =>
      if now <? expiresAt cached then (Some (user_id cached), userCache, [])
      else request
  | None => request
  end.

(** *** [fetchLatestTweets] *)

Inductive timelineOutcome : Type :=
| Timeline (tweets : list tweet)
| TimelineThrew.

(** What one call meets: the clock at the cache read, the clock and the
    outcome of the user lookup, what [getLatestTweetId] answers ([None]
    when it throws), what the timeline request and the iteration over its
    result come to, and the two readings of the clock in [cacheTweets],
    for the 24-hour cut and for the fetch time. *)
Record fetchEnv : Type := mkFetchEnv {
  t_read : Z;
  t_lookup : Z;
  user_lookup : lookup;
  latest_id : option (option string);
  timeline : timelineOutcome;
  t_cut : Z;
  t_write : Z
}.

Record serviceState : Type := mkServiceState {
  tweetCache : TweetCache.tweetCache;
  userCache : gmap string cachedUser
}.

Definition fetchLatestTweets (username : string) (prioritizeNew : bool)
    (maxId : option string) (env : fetchEnv) (st : serviceState)
  : list tweet * serviceState * list apiCall :=
  let afterCache :=
    match getUserId username (t_lookup env) (user_lookup env) (userCache st) with
    | (userId, userCache1, calls1) =>
        let st1 := mkServiceState (tweetCache st) userCache1 in
        if negb (truthy userId) then ([], st1, calls1)
        else
          let request (options : timelineOptions) :=
            let calls2 :=
              calls1 ++ [UserTimeline username (default "" userId)
                                      (if prioritizeNew then 3 else 1) options] in
            match timeline env with
            | TimelineThrew => ([], st1, calls2)
            | Timeline tweetsArray =>
                if prioritizeNew && (0 <? length tweetsArray)%nat then
                  (tweetsArray,
                   mkServiceState
                     (cacheTweets username tweetsArray (t_cut env) (t_write env)
                                  (tweetCache st))
                     userCache1,
                   calls2)
                else (tweetsArray, st1, calls2)
            end in
          if prioritizeNew then
            match latest_id env with
            | None => ([], st1, calls1)
            | Some latestId =>
                request (mkOptions 100 (if truthy latestId then latestId else None) None)
            end
          else request (mkOptions 10 None (if truthy maxId then maxId else None))
    end in
  if prioritizeNew && negb (truthy maxId) then
    match getCachedTweets username (t_read env) (tweetCache st) with
    | Some cachedTweets => (cachedTweets, st, [])
    | None => afterCache
    end
  else afterCache.

(** *** [saveTweetsToDb] *)

Record publicMetrics : Type := mkPublicMetrics {
  retweet_count : option Z;
  like_count : option Z;
  reply_count : option Z;
  quote_count : option Z;
  impression_count : option Z
}.

(** A tweet as [saveTweetsToDb] reads it.  [api_id] is [tweet.id];
    [created] is
    [new Date(tweet.created_at).getTime()] when that is finite;
    [id_bigint] is what [BigInt(String(tweet.id))] evaluates to, [None]
    when it throws. *)
Record apiTweet : Type := mkApiTweet {
  api_id : string;
  id_bigint : option Z;
  text : string;
  created : option Z;
  public_metrics : option publicMetrics
}.

Inductive sqlValue : Type :=
| SqlText (s : string)
| SqlNumber (z : Z)
| SqlDate (ms : option Z).

(** [tweet.public_metrics?.retweet_count || 0] *)
Definition metric (field : publicMetrics -> option Z) (t : apiTweet) : Z :=
  default 0 (public_metrics t ≫= field).

(** [Number.isFinite(created.getTime()) ? created.getTime()
      : Number((BigInt(String(tweet.id)) >> 22n) + 1288834974657n)];
    the conversion to a number is exact below 2^53. *)
Definition createdMs (t : apiTweet) : option Z :=
  match created t with
  | Some ms => Some ms
  | None =>
      match id_bigint t with
      | Some n => Some (Z.shiftr n 22 + 1288834974657)
      | None => None
      end
  end.

Definition rowOf (username : string) (t : apiTweet) : option (list sqlValue) :=
  match createdMs t with
  | Some ms =>
      Some [SqlText (api_id t); SqlText (text t); SqlDate (created t); SqlNumber ms;
            SqlNumber (metric retweet_count t); SqlNumber (metric like_count t);
            SqlNumber (metric reply_count t); SqlNumber (metric quote_count t);
            SqlNumber (metric impression_count t);
            SqlText ("https://twitter.com/" ++ username ++ "/status/" ++ api_id t)%string;
            SqlText username]
  | None => None
  end.

(** [batch.map(...)]: the first row that throws ends the mapping. *)
Fixpoint rowsOf (username : string) (batch : list apiTweet)
  : option (list (list sqlValue)) :=
  match batch with
  | [] => Some []
  | t :: rest =>
      match rowOf username t with
      | Some row =>
          match rowsOf username rest with
          | Some rows => Some (row :: rows)
          | None => None
          end
      | None => None
      end
  end.

Definition BATCH_SIZE : nat := 25.

(** [tweets.slice(i, j)] for [i <= j]. *)
Definition slice {A : Type} (i j : nat) (l : list A) : list A :=
  take (j - i) (drop i l).

(** One [pool.execute]: the placeholder text of the statement and the
    parameters bound to it. *)
Record statement : Type := mkStatement {
  placeholders : string;
  flatParams : list sqlValue
}.

Definition statementOf (rows : list (list sqlValue)) : statement :=
  mkStatement
    (String.concat ", " (map (fun _ => "(?, ?, ?, ?, ?, ?, ?, ?, ?, ?, ?, ?)"%string) rows))
    (concat rows).

(** How a call ends: it returns, or an exception leaves it. *)
Inductive ending : Type :=
| Returned
| Threw.

(** The [for] loop from index [i]; [fuel] bounds the iterations.  Every
    error of [pool.execute] is caught and logged, so the outcome of a
    statement does not enter. *)
Fixpoint saveBatches (fuel i : nat) (tweets : list apiTweet) (username : string)
    (executed : list statement) : list statement * ending :=
  match fuel with
  | O => (executed, Returned)
  | S fuel' =>
      if (i <? length tweets)%nat then
        let batch := slice i (i + BATCH_SIZE) tweets in
        match rowsOf username batch with
        | Some rows =>
            saveBatches fuel' (i + BATCH_SIZE) tweets username
                        (executed ++ [statementOf rows])
        | None => (executed, Threw)
        end
      else (executed, Returned)
  end.

(** [dbReady]: whether [getPool()] finds the pool initialised. *)
Definition saveTweetsToDb (dbReady : bool) (tweets : list apiTweet)
    (username : string) : list statement * ending :=
  if dbReady then saveBatches (length tweets) 0 tweets username []
  else ([], Threw).

(** A batch and the statement executed for it. *)
Definition savedAs (username : string) (batch : list apiTweet) (s : statement) : Prop :=
  exists rows, rowsOf username batch = Some rows /\ s = statementOf rows.

(** No batch is empty or longer than [BATCH_SIZE], and all but the last
    are full. *)
Definition batched (batches : list (list apiTweet)) : Prop :=
  forall k batch,
    batches !! k = Some batch ->
    (0 < length batch <= BATCH_SIZE)%nat
    /\ (S k < length batches -> length batch = BATCH_SIZE)%nat.

(** The character [?]. *)
Definition placeholderMark : Ascii.ascii :=
  Eval cbv in match "?"%string with
              | String c _ => c
              | EmptyString => Ascii.zero
              end.

(** The number of occurrences of a character. *)
Fixpoint countChar (c : Ascii.ascii) (s : string) : nat :=
  match s with
  | EmptyString => 0
  | String c' s' => ((if Ascii.eqb c c' then 1 else 0) + countChar c s')%nat
  end.

End TwitterService.

Module TrackerService.

Definition minSyncIntervalMs : Z := 45000.

(** *** [syncLatestTweets]

    [twitterService.fetchLatestTweets] wraps its whole body in
    [try { ... } catch (error) { ...; return []; }]: a fetch that fails
    comes back as the empty list and nothing is thrown. *)

Inductive fetch_attempt : Type :=
| FetchOk (tweets : list TwitterService.apiTweet)
| FetchFailed.

Definition fetchLatestTweets (a : fetch_attempt) : list TwitterService.apiTweet :=
  match a with
  | FetchOk l => l
  | FetchFailed => []
  end.

(** The environment of one pass of the [for] loop over the usernames:
    the clock at the cooldown test, what the fetch does, whether
    [getPool()] finds the pool when the fetched tweets are saved, and the
    clock when [accountSync] is written. *)
Record syncPass : Type := mkSyncPass {
  t_cooldown : Z;
  fetch_result : fetch_attempt;
  db_ready : bool;
  t_synced : Z
}.

(** What is done with fetched tweets before [accountSync.set].  Of the
    calls in that stretch only [saveTweetsToDb] can throw: [global.notify]
    and [global.aiMaybeUpdate] (routes/api.js) are [async] functions whose
    whole body is one [try] block with a logging [catch], and the emit to
    the sockets does not throw. *)
Definition delivery_throws (username : string) (e : syncPass) : bool :=
  let newTweets := fetchLatestTweets (fetch_result e) in
  (0 <? length newTweets)%nat
  && match snd (TwitterService.saveTweetsToDb (db_ready e) newTweets username) with
     | TwitterService.Threw => true
     | TwitterService.Returned => false
     end.

Record syncState : Type := mkSyncState {
  accountSync : gmap string Z;
  fetchesIssued : list string
}.

Definition syncAccount (username : string) (e : syncPass) (s : syncState)
  : syncState :=
  let lastSync := default 0 (accountSync s !! username) in
  if t_cooldown e - lastSync <? minSyncIntervalMs then s
  else
    let issued := fetchesIssued s ++ [username] in
    if delivery_throws username e then
      mkSyncState (accountSync s) issued
    else
      mkSyncState (<[username := t_synced e]> (accountSync s)) issued.

Fixpoint syncLatestTweets (usernames : list string) (es : list syncPass)
    (s : syncState) : syncState :=
  match usernames, es with
  | u :: us, e :: es' => syncLatestTweets us es' (syncAccount u e s)
  | _, _ => s
  end.

(** *** [runSmartBackfill] *)

Record accountInfo : Type := mkAccountInfo {
  username : string;
  lastBackfillId : option string;
  completed : bool
}.

Record backfillState : Type := mkBackfillState {
  currentAccount : nat;
  totalTweetsBackfilled : Z;
  accountProgress : list accountInfo
}.

(** [initializeBackfillSystem]: one entry per account, none completed;
    [oldest] is what [getOldestTweetId] answers. *)
Definition initializeBackfillSystem (accounts : list string)
    (oldest : string -> option string) : backfillState :=
  mkBackfillState 0 0 (map (fun u => mkAccountInfo u (oldest u) false) accounts).

(** What the backfill loop does that others can see. *)
Inductive backfillEvent : Type :=
| BackfillFetch (account : nat) (empty : bool)
| CycleReset.

(** What the [try] block of one pass meets: [fetchLatestTweets] returns
    tweets, of which [newTweets] are saved without error; or it throws; or
    it returns and an exception escapes afterwards, once the two requests
    have been counted and before anything is written to the account. *)
Inductive backfillFetch : Type :=
| Fetched (oldTweets : list tweet) (newTweets : Z)
| FetchThrew
| SaveThrew.

Record backfillPass : Type := mkBackfillPass {
  running : bool;
  fetched : backfillFetch
}.

Definition nextAccount (st : backfillState) : nat :=
  ((currentAccount st + 1) mod length (accountProgress st))%nat.

Definition setCompleted (b : bool) (a : accountInfo) : accountInfo :=
  mkAccountInfo (username a) (lastBackfillId a) b.

Section Backfill.

(** [requestsUsed < maxBackfillRequests]; [maxBackfillRequests] is a
    floating-point fraction of the remaining quota and stays abstract. *)
Variable withinBudget : Z -> bool.

(** The [while] loop of [runSmartBackfill]; the script of passes bounds
    the number of iterations. *)
Fixpoint backfillLoop (startAccount : nat) (requestsUsed : Z)
    (passes : list backfillPass) (st : backfillState)
    (trace : list backfillEvent) : backfillState * list backfillEvent :=
  match passes with
  | [] => (st, trace)
  | p :: passes' =>
      if negb (withinBudget requestsUsed && running p) then (st, trace)
      else
        match accountProgress st !! currentAccount st with
        | None => (st, trace)
        | Some accountInfo0 =>
            if completed accountInfo0 then
              let st1 := mkBackfillState (nextAccount st) (totalTweetsBackfilled st)
                                         (accountProgress st) in
              if Nat.eqb (currentAccount st1) startAccount then
                (mkBackfillState (currentAccount st1) (totalTweetsBackfilled st1)
                                 (map (setCompleted false) (accountProgress st1)),
                 trace ++ [CycleReset])
              else backfillLoop startAccount requestsUsed passes' st1 trace
            else
              match fetched p with
              | Fetched oldTweets newTweets =>
                  let i := currentAccount st in
                  match last oldTweets with
                  | Some oldestTweet =>
                      let a' := mkAccountInfo (username accountInfo0)
                                              (Some (tweet_id oldestTweet))
                                              (completed accountInfo0) in
                      let st1 := mkBackfillState (nextAccount st)
                                   (totalTweetsBackfilled st + newTweets)
                                   (<[i := a']> (accountProgress st)) in
                      backfillLoop startAccount (requestsUsed + 2) passes' st1
                                   (trace ++ [BackfillFetch i false])
                  | None =>
                      let st1 := mkBackfillState (nextAccount st)
                                   (totalTweetsBackfilled st)
                                   (<[i := setCompleted true accountInfo0]>
                                      (accountProgress st)) in
                      backfillLoop startAccount (requestsUsed + 2) passes' st1
                                   (trace ++ [BackfillFetch i true])
                  end
              | FetchThrew =>
                  let st1 := mkBackfillState (nextAccount st)
                               (totalTweetsBackfilled st) (accountProgress st) in
                  backfillLoop startAccount (requestsUsed + 1) passes' st1
                               (trace ++ [BackfillFetch (currentAccount st) false])
              | SaveThrew =>
                  let st1 := mkBackfillState (nextAccount st)
                               (totalTweetsBackfilled st) (accountProgress st) in
                  backfillLoop startAccount (requestsUsed + 2 + 1) passes' st1
                               (trace ++ [BackfillFetch (currentAccount st) false])
              end
        end
  end.

(** One call of [runSmartBackfill] that got past the budget test. *)
Definition runSmartBackfill (passes : list backfillPass)
    (st : backfillState) (trace : list backfillEvent)
  : backfillState * list backfillEvent :=
  backfillLoop (currentAccount st) 0 passes st trace.

(** Successive calls, as [scheduleNextBackfill] arranges them. *)
Fixpoint backfillSessions (sessions : list (list backfillPass))
    (st : backfillState) (trace : list backfillEvent)
  : backfillState * list backfillEvent :=
  match sessions with
  | [] => (st, trace)
  | passes :: rest =>
      let '(st1, trace1) := runSmartBackfill passes st trace in
      backfillSessions rest st1 trace1
  end.

End Backfill.

End TrackerService.

(** ** Histories of calls on the quota tracker

    The callers of [canMakeRequest] and [recordRequest]: a bare check, a
    bare recording, and the pair the drain loop makes for a request it
    admits, where the recording follows a check that answered [true]. *)

Module History.
Import RateLimitManager.

Inductive call : Type :=
| CallCheck (endpoint : string) (accountId : option string) (now : Z)
| CallRecord (endpoint : string) (accountId : option string)
             (responseHeaders : option headers) (now : Z)
| CallAdmitted (endpoint : string) (accountId : option string) (t_check : Z)
               (responseHeaders : option headers) (t_record : Z).

Definition apply_call (p : plan) (q : quota) (c : call) : quota :=
  match c with
  | CallCheck e a now => snd (canMakeRequest p e a now q)
  | CallRecord e a h now => recordRequest p e a h now q
  | CallAdmitted e a t1 h t2 =>
      let '(canProceed, q1) := canMakeRequest p e a t1 q in
      if canProceed then recordRequest p e a h t2 q1 else q1
  end.

Definition apply_calls (p : plan) (q : quota) (history : list call) : quota :=
  fold_left (apply_call p) history q.

Definition call_times (c : call) : list Z :=
  match c with
  | CallCheck _ _ now | CallRecord _ _ _ now => [now]
  | CallAdmitted _ _ t1 _ t2 => [t1; t2]
  end.

(** No recording without an admission. *)
Definition admitted_only (c : call) : Prop :=
  match c with
  | CallRecord _ _ _ _ => False
  | _ => True
  end.

(** No row of the table belongs to a window that starts at [from] or
    later. *)
Definition quiet_from (from : Z) (d : pool) : Prop :=
  forall k w, from <= w -> stored_count k w d = 0.

(** The quota state at time [T] of a store that stays reachable: no row
    lies in a window that starts after [T], and no metered key has a
    window whose count exceeds the limit of its endpoint. *)
Definition withinLimits (p : plan) (T : Z) (q : quota) : Prop :=
  outages (db q) = []
  /\ (forall k w, T < w -> stored_count k w (db q) = 0)
  /\ (forall e a l W, limits p e = Some l ->
                      stored_count (cacheKey e a) W (db q) <= requests l).

End History.

(** ** Orders on the request queue *)

Module QueueOrder.
Import RateLimitManager.

(** [x] may stand before [y]: its priority is at least as high. *)
Definition notLower (x y : request) : Prop := req_priority y <= req_priority x.

(** The band of one priority, in queue order. *)
Definition band (pr : Z) (l : list request) : list request :=
  filter (fun r => req_priority r = pr) l.

(** The attempt ends in a provider throttle. *)
Definition throttled (a : attempt) : bool :=
  match result_of_call a with
  | Fails e => is429 e
  | Succeeds _ => false
  end.

(** The inputs that let the loop work through its queue: each awaited
    request settles and the delay after it elapses. *)
Definition settleAll (atts : list attempt) : list input :=
  flat_map (fun a => [Settle a; Resume]) atts.

(** The throttle policy in the words of the specification: the request
    is "re-inserted at the tail of its (now lower) priority band", that is
    behind every queued request whose priority is at least its own. *)
Fixpoint insertAtBandTail (r : request) (q : list request) : list request :=
  match q with
  | [] => [r]
  | y :: q' =>
      if req_priority r <=? req_priority y then y :: insertAtBandTail r q'
      else r :: y :: q'
  end.

(** The request with its priority lowered as the 429 branch lowers it. *)
Definition demoted (r : request) : request :=
  mkRequest (req_id r) (req_endpoint r) (req_accountId r)
            (Z.max 0 (req_priority r - 1)) (req_timestamp r).

End QueueOrder.

(** ** Reading a backfill trace *)

Module BackfillTrace.
Import TrackerService.

#[global] Instance backfillEvent_eq_dec : EqDecision backfillEvent.
Proof. solve_decision. Defined.






End BackfillTrace.

(** ** More of the rate limit manager: housekeeping and bookkeeping *)

Module Housekeeping.
Import RateLimitManager.

Definition twentyFourHoursMs : Z := 24 * 60 * 60 * 1000.

(** [DELETE FROM rate_limits WHERE window_start < ?]; the answer is the
    number of rows affected. *)
Definition delete_older (cutoffTime : Z) (d : pool) : result db_error nat * pool :=
  let '(down, d') := next_outage d in
  if down then (Threw ER_OTHER, d')
  else match rate_limits d' with
       | None => (Threw ER_NO_SUCH_TABLE, d')
       | Some t =>
           let kept := filter (fun row : (string * Z) * Z => cutoffTime <= snd (fst row)) t in
           (Returned (size t - size kept)%nat, mkPool (Some kept) (outages d'))
       end.

(** [cleanupOldRecords]: the error of a failing delete is logged and
    dropped. *)
Definition cleanupOldRecords (now : Z) (q : quota) : quota :=
  let cutoffTime := now - twentyFourHoursMs in
  match delete_older cutoffTime (db q) with
  | (_, d') => mkQuota (rateLimitCache q) d'
  end.

(** What becomes of the requests handed to [queueRequest]. *)
Definition resolvedIds (l : list event) : list nat :=
  omap (fun e => match e with Resolved id => Some id | _ => None end) l.

Definition rejectedIds (l : list event) : list nat :=
  omap (fun e => match e with Rejected id => Some id | _ => None end) l.

Definition inFlight (s : scheduler) : list nat :=
  match pc s with
  | AwaitingRequest r => [req_id r]
  | _ => []
  end.

Definition enqueuedIds (inputs : list input) : list nat :=
  omap (fun i => match i with Enqueue r => Some (req_id r) | _ => None end) inputs.

(** Every request the manager holds or has settled. *)
Definition accountedIds (s : scheduler) : list nat :=
  map req_id (requestQueue s) ++ inFlight s ++ resolvedIds (log s) ++ rejectedIds (log s).

(** The manager as its constructor leaves it. *)
Definition freshManager (q : quota) : scheduler :=
  mkScheduler [] false NotRunning q [].

(** The flag says whether the loop is active, and an inactive loop has
    left nothing in the queue. *)
Definition coherent (s : scheduler) : Prop :=
  (isProcessingQueue s = true <-> pc s <> NotRunning)
  /\ (pc s = NotRunning -> requestQueue s = []).

(** The stored count as a read at [windowStart] finds it: a [NaN] window
    matches no row. *)
Definition stored_at (key : string) (windowStart : num) (d : pool) : Z :=
  match windowStart with
  | Num w => stored_count key w d
  | NaN => 0
  end.

(** The count of every cache entry is the stored count of its key and
    window. *)
Definition cacheAgrees (q : quota) : Prop :=
  forall k entry, rateLimitCache q !! k = Some entry ->
                  cached_count entry = stored_at k (cached_windowStart entry) (db q).

(** [accountId] as [cacheKey] reads it: the empty string counts as none. *)
Definition truthyAccount (accountId : option string) : option string :=
  match accountId with
  | Some a => if String.eqb a "" then None else Some a
  | None => None
  end.

End Housekeeping.


(** ** What a backfill session costs and keeps *)

Module BackfillBudget.
Import TrackerService.

Definition isFetch (ev : backfillEvent) : bool :=
  match ev with
  | BackfillFetch _ _ => true
  | CycleReset => false
  end.

(** The calls of [fetchLatestTweets] in a stretch of the trace. *)
Definition fetches (trace : list backfillEvent) : nat :=
  length (filter (fun ev => isFetch ev = true) trace).

Definition usernames (st : backfillState) : list string :=
  map username (accountProgress st).

(** The cursor points at an account. *)
Definition cursorValid (st : backfillState) : Prop :=
  (currentAccount st < length (accountProgress st))%nat.

End BackfillBudget.

(** ** Sync times *)

Module SyncTimes.
Import TrackerService.

(** The account's recorded sync time is [t0] or later. *)
Definition syncedSince (t0 : Z) (s : syncState) (u : string) : Prop :=
  exists ts, accountSync s !! u = Some ts /\ t0 <= ts.

End SyncTimes.


(** * Properties *)

Import RateLimitManager.

(** ** Quota tracking *)

Section QuotaFacts.

Variable p : plan.

Lemma limits_positive e l :
  limits p e = Some l -> 0 < requests l /\ windowMs l = 900000.
Proof.
  unfold limits, rateLimits.
  destruct p; repeat case_match; intros [= <-]; cbn; split; reflexivity || lia.
Qed.

Lemma limits_known e l :
  limits p e = Some l ->
  e = "userTimeline" \/ e = "userLookup" \/ e = "searchStream" \/ e = "streamRules".
Proof.
  unfold limits, rateLimits.
  destruct (String.eqb_spec e "userTimeline"); [auto |].
  destruct (String.eqb_spec e "userLookup"); [auto |].
  destruct (String.eqb_spec e "searchStream"); [auto |].
  destruct (String.eqb_spec e "streamRules"); [auto |].
  destruct p; discriminate.
Qed.

(** Two metered endpoints never share a key: the key tells the endpoint. *)
Lemma cacheKey_endpoint e a l e' a' l' :
  limits p e = Some l -> limits p e' = Some l' ->
  cacheKey e a = cacheKey e' a' -> e = e'.
Proof.
  intros He He'.
  apply limits_known in He. apply limits_known in He'.
  unfold cacheKey.
  destruct a as [a |]; [destruct (String.eqb a "") |];
    (destruct a' as [a' |]; [destruct (String.eqb a' "") |]);
    destruct He as [-> | [-> | [-> | ->]]];
    destruct He' as [-> | [-> | [-> | ->]]];
    cbn; intros H; try reflexivity; try discriminate H.
Qed.

Lemma limitOf_own e l : limits p e = Some l -> limitOf p e = Own l.
Proof. intros Hl. unfold limitOf. rewrite Hl. reflexivity. Qed.

Lemma limitOf_Own e l : limitOf p e = Own l -> limits p e = Some l.
Proof.
  unfold limitOf. destruct (limits p e) as [l' |]; [congruence |].
  case_bool_decide; discriminate.
Qed.

Lemma limitOf_other e :
  limits p e = None -> limitOf p e = Inherited \/ limitOf p e = Undefined.
Proof.
  intros Hl. unfold limitOf. rewrite Hl. case_bool_decide; auto.
Qed.

Lemma windowStartOf_le l now : 0 < windowMs l -> windowStartOf l now <= now.
Proof.
  intros Hw. unfold windowStartOf.
  rewrite Z.mul_comm. apply Z.mul_div_le. exact Hw.
Qed.

Lemma windowStartOf_mono l t1 t2 :
  0 < windowMs l -> t1 <= t2 -> windowStartOf l t1 <= windowStartOf l t2.
Proof.
  intros Hw Hle. unfold windowStartOf.
  apply Z.mul_le_mono_nonneg_r; [lia |].
  apply Z.div_le_mono; lia.
Qed.

Lemma windowStartOf_next l now :
  0 < windowMs l -> now < windowStartOf l now + windowMs l.
Proof.
  intros Hw. unfold windowStartOf.
  pose proof (Z.mod_pos_bound now (windowMs l) Hw) as Hm.
  pose proof (Z.div_mod now (windowMs l)) as Hd.
  lia.
Qed.

End QuotaFacts.

(** C10.  [this.limits[endpoint]] is a property read on an object
    literal.  A name the object does not have, own or inherited, is not
    metered: [canMakeRequest] answers [true] without touching the cache or
    the store, and [recordRequest] returns without recording anything.  A
    name inherited from [Object.prototype], such as ["constructor"], is in
    no limits table and yet passes the [if (!limit)] guard: the check
    queries the store and answers [false] whatever it reads, and the
    recording sends its insert. *)
Theorem inherited_endpoint_is_refused :
  (forall p endpoint accountId responseHeaders now q,
      limitOf p endpoint = Undefined ->
      canMakeRequest p endpoint accountId now q = (true, q)
      /\ recordRequest p endpoint accountId responseHeaders now q = q)
  /\ (forall p endpoint accountId now q,
        endpoint ∈ objectPrototypeNames ->
        limits p endpoint = None
        /\ fst (canMakeRequest p endpoint accountId now q) = false)
  /\ (let q := mkQuota ∅ (mkPool (Some ∅) [false; true]) in
      limits pro "constructor" = None
      /\ canMakeRequest pro "constructor" None 1700000000000 q
         = (false,
            mkQuota {[ "constructor" :=
                         mkEntry "constructor" NaN 0 NaN NaN NaN 1700000000000 ]}
                    (mkPool (Some ∅) [true]))
      /\ outages (db (recordRequest pro "constructor" None None 1700000000000 q))
         = [true]).
Proof.
  split; [| split].
  - intros p endpoint accountId responseHeaders now q Hnone.
    unfold canMakeRequest, recordRequest. rewrite Hnone. split; reflexivity.
  - intros p endpoint accountId now q Hin.
    assert (Hnone : limits p endpoint = None).
    { unfold objectPrototypeNames in Hin.
      repeat (apply elem_of_cons in Hin as [-> | Hin]; [destruct p; reflexivity |]).
      apply elem_of_nil in Hin. contradiction. }
    split; [exact Hnone |].
    unfold canMakeRequest, limitOf. rewrite Hnone.
    rewrite bool_decide_eq_true_2 by exact Hin.
    destruct (getCurrentUsage endpoint NaN accountId (db q)) as [[c | err] d'];
      reflexivity.
  - vm_compute. repeat split; reflexivity.
Qed.

(** C6, as stated, does not hold: when the read throws because the
    [rate_limits] table does not exist, [getCurrentUsage] creates the table
    and answers a count of 0, and the request is admitted. *)
Lemma missing_table_read_admits :
  let q := mkQuota ∅ (mkPool None []) in
  let l := mkLimit 280 900000 in
  limits pro "userTimeline" = Some l
  /\ select_usage (cacheKey "userTimeline" None) (windowStartOf l 1700000000000) (db q)
     = (Threw ER_NO_SUCH_TABLE, db q)
  /\ fst (canMakeRequest pro "userTimeline" None 1700000000000 q) = true.
Proof. vm_compute. repeat split; reflexivity. Qed.

(** C6, amended.  If the read of the stored count throws anything but
    "no such table", or throws "no such table" and creating the table
    throws as well, [canMakeRequest] returns [false] and leaves the cache
    as it was.  If it throws "no such table" and the table is then created,
    the count is taken as 0 and the request is admitted. *)
Theorem canMakeRequest_fails_closed p e a now q l err db1 :
  limits p e = Some l ->
  select_usage (cacheKey e a) (windowStartOf l now) (db q) = (Threw err, db1) ->
  (err <> ER_NO_SUCH_TABLE
   \/ (exists err' db2, createRateLimitTable db1 = (Threw err', db2)) ->
   fst (canMakeRequest p e a now q) = false
   /\ rateLimitCache (snd (canMakeRequest p e a now q)) = rateLimitCache q)
  /\ (err = ER_NO_SUCH_TABLE ->
      (exists db2, createRateLimitTable db1 = (Returned tt, db2)) ->
      fst (canMakeRequest p e a now q) = true).
Proof.
  intros Hl Hsel. unfold canMakeRequest, getCurrentUsage.
  rewrite (limitOf_own p e l Hl), Hsel.
  pose proof (limits_positive p e l Hl) as [Hreq _].
  split.
  - intros Hcase. destruct err.
    + destruct Hcase as [Hne | (err' & db2 & Hcreate)]; [congruence |].
      rewrite Hcreate. split; reflexivity.
    + split; reflexivity.
  - intros -> (db2 & ->). cbn. apply Z.ltb_lt. lia.
Qed.

Lemma canMakeRequest_fails_closed_witness :
  let q := mkQuota ∅ (mkPool (Some ∅) [true]) in
  fst (canMakeRequest pro "userTimeline" None 1700000000000 q) = false
  /\ rateLimitCache (snd (canMakeRequest pro "userTimeline" None 1700000000000 q))
     = rateLimitCache q.
Proof.
  intros q.
  destruct (canMakeRequest_fails_closed pro "userTimeline" None 1700000000000 q
              (mkLimit 280 900000) ER_OTHER (mkPool (Some ∅) []) eq_refl eq_refl)
    as [Hclosed _].
  apply Hclosed. left. discriminate.
Defined.

Import History.

Section StoredCounts.

Variable p : plan.

Lemma getCurrentUsage_stored_count e (ws : num) a d r d' k w :
  getCurrentUsage e ws a d = (r, d') -> stored_count k w d' = stored_count k w d.
Proof.
  unfold getCurrentUsage, createRateLimitTable, select_usage, create_table, next_outage.
  destruct d as [tbl outs]. cbn.
  destruct outs as [| [] outs]; cbn;
    destruct tbl as [t |]; cbn;
    repeat (case_match; cbn in *; simplify_eq);
    intros; simplify_eq; try reflexivity.
  all: unfold stored_count; cbn; rewrite ?lookup_empty; reflexivity.
Qed.

Lemma getCurrentUsage_outages e (ws : num) a d r d' :
  getCurrentUsage e ws a d = (r, d') -> outages d = [] -> outages d' = [].
Proof.
  unfold getCurrentUsage, createRateLimitTable, select_usage, create_table, next_outage.
  destruct d as [tbl outs]. cbn. intros Hg ->. revert Hg.
  destruct tbl as [t |]; cbn;
    repeat (case_match; cbn in *; simplify_eq);
    intros; simplify_eq; reflexivity.
Qed.

Lemma getCurrentUsage_returns e (ws : Z) a d c d' :
  getCurrentUsage e ws a d = (Returned c, d') ->
  c = stored_count (cacheKey e a) ws d.
Proof.
  unfold getCurrentUsage, createRateLimitTable, select_usage, create_table,
    next_outage, stored_count.
  destruct d as [tbl outs]. cbn.
  destruct outs as [| [] outs]; cbn; destruct tbl as [t |]; cbn;
    repeat (case_match; cbn in *; simplify_eq); intros; simplify_eq;
    cbn; try reflexivity; try congruence.
  all: match goal with H : _ !! _ = _ |- _ => rewrite H end; reflexivity.
Qed.

(** A read at a [NaN] window finds no row. *)
Lemma getCurrentUsage_returns_NaN e a d c d' :
  getCurrentUsage e NaN a d = (Returned c, d') -> c = 0.
Proof.
  unfold getCurrentUsage, createRateLimitTable, select_usage, create_table, next_outage.
  destruct d as [tbl outs]. cbn.
  destruct outs as [| [] outs]; cbn; destruct tbl as [t |]; cbn;
    repeat (case_match; cbn in *; simplify_eq); intros; simplify_eq; reflexivity.
Qed.

Lemma getCurrentUsage_available e (ws : num) a d :
  outages d = [] -> exists c d', getCurrentUsage e ws a d = (Returned c, d').
Proof.
  intros Hout.
  unfold getCurrentUsage, createRateLimitTable, select_usage, create_table, next_outage.
  destruct d as [tbl outs]. cbn in *. subst outs.
  destruct tbl as [t |]; cbn.
  - destruct ws as [w |]; [destruct (t !! (cacheKey e a, w)) |]; eauto.
  - eauto.
Qed.

Lemma canMakeRequest_stored_count e a now q k w :
  stored_count k w (db (snd (canMakeRequest p e a now q))) = stored_count k w (db q).
Proof.
  unfold canMakeRequest.
  destruct (limitOf p e) as [l | |]; [| | reflexivity].
  - destruct (getCurrentUsage e (windowStartOf l now) a (db q)) as [[c | err] d'] eqn:Hg;
      cbn; eapply getCurrentUsage_stored_count; exact Hg.
  - destruct (getCurrentUsage e NaN a (db q)) as [[c | err] d'] eqn:Hg;
      cbn; eapply getCurrentUsage_stored_count; exact Hg.
Qed.

Lemma canMakeRequest_outages e a now q :
  outages (db q) = [] -> outages (db (snd (canMakeRequest p e a now q))) = [].
Proof.
  intros Hout. unfold canMakeRequest.
  destruct (limitOf p e) as [l | |]; [| | exact Hout].
  - destruct (getCurrentUsage e (windowStartOf l now) a (db q)) as [[c | err] d'] eqn:Hg;
      cbn; eapply getCurrentUsage_outages; eassumption.
  - destruct (getCurrentUsage e NaN a (db q)) as [[c | err] d'] eqn:Hg;
      cbn; eapply getCurrentUsage_outages; eassumption.
Qed.

Lemma upsert_usage_stored_count key (ws : Z) d r d' k w :
  upsert_usage key ws d = (r, d') ->
  stored_count k w d' =
    if decide ((k, w) = (key, ws)) then
      match r with
      | Returned _ => stored_count k w d + 1
      | Threw _ => stored_count k w d
      end
    else stored_count k w d.
Proof.
  unfold upsert_usage, next_outage, stored_count.
  destruct d as [tbl outs]. cbn.
  destruct outs as [| [] outs]; cbn; destruct tbl as [t |]; cbn;
    intros; simplify_eq; cbn; try (case_decide; reflexivity).
  all: rewrite lookup_insert.
  all: destruct (decide ((k, w) = (key, ws))) as [Heq | Hne].
  all: try (simplify_eq; rewrite decide_True by reflexivity;
            destruct (t !! (key, ws)); cbn; lia).
  all: rewrite decide_False by congruence; reflexivity.
Qed.

(** An insert at a [NaN] window touches no row of an integer window. *)
Lemma upsert_usage_NaN key d r d' k w :
  upsert_usage key NaN d = (r, d') ->
  stored_count k w d' = stored_count k w d
  /\ (outages d = [] -> outages d' = []).
Proof.
  unfold upsert_usage, next_outage, stored_count.
  destruct d as [tbl outs]. cbn.
  destruct outs as [| [] outs]; cbn; destruct tbl as [t |]; cbn;
    intros; simplify_eq; cbn; split; try reflexivity; discriminate.
Qed.

Lemma recordRequest_stored_count e a h now q l k w :
  limits p e = Some l ->
  exists bump : Z,
    (bump = 0 \/ bump = 1)
    /\ stored_count k w (db (recordRequest p e a h now q)) =
       if decide ((k, w) = (cacheKey e a, windowStartOf l now))
       then stored_count k w (db q) + bump
       else stored_count k w (db q).
Proof.
  intros Hl. unfold recordRequest, recordIn, incrementUsage.
  rewrite (limitOf_own p e l Hl).
  destruct (upsert_usage (cacheKey e a) (windowStartOf l now) (db q)) as [[[] | err] d'] eqn:Hu;
    cbn; rewrite (upsert_usage_stored_count _ _ _ _ _ k w Hu).
  - exists 1. split; [right; reflexivity | reflexivity].
  - exists 0. split; [left; reflexivity |]. case_decide; lia.
Qed.

Lemma recordRequest_undefined e a h now q :
  limitOf p e = Undefined -> recordRequest p e a h now q = q.
Proof. intros Hl. unfold recordRequest. rewrite Hl. reflexivity. Qed.

(** A recording for a name without a configured limit changes no stored
    count. *)
Lemma recordRequest_unknown e a h now q k w :
  limits p e = None ->
  stored_count k w (db (recordRequest p e a h now q)) = stored_count k w (db q).
Proof.
  intros Hl. unfold recordRequest.
  destruct (limitOf_other p e Hl) as [-> | ->]; [| reflexivity].
  unfold recordIn, incrementUsage.
  destruct (upsert_usage (cacheKey e a) NaN (db q)) as [[[] | err] d'] eqn:Hu;
    cbn; apply (upsert_usage_NaN _ _ _ _ k w Hu).
Qed.

(** With the store reachable, the check reads the stored count of the
    current window and writes it to the cache. *)
Lemma canMakeRequest_available e a now q l :
  limits p e = Some l ->
  outages (db q) = [] ->
  let ws := windowStartOf l now in
  let c := stored_count (cacheKey e a) ws (db q) in
  exists d',
    canMakeRequest p e a now q =
      (0 <? requests l - c,
       mkQuota (<[cacheKey e a := mkEntry e ws c (requests l) (requests l - c)
                                          (ws + windowMs l) now]> (rateLimitCache q)) d')
    /\ outages d' = [].
Proof.
  intros Hl Hout ws c. subst ws c.
  unfold canMakeRequest, getCurrentUsage, createRateLimitTable, select_usage,
    create_table, next_outage, stored_count.
  rewrite (limitOf_own p e l Hl).
  destruct q as [cache0 [tbl outs]]. cbn in *. subst outs. cbn.
  destruct tbl as [t |]; cbn.
  - destruct (t !! (cacheKey e a, windowStartOf l now)) as [c |] eqn:Hc; cbn;
      eexists; split; reflexivity.
  - eexists; split; reflexivity.
Qed.

End StoredCounts.

Section Rollover.

Variable p : plan.

Lemma recordRequest_quiet e a h now q from :
  now < from -> quiet_from from (db q) ->
  quiet_from from (db (recordRequest p e a h now q)).
Proof.
  intros Hlt Hq k w Hw.
  destruct (limits p e) as [l |] eqn:Hl.
  - destruct (recordRequest_stored_count p e a h now q l k w Hl) as (bump & _ & ->).
    rewrite decide_False; [apply Hq; exact Hw |].
    intros [= _ ->].
    pose proof (limits_positive p e l Hl) as [_ Hwin].
    pose proof (windowStartOf_le l now ltac:(lia)). lia.
  - rewrite recordRequest_unknown by exact Hl. apply Hq; exact Hw.
Qed.

Lemma canMakeRequest_quiet e a now q from :
  quiet_from from (db q) -> quiet_from from (db (snd (canMakeRequest p e a now q))).
Proof.
  intros Hq k w Hw. rewrite canMakeRequest_stored_count. apply Hq; exact Hw.
Qed.

Lemma apply_call_quiet c q from :
  Forall (fun t => t < from) (call_times c) -> quiet_from from (db q) ->
  quiet_from from (db (apply_call p q c)).
Proof.
  destruct c as [e a now | e a h now | e a t1 h t2]; cbn; intros Ht Hq.
  - apply canMakeRequest_quiet; exact Hq.
  - apply recordRequest_quiet; [| exact Hq]. inversion Ht; assumption.
  - pose proof (canMakeRequest_quiet e a t1 q from Hq) as Hq1.
    destruct (canMakeRequest p e a t1 q) as [[] q1]; cbn in Hq1; [| exact Hq1].
    apply recordRequest_quiet; [| exact Hq1].
    inversion Ht as [| ? ? _ Ht2]; inversion Ht2; assumption.
Qed.

Lemma apply_calls_quiet history q from :
  Forall (fun c => Forall (fun t => t < from) (call_times c)) history ->
  quiet_from from (db q) ->
  quiet_from from (db (apply_calls p q history)).
Proof.
  revert q. induction history as [| c history IH]; intros q Hall Hq; cbn.
  - exact Hq.
  - inversion Hall as [| ? ? Hc Hrest]; subst.
    apply IH; [exact Hrest |]. apply apply_call_quiet; assumption.
Qed.

End Rollover.

(** C5.  The window start is [floor(now / windowMs) * windowMs] and usage
    is keyed by it: whatever was checked and recorded before the boundary
    (so whatever count the earlier windows reached), a check made after the
    boundary either cannot read the store, and then observes nothing and
    answers [false], or observes a count of 0 for the new window, with the
    whole limit remaining, and admits the request.  With the store
    reachable it is the latter. *)
Theorem window_rollover_observes_zero p e a l now q0 history :
  limits p e = Some l ->
  quiet_from (windowStartOf l now) (db q0) ->
  Forall (fun c => Forall (fun t => t < windowStartOf l now) (call_times c)) history ->
  let q := apply_calls p q0 history in
  let r := canMakeRequest p e a now q in
  (outages (db q) = [] -> fst r = true)
  /\ (fst r = false -> rateLimitCache (snd r) = rateLimitCache q)
  /\ (fst r = true ->
      exists entry,
        rateLimitCache (snd r) !! cacheKey e a = Some entry
        /\ cached_windowStart entry = now / windowMs l * windowMs l
        /\ cached_count entry = 0
        /\ cached_remaining entry = requests l).
Proof.
  intros Hl Hquiet Htimes q r.
  pose proof (apply_calls_quiet p history q0 _ Htimes Hquiet) as Hq. fold q in Hq.
  pose proof (limits_positive p e l Hl) as [Hreq _].
  subst r. unfold canMakeRequest. rewrite (limitOf_own p e l Hl).
  destruct (getCurrentUsage e (windowStartOf l now) a (db q)) as [[c | err] d'] eqn:Hg.
  - apply getCurrentUsage_returns in Hg.
    rewrite (Hq (cacheKey e a) (windowStartOf l now)) in Hg by lia. subst c.
    cbn [fst snd rateLimitCache].
    assert (Hadmit : (0 <? requests l - 0) = true) by (apply Z.ltb_lt; lia).
    rewrite Hadmit.
    split; [reflexivity |]. split; [discriminate |].
    intros _. eexists. split; [apply lookup_insert_eq |].
    cbn. repeat split. f_equal. lia.
  - cbn [fst snd rateLimitCache].
    split; [| split; [reflexivity | discriminate]].
    intros Hout.
    destruct (getCurrentUsage_available e (windowStartOf l now) a (db q) Hout)
      as (c & d2 & Hok).
    congruence.
Qed.

Lemma window_rollover_observes_zero_witness :
  let q0 := mkQuota ∅ (mkPool None []) in
  let history := replicate 20 (CallAdmitted "streamRules" None 1000 None 1001) in
  let q := apply_calls pro q0 history in
  stored_count "streamRules" 0 (db q) = 20
  /\ fst (canMakeRequest pro "streamRules" None 899999 q) = false
  /\ fst (canMakeRequest pro "streamRules" None 900005 q) = true
  /\ exists entry,
       rateLimitCache (snd (canMakeRequest pro "streamRules" None 900005 q))
         !! cacheKey "streamRules" None = Some entry
       /\ cached_windowStart entry
          = 900005 / windowMs (mkLimit 20 900000) * windowMs (mkLimit 20 900000)
       /\ cached_count entry = 0
       /\ cached_remaining entry = requests (mkLimit 20 900000).
Proof.
  intros q0 history q.
  split; [vm_compute; reflexivity |].
  split; [vm_compute; reflexivity |].
  destruct (window_rollover_observes_zero pro "streamRules" None (mkLimit 20 900000)
              900005 q0 history) as (Hreach & _ & Hzero).
  - reflexivity.
  - intros k w _. reflexivity.
  - unfold history. cbn. repeat constructor.
  - assert (Hadmit : fst (canMakeRequest pro "streamRules" None 900005 q) = true)
      by (apply Hreach; vm_compute; reflexivity).
    split; [exact Hadmit |]. apply Hzero. exact Hadmit.
Defined.

(** ** Provider headers *)

Section ProviderHeaders.

Variable p : plan.

Lemma canMakeRequest_reads_db_only e a now q1 q2 :
  db q1 = db q2 ->
  fst (canMakeRequest p e a now q1) = fst (canMakeRequest p e a now q2)
  /\ db (snd (canMakeRequest p e a now q1)) = db (snd (canMakeRequest p e a now q2)).
Proof.
  intros Hdb. unfold canMakeRequest. rewrite Hdb.
  destruct (limitOf p e) as [l | |]; [| | cbn; auto].
  - destruct (getCurrentUsage e (windowStartOf l now) a (db q2)) as [[c | err] d'];
      cbn; auto.
  - destruct (getCurrentUsage e NaN a (db q2)) as [[c | err] d']; cbn; auto.
Qed.

Lemma canMakeRequest_overwrites_entry e a now cache0 entry d l c d' :
  limits p e = Some l ->
  getCurrentUsage e (windowStartOf l now) a d = (Returned c, d') ->
  canMakeRequest p e a now (mkQuota (<[cacheKey e a := entry]> cache0) d)
  = canMakeRequest p e a now (mkQuota cache0 d).
Proof.
  intros Hl Hread. unfold canMakeRequest. rewrite (limitOf_own p e l Hl). cbn.
  rewrite Hread, insert_insert_eq. reflexivity.
Qed.

End ProviderHeaders.

(** C4, as stated, does not hold.  The local count stands at 279 of 280
    when a response reports 100 remaining of 300: the recording leaves the
    count at the local 280 (the provider's figures would make it 200), and
    the next check refuses the request and puts the configured limit 280
    back in the cache. *)
Lemma provider_headers_do_not_steer_admission :
  let key := cacheKey "userTimeline" (Some "cz_binance") in
  let q0 := mkQuota ∅ (mkPool (Some {[ (key, 0) := 279 ]}) []) in
  let q1 := snd (canMakeRequest pro "userTimeline" (Some "cz_binance") 1000 q0) in
  let h := mkHeaders (Some 100) (Some 1700000900) (Some 300) 2005 in
  let q2 := recordRequest pro "userTimeline" (Some "cz_binance") (Some h) 2000 q1 in
  let q3 := canMakeRequest pro "userTimeline" (Some "cz_binance") 3000 q2 in
  cached_count <$> rateLimitCache q2 !! key = Some 280
  /\ stored_count key 0 (db q2) = 280
  /\ cached_remaining <$> rateLimitCache q2 !! key = Some (Num 100)
  /\ cached_limit <$> rateLimitCache q2 !! key = Some (Num 300)
  /\ fst q3 = false
  /\ cached_limit <$> rateLimitCache (snd q3) !! key = Some (Num 280)
  /\ cached_remaining <$> rateLimitCache (snd q3) !! key = Some (Num 0).
Proof. vm_compute. repeat split; reflexivity. Qed.

(** C4, amended.  When the increment of the stored count succeeds and the
    response carries non-zero [remaining] and [reset] headers, the provider
    values replace [remaining], [resetTime] and (when non-zero) [limit] of
    the cache entry of that key, if there is one.  Neither the cached nor
    the stored count is overridden, and the answer of no later admission
    check depends on the headers: [canMakeRequest] decides from the stored
    count and the configured limit.  When its read of the count succeeds
    it writes a fresh cache entry, and then the wait of the drain loop
    does not depend on the headers either.  When that read fails, the
    check answers [false], the entry written from the headers stays, and
    the wait the drain loop takes is computed from the provider's
    [remaining] and [reset]. *)
Theorem provider_headers_update_cache_only p e a l h now q r t d1 :
  limits p e = Some l ->
  or_null (x_rate_limit_remaining h) = Some r ->
  or_null (x_rate_limit_reset h) = Some t ->
  incrementUsage e (windowStartOf l now) a (db q) = (Returned tt, d1) ->
  let key := cacheKey e a in
  let local := recordRequest p e a None now q in
  let q' := recordRequest p e a (Some h) now q in
  db q' = db local
  /\ (forall entry0, rateLimitCache local !! key = Some entry0 ->
        rateLimitCache q' !! key =
          Some (mkEntry (cached_endpoint entry0) (cached_windowStart entry0)
                        (cached_count entry0)
                        match or_null (x_rate_limit_limit h) with
                        | Some lim => Num lim
                        | None => cached_limit entry0
                        end
                        r (t * 1000) (applied_at h)))
  /\ (rateLimitCache local !! key = None -> rateLimitCache q' = rateLimitCache local)
  /\ (forall e' a' t',
        fst (canMakeRequest p e' a' t' q') = fst (canMakeRequest p e' a' t' local))
  /\ (forall t' c d2,
        getCurrentUsage e (windowStartOf l t') a d1 = (Returned c, d2) ->
        canMakeRequest p e a t' q' = canMakeRequest p e a t' local)
  /\ (forall att r0 c d2,
        req_endpoint r0 = e -> req_accountId r0 = a ->
        getCurrentUsage e (windowStartOf l (t_check att)) a d1 = (Returned c, d2) ->
        checkAndWait p att r0 q' = checkAndWait p att r0 local)
  /\ (forall att r0 entry0 err d2,
        req_endpoint r0 = e -> req_accountId r0 = a ->
        rateLimitCache local !! key = Some entry0 ->
        getCurrentUsage e (windowStartOf l (t_check att)) a d1 = (Threw err, d2) ->
        fst (canMakeRequest p e a (t_check att) q') = false
        /\ rateLimitCache (snd (checkAndWait p att r0 q')) = rateLimitCache q'
        /\ fst (checkAndWait p att r0 q')
           = if 0 <? r then 0 else Z.max 0 (t * 1000 - t_wait att)).
Proof.
  intros Hl Hr Ht Hinc key local q'.
  subst local q'. unfold recordRequest, recordIn.
  rewrite (limitOf_own p e l Hl), Hinc. cbn [rateLimitCache db].
  set (cache1 := match rateLimitCache q !! cacheKey e a with
                 | Some cached => _
                 | None => _
                 end).
  unfold updateFromTwitterHeaders. rewrite Hr, Ht. fold key.
  assert (Hentry : forall entry0, cache1 !! key = Some entry0 ->
            match cache1 !! key with
            | Some cached =>
                <[key := mkEntry (cached_endpoint cached) (cached_windowStart cached)
                                 (cached_count cached)
                                 match or_null (x_rate_limit_limit h) with
                                 | Some l0 => Num l0
                                 | None => cached_limit cached
                                 end r (t * 1000) (applied_at h)]> cache1
            | None => cache1
            end
            = <[key := mkEntry (cached_endpoint entry0) (cached_windowStart entry0)
                               (cached_count entry0)
                               match or_null (x_rate_limit_limit h) with
                               | Some l0 => Num l0
                               | None => cached_limit entry0
                               end r (t * 1000) (applied_at h)]> cache1)
    by (intros entry0 ->; reflexivity).
  split; [reflexivity |].
  split.
  { intros entry0 H0. rewrite (Hentry entry0 H0). apply lookup_insert_eq. }
  split.
  { intros H0. rewrite H0. reflexivity. }
  split.
  { intros e' a' t'. apply canMakeRequest_reads_db_only. reflexivity. }
  assert (Hsame : forall t' c d2,
            getCurrentUsage e (windowStartOf l t') a d1 = (Returned c, d2) ->
            canMakeRequest p e a t'
              (mkQuota match cache1 !! key with
                       | Some cached =>
                           <[key := mkEntry (cached_endpoint cached)
                                            (cached_windowStart cached)
                                            (cached_count cached)
                                            match or_null (x_rate_limit_limit h) with
                                            | Some l0 => Num l0
                                            | None => cached_limit cached
                                            end r (t * 1000) (applied_at h)]> cache1
                       | None => cache1
                       end d1)
            = canMakeRequest p e a t' (mkQuota cache1 d1)).
  { intros t' c d2 Hread.
    destruct (cache1 !! key) as [entry0 |] eqn:H0; [| reflexivity].
    apply (canMakeRequest_overwrites_entry p e a t' cache1 _ d1 l c d2 Hl Hread). }
  split; [exact Hsame |].
  split.
  { intros att r0 c d2 He Ha Hread. unfold checkAndWait. rewrite He, Ha.
    rewrite (Hsame (t_check att) c d2 Hread). reflexivity. }
  intros att r0 entry0 err d2 He Ha H0 Hread.
  rewrite (Hentry entry0 H0).
  assert (Hcan : canMakeRequest p e a (t_check att)
                   (mkQuota (<[key := mkEntry (cached_endpoint entry0)
                                              (cached_windowStart entry0)
                                              (cached_count entry0)
                                              match or_null (x_rate_limit_limit h) with
                                              | Some l0 => Num l0
                                              | None => cached_limit entry0
                                              end r (t * 1000) (applied_at h)]> cache1) d1)
                 = (false,
                    mkQuota (<[key := mkEntry (cached_endpoint entry0)
                                              (cached_windowStart entry0)
                                              (cached_count entry0)
                                              match or_null (x_rate_limit_limit h) with
                                              | Some l0 => Num l0
                                              | None => cached_limit entry0
                                              end r (t * 1000) (applied_at h)]> cache1) d2)).
  { unfold canMakeRequest. rewrite (limitOf_own p e l Hl). cbn [db rateLimitCache].
    rewrite Hread. reflexivity. }
  unfold checkAndWait. rewrite He, Ha, Hcan. cbn [fst snd rateLimitCache].
  split; [reflexivity |]. split; [reflexivity |].
  unfold getWaitTime. cbn [rateLimitCache]. fold key.
  rewrite lookup_insert_eq. cbn [cached_remaining cached_resetTime positive].
  destruct (0 <? r); reflexivity.
Qed.

Lemma provider_headers_update_cache_only_witness :
  let key := cacheKey "userTimeline" (Some "cz_binance") in
  let q0 := mkQuota ∅ (mkPool (Some {[ (key, 0) := 279 ]}) [false; false; true]) in
  let q := snd (canMakeRequest pro "userTimeline" (Some "cz_binance") 1000 q0) in
  let h := mkHeaders (Some 100) (Some 1700000900) (Some 300) 2005 in
  let local := recordRequest pro "userTimeline" (Some "cz_binance") None 2000 q in
  let q' := recordRequest pro "userTimeline" (Some "cz_binance") (Some h) 2000 q in
  let r0 := mkRequest 1 "userTimeline" (Some "cz_binance") 3 2500 in
  let att := mkAttempt 3000 3000 3001 (Succeeds None) in
  rateLimitCache q' !! key
  = Some (mkEntry "userTimeline" 0 280 300 100 1700000900000 2005)
  /\ rateLimitCache local !! key
     = Some (mkEntry "userTimeline" 0 280 280 0 900000 2000)
  /\ (forall t', fst (canMakeRequest pro "userTimeline" (Some "cz_binance") t' q')
                 = fst (canMakeRequest pro "userTimeline" (Some "cz_binance") t' local))
  /\ fst (checkAndWait pro att r0 q') = 0
  /\ fst (checkAndWait pro att r0 local) = 897000.
Proof.
  intros key q0 q h local q' r0 att.
  pose proof (provider_headers_update_cache_only pro "userTimeline" (Some "cz_binance")
                (mkLimit 280 900000) h 2000 q 100 1700000900
                (mkPool (Some {[ (key, 0) := 280 ]}) [true])
                eq_refl eq_refl eq_refl) as H.
  cbv zeta in H.
  destruct H as (_ & Hentry & _ & Hadm & _ & _ & Hfails).
  - vm_compute. reflexivity.
  - split; [| split; [| split; [| split]]].
    + etrans; [apply (Hentry (mkEntry "userTimeline" 0 280 280 0 900000 2000)) |].
      * vm_compute. reflexivity.
      * reflexivity.
    + vm_compute. reflexivity.
    + intros t'. apply Hadm.
    + destruct (Hfails att r0 (mkEntry "userTimeline" 0 280 280 0 900000 2000)
                  ER_OTHER (mkPool (Some {[ (key, 0) := 280 ]}) []))
        as (_ & _ & Hwait).
      * reflexivity.
      * reflexivity.
      * vm_compute. reflexivity.
      * vm_compute. reflexivity.
      * exact Hwait.
    + vm_compute. reflexivity.
Defined.

(** ** The quota invariant *)

Section QuotaInvariant.

Variable p : plan.

Lemma canMakeRequest_true e a now q l :
  limits p e = Some l ->
  fst (canMakeRequest p e a now q) = true ->
  stored_count (cacheKey e a) (windowStartOf l now) (db q) < requests l.
Proof.
  intros Hl. unfold canMakeRequest. rewrite (limitOf_own p e l Hl).
  destruct (getCurrentUsage e (windowStartOf l now) a (db q)) as [[c | err] d'] eqn:Hg;
    cbn; [| discriminate].
  apply getCurrentUsage_returns in Hg. subst c.
  intros H%Z.ltb_lt. lia.
Qed.

Lemma windowStartOf_after_reset l t0 t :
  0 < windowMs l ->
  windowStartOf l t0 + windowMs l <= t ->
  windowStartOf l t0 < windowStartOf l t.
Proof.
  intros Hw Hle. unfold windowStartOf in *.
  assert (t0 / windowMs l + 1 <= t / windowMs l).
  { apply Z.div_le_lower_bound; lia. }
  nia.
Qed.

(** One admitted recording, or one check, keeps the count of window [W]
    within the limit. *)
Lemma apply_call_within_limit e a l W c q :
  limits p e = Some l ->
  admitted_only c ->
  Forall (fun t => windowStartOf l t = W) (call_times c) ->
  stored_count (cacheKey e a) W (db q) <= requests l ->
  stored_count (cacheKey e a) W (db (apply_call p q c)) <= requests l.
Proof.
  intros Hl Hadm Htimes Hinv.
  destruct c as [e' a' now | e' a' h now | e' a' t1 h t2]; cbn in *.
  - rewrite canMakeRequest_stored_count. exact Hinv.
  - contradiction.
  - pose proof (canMakeRequest_stored_count p e' a' t1 q (cacheKey e a) W) as Hsame.
    destruct (canMakeRequest p e' a' t1 q) as [ok q1] eqn:Hcan. cbn in Hsame.
    destruct ok; [| lia].
    destruct (limits p e') as [l' |] eqn:Hl'.
    + destruct (recordRequest_stored_count p e' a' h t2 q1 l' (cacheKey e a) W Hl')
        as (bump & Hbump & ->).
      case_decide as Hrow; [| lia].
      injection Hrow as Hk Hw.
      assert (e' = e) as ->
        by (symmetry; eapply cacheKey_endpoint; [exact Hl | exact Hl' | exact Hk]).
      assert (l' = l) as -> by congruence.
      inversion Htimes as [| ? ? Ht1 Hrest]; subst.
      pose proof (canMakeRequest_true e a' t1 q l Hl) as Hlt.
      rewrite Hcan in Hlt. specialize (Hlt eq_refl).
      rewrite <- Hk, Ht1 in Hlt. destruct Hbump; lia.
    + rewrite recordRequest_unknown by exact Hl'. lia.
Qed.

Lemma apply_calls_within_limit e a l W history q :
  limits p e = Some l ->
  Forall admitted_only history ->
  Forall (fun c => Forall (fun t => windowStartOf l t = W) (call_times c)) history ->
  stored_count (cacheKey e a) W (db q) <= requests l ->
  stored_count (cacheKey e a) W (db (apply_calls p q history)) <= requests l.
Proof.
  intros Hl. revert q.
  induction history as [| c history IH]; intros q Hadm Htimes Hinv; cbn.
  - exact Hinv.
  - inversion Hadm; inversion Htimes; subst.
    apply IH; try assumption.
    apply apply_call_within_limit; assumption.
Qed.

End QuotaInvariant.

Section DrainLoopQuota.

Variable p : plan.

Lemma quotaState_loopHead s : quotaState (loopHead s) = quotaState s.
Proof. unfold loopHead. destruct (requestQueue s); reflexivity. Qed.

(** With the store reachable, a refused request waits until the reset of
    the window in which it was checked. *)
Lemma checkAndWait_available att r q l :
  limits p (req_endpoint r) = Some l ->
  outages (db q) = [] ->
  let key := cacheKey (req_endpoint r) (req_accountId r) in
  let W := windowStartOf l (t_check att) in
  let c := stored_count key W (db q) in
  exists q1,
    checkAndWait p att r q =
      (if 0 <? requests l - c then 0 else Z.max 0 (W + windowMs l - t_wait att), q1)
    /\ (forall k w, stored_count k w (db q1) = stored_count k w (db q))
    /\ outages (db q1) = [].
Proof.
  intros Hl Hout key W c. unfold checkAndWait.
  pose proof (canMakeRequest_stored_count p (req_endpoint r) (req_accountId r)
                (t_check att) q) as Hsame.
  destruct (canMakeRequest_available p (req_endpoint r) (req_accountId r)
              (t_check att) q l Hl Hout) as (d' & Hcan & Hout').
  rewrite Hcan in Hsame |- *. cbn in Hsame.
  eexists. split; [| split].
  - fold key W c.
    destruct (0 <? requests l - c) eqn:Hrem; [reflexivity |].
    unfold getWaitTime. cbn. fold key. rewrite lookup_insert_eq. cbn.
    rewrite Hrem. reflexivity.
  - intros k w. cbn. apply Hsame.
  - exact Hout'.
Qed.

Lemma recordRequest_outages e a h now q :
  outages (db q) = [] -> outages (db (recordRequest p e a h now q)) = [].
Proof.
  intros Hout. unfold recordRequest, recordIn, incrementUsage, upsert_usage, next_outage.
  destruct (limitOf p e) as [l | |]; [| | exact Hout];
    destruct q as [cache0 [tbl outs]]; cbn in *; subst outs;
    destruct tbl as [t |]; reflexivity.
Qed.

Lemma getWaitTime_sleep e a now q : 0 <= sleepTime (getWaitTime e a now q).
Proof.
  unfold getWaitTime.
  destruct (rateLimitCache q !! cacheKey e a) as [c |]; [| reflexivity].
  destruct (positive (cached_remaining c)); [reflexivity |].
  destruct (cached_resetTime c); cbn; lia.
Qed.

Lemma checkAndWait_nonneg att r q : 0 <= fst (checkAndWait p att r q).
Proof.
  unfold checkAndWait.
  destruct (canMakeRequest p (req_endpoint r) (req_accountId r) (t_check att) q)
    as [[] q1]; cbn [fst]; [lia | apply getWaitTime_sleep].
Qed.

Lemma checkAndWait_is_check att r q :
  snd (checkAndWait p att r q)
  = snd (canMakeRequest p (req_endpoint r) (req_accountId r) (t_check att) q).
Proof.
  unfold checkAndWait.
  destruct (canMakeRequest p (req_endpoint r) (req_accountId r) (t_check att) q);
    reflexivity.
Qed.

Lemma windowStartOf_step l t1 t2 :
  0 < windowMs l ->
  windowStartOf l t1 < windowStartOf l t2 ->
  windowStartOf l t1 + windowMs l <= windowStartOf l t2.
Proof.
  unfold windowStartOf. intros Hw Hlt.
  apply Z.mul_lt_mono_pos_r in Hlt; [| exact Hw].
  assert (Hle : (t1 / windowMs l + 1) * windowMs l <= t2 / windowMs l * windowMs l)
    by (apply Z.mul_le_mono_nonneg_r; lia).
  lia.
Qed.

Lemma withinLimits_later T T' q :
  T <= T' -> withinLimits p T q -> withinLimits p T' q.
Proof.
  intros Hle (Hout & Hquiet & Hlim).
  split; [exact Hout |]. split; [| exact Hlim].
  intros k w Hw. apply Hquiet. lia.
Qed.

Lemma withinLimits_same_counts T q q1 :
  withinLimits p T q ->
  (forall k w, stored_count k w (db q1) = stored_count k w (db q)) ->
  outages (db q1) = [] ->
  withinLimits p T q1.
Proof.
  intros (_ & Hquiet & Hlim) Hsame Hout.
  split; [exact Hout |].
  split; [intros k w Hw; rewrite Hsame; apply Hquiet; exact Hw |].
  intros e a l W Hl. rewrite Hsame. apply Hlim. exact Hl.
Qed.

(** One pass of the loop under an honest clock keeps every window of
    every metered key within its limit. *)
Lemma runRequest_withinLimits att r s T :
  T <= t_check att ->
  t_check att <= t_wait att ->
  t_wait att + fst (checkAndWait p att r (quotaState s)) <= t_record att ->
  withinLimits p T (quotaState s) ->
  withinLimits p (t_record att) (quotaState (runRequest p att r s)).
Proof.
  intros HT Hcw Hsleep Hinv.
  destruct (limits p (req_endpoint r)) as [l |] eqn:Hl.
  - pose proof (limits_positive p _ l Hl) as [Hreq Hwin].
    pose proof Hinv as (Hout & Hquiet & Hlim).
    destruct (checkAndWait_available att r (quotaState s) l Hl Hout)
      as (q1 & Hcheck & Hsame & Hout1).
    set (key := cacheKey (req_endpoint r) (req_accountId r)) in *.
    set (W1 := windowStartOf l (t_check att)) in *.
    unfold runRequest. rewrite Hcheck in Hsleep |- *. cbn [fst] in Hsleep.
    assert (Hwait0 : 0 <= if 0 <? requests l - stored_count key W1 (db (quotaState s))
                          then 0 else Z.max 0 (W1 + windowMs l - t_wait att))
      by (destruct (0 <? _); lia).
    assert (Hq1 : withinLimits p (t_record att) q1).
    { apply (withinLimits_later T); [lia |].
      eapply withinLimits_same_counts; eassumption. }
    destruct (result_of_call att) as [h | err].
    + cbn [quotaState].
      split; [apply recordRequest_outages; exact Hout1 |].
      set (W3 := windowStartOf l (t_record att)).
      assert (HW3 : W3 <= t_record att) by (apply windowStartOf_le; lia).
      split.
      * intros k w Hw.
        destruct (recordRequest_stored_count p (req_endpoint r) (req_accountId r) h
                    (t_record att) q1 l k w Hl) as (bump & _ & ->).
        fold W3. rewrite decide_False by (intros [= _ ->]; lia).
        apply Hq1. exact Hw.
      * intros e' a' l' W' Hl'.
        destruct (recordRequest_stored_count p (req_endpoint r) (req_accountId r) h
                    (t_record att) q1 l (cacheKey e' a') W' Hl) as (bump & Hbump & ->).
        fold key W3. rewrite Hsame.
        case_decide as Hrow; [| apply Hlim; exact Hl'].
        injection Hrow as Hk ->.
        assert (e' = req_endpoint r) as ->
          by (eapply cacheKey_endpoint; [exact Hl' | exact Hl | exact Hk]).
        assert (l' = l) as -> by congruence.
        rewrite Hk.
        assert (HW13 : W1 <= W3) by (apply windowStartOf_mono; lia).
        destruct (decide (W3 = W1)) as [Heq | Hne].
        -- rewrite Heq.
           destruct (0 <? requests l - stored_count key W1 (db (quotaState s))) eqn:Hrem.
           ++ apply Z.ltb_lt in Hrem. destruct Hbump; lia.
           ++ exfalso.
              pose proof (windowStartOf_after_reset l (t_check att) (t_record att)
                            ltac:(lia)) as Hlater.
              fold W1 W3 in Hlater. lia.
        -- pose proof (windowStartOf_step l (t_check att) (t_record att) ltac:(lia))
             as Hstep.
           fold W1 W3 in Hstep.
           pose proof (windowStartOf_next l (t_check att) ltac:(lia)) as Hnext.
           fold W1 in Hnext.
           rewrite (Hquiet key W3) by lia. destruct Hbump; lia.
    + destruct (is429 err); cbn [quotaState]; [exact Hq1 |].
      rewrite quotaState_loopHead. exact Hq1.
  - pose proof Hinv as (Hout & _ & _).
    pose proof (checkAndWait_nonneg att r (quotaState s)) as Hwait0.
    pose proof (checkAndWait_is_check att r (quotaState s)) as Hcheck.
    unfold runRequest.
    destruct (checkAndWait p att r (quotaState s)) as [w q1].
    cbn [fst snd] in Hsleep, Hwait0, Hcheck.
    assert (Hq1 : withinLimits p (t_record att) q1).
    { apply (withinLimits_later T); [lia |].
      eapply withinLimits_same_counts; [exact Hinv | |].
      - intros k w0. rewrite Hcheck. apply canMakeRequest_stored_count.
      - rewrite Hcheck. apply canMakeRequest_outages. exact Hout. }
    destruct (result_of_call att) as [h | err].
    + cbn [quotaState].
      eapply withinLimits_same_counts; [exact Hq1 | |].
      * intros k w0. apply recordRequest_unknown. exact Hl.
      * apply recordRequest_outages. apply Hq1.
    + destruct (is429 err); cbn [quotaState]; [exact Hq1 |].
      rewrite quotaState_loopHead. exact Hq1.
Qed.

Lemma quotaState_queueRequest r s : quotaState (queueRequest r s) = quotaState s.
Proof.
  unfold queueRequest, processQueue. cbn.
  destruct (isProcessingQueue s); [reflexivity |].
  destruct (sortQueue (requestQueue s ++ [r])); [reflexivity |].
  rewrite quotaState_loopHead. reflexivity.
Qed.

(** Through any run of the manager under an honest clock, with the store
    reachable, every window of every metered key stays within its limit. *)
Lemma run_withinLimits inputs : forall s T,
  clocked p T s inputs ->
  withinLimits p T (quotaState s) ->
  exists T', withinLimits p T' (quotaState (run p s inputs)).
Proof.
  induction inputs as [| i inputs IH]; intros s T Hclock Hinv.
  - exists T. exact Hinv.
  - change (run p s (i :: inputs)) with (run p (step p s i) inputs).
    cbn [clocked] in Hclock.
    destruct i as [r | a |].
    + assert (Hc : clocked p T (step p s (Enqueue r)) inputs)
        by (destruct (pc s); exact Hclock).
      apply (IH _ T Hc).
      assert (step p s (Enqueue r) = queueRequest r s) as ->
        by (destruct (pc s); reflexivity).
      rewrite quotaState_queueRequest. exact Hinv.
    + destruct (pc s) as [| r |] eqn:Hpc.
      * apply (IH _ T Hclock). unfold step. rewrite Hpc. exact Hinv.
      * destruct Hclock as (HT & Hcw & Hsleep & Hrest).
        apply (IH _ (t_record a) Hrest).
        unfold step. rewrite Hpc.
        apply (runRequest_withinLimits a r s T); assumption.
      * apply (IH _ T Hclock). unfold step. rewrite Hpc. exact Hinv.
    + destruct (pc s) eqn:Hpc.
      * apply (IH _ T Hclock). unfold step. rewrite Hpc. exact Hinv.
      * apply (IH _ T Hclock). unfold step. rewrite Hpc. exact Hinv.
      * apply (IH _ T Hclock). unfold step. rewrite Hpc.
        rewrite quotaState_loopHead. exact Hinv.
Qed.

End DrainLoopQuota.

(** C1, as stated, does not hold: [recordRequest] increments the stored
    count whatever the last check answered.  Twenty-one check-then-record
    pairs in one window of [streamRules] (limit 20) leave a count of 21,
    although the twenty-first check answered [false]. *)
Lemma unconditional_recordings_exceed_limit :
  let q0 := mkQuota ∅ (mkPool (Some ∅) []) in
  let pair := [CallCheck "streamRules" None 1000; CallRecord "streamRules" None None 1001] in
  let before := apply_calls pro q0 (concat (replicate 20 pair)) in
  let after := apply_calls pro q0 (concat (replicate 21 pair)) in
  limits pro "streamRules" = Some (mkLimit 20 900000)
  /\ windowStartOf (mkLimit 20 900000) 1000 = 0
  /\ windowStartOf (mkLimit 20 900000) 1001 = 0
  /\ fst (canMakeRequest pro "streamRules" None 1000 before) = false
  /\ stored_count "streamRules" 0 (db after) = 21.
Proof. vm_compute. repeat split; reflexivity. Qed.

(** The drain loop does not stop at a check that could not read the
    store: with the count at the limit and the read failing, no cache entry
    tells it to wait, the request is called at once and the count passes
    the limit. *)
Example drain_loop_calls_when_read_fails :
  let r := mkRequest 7 "streamRules" None 1 900 in
  let full := mkQuota ∅ (mkPool (Some {[ ("streamRules", 0) := 20 ]}) [true]) in
  let s := mkScheduler [] true (AwaitingRequest r) full [] in
  let att := mkAttempt 1000 1000 1001 (Succeeds None) in
  let s1 := step pro s (Settle att) in
  fst (canMakeRequest pro "streamRules" None 1000 full) = false
  /\ log s1 = [Called 7%nat; Resolved 7%nat; Slept 50]
  /\ stored_count "streamRules" 0 (db (quotaState s1)) = 21.
Proof. vm_compute. repeat split; reflexivity. Qed.

(** C1, amended.  For a metered endpoint key:
    - within one quota window [W], for every sequence of checks and of
      recordings that each follow a check which answered [true], the
      stored count never exceeds the configured limit;
    - through every run of the drain loop under an honest clock and with
      the store reachable, the stored count of every window stays within
      the limit;
    - the loop checks once per request: it calls the request at once when
      the count is below the limit, and otherwise first sleeps until the
      reset of the window. *)
Theorem quota_respected_when_recorded_after_admission p e a l :
  limits p e = Some l ->
  (forall W history q0,
      Forall admitted_only history ->
      Forall (fun c => Forall (fun t => windowStartOf l t = W) (call_times c)) history ->
      stored_count (cacheKey e a) W (db q0) <= requests l ->
      stored_count (cacheKey e a) W (db (apply_calls p q0 history)) <= requests l)
  /\ (forall inputs s T W,
      clocked p T s inputs ->
      withinLimits p T (quotaState s) ->
      stored_count (cacheKey e a) W (db (quotaState (run p s inputs))) <= requests l)
  /\ (forall s r att,
      req_endpoint r = e -> req_accountId r = a ->
      outages (db (quotaState s)) = [] ->
      let W := windowStartOf l (t_check att) in
      (stored_count (cacheKey e a) W (db (quotaState s)) < requests l ->
       fst (checkAndWait p att r (quotaState s)) = 0)
      /\ (requests l <= stored_count (cacheKey e a) W (db (quotaState s)) ->
          fst (checkAndWait p att r (quotaState s))
          = Z.max 0 (W + windowMs l - t_wait att))).
Proof.
  intros Hl. split; [| split].
  - intros W history q0 Hadm Htimes Hinv.
    apply apply_calls_within_limit; assumption.
  - intros inputs s T W Hclock Hinv.
    destruct (run_withinLimits p inputs s T Hclock Hinv) as (T' & _ & _ & Hlim).
    apply Hlim. exact Hl.
  - intros s r att <- <- Hout W.
    destruct (checkAndWait_available p att r (quotaState s) l Hl Hout)
      as (q1 & -> & _ & _).
    fold W. cbn [fst].
    split; intros Hcount.
    + rewrite (proj2 (Z.ltb_lt _ _)) by lia. reflexivity.
    + rewrite (proj2 (Z.ltb_ge _ _)) by lia. reflexivity.
Qed.

Lemma quota_respected_when_recorded_after_admission_witness :
  let q0 := mkQuota ∅ (mkPool (Some ∅) []) in
  let history := replicate 25 (CallAdmitted "streamRules" None 1000 None 1001) in
  let r (id : nat) := mkRequest id "streamRules" None 1 900 in
  let full := mkQuota ∅ (mkPool (Some {[ ("streamRules", 0) := 20 ]}) []) in
  let idle := mkScheduler [] false NotRunning q0 [] in
  let inputs := [Enqueue (r 1%nat); Enqueue (r 2%nat);
                 Settle (mkAttempt 1000 1000 1001 (Succeeds None)); Resume;
                 Settle (mkAttempt 1100 1100 900001 (Succeeds None)); Resume] in
  let waiting := mkScheduler [] true (AwaitingRequest (r 3%nat)) full [] in
  let att := mkAttempt 1000 1000 900001 (Succeeds None) in
  stored_count "streamRules" 0 (db (apply_calls pro q0 history)) <= 20
  /\ stored_count "streamRules" 0 (db (quotaState (run pro idle inputs))) <= 20
  /\ fst (checkAndWait pro att (r 3%nat) (quotaState waiting)) = Z.max 0 (0 + 900000 - 1000).
Proof.
  intros q0 history r full idle inputs waiting att.
  destruct (quota_respected_when_recorded_after_admission pro "streamRules" None
              (mkLimit 20 900000) eq_refl) as (Hcalls & Hloop & Hwait).
  split; [| split].
  - apply (Hcalls 0 history q0).
    + apply Forall_replicate. exact I.
    + apply Forall_replicate. repeat constructor.
    + vm_compute. discriminate.
  - apply (Hloop inputs idle 0 0).
    + vm_compute. repeat split; discriminate.
    + split; [reflexivity |]. split.
      * intros k w _. reflexivity.
      * intros e' a' l' W' Hl'. change (0 <= requests l').
        pose proof (limits_positive pro e' l' Hl') as [Hreq _]. lia.
  - destruct (Hwait waiting (r 3%nat) att eq_refl eq_refl eq_refl) as [_ Hfull].
    apply Hfull. vm_compute. discriminate.
Defined.

(** ** The priority queue *)

Import QueueOrder.

Section SortQueue.

Lemma insertByPriority_perm x l : insertByPriority x l ≡ₚ x :: l.
Proof.
  induction l as [| y l IH]; cbn; [reflexivity |].
  destruct (req_priority y <=? req_priority x); [reflexivity |].
  rewrite IH. apply Permutation_swap.
Qed.

Lemma sortQueue_perm l : sortQueue l ≡ₚ l.
Proof.
  induction l as [| x l IH]; cbn; [reflexivity |].
  rewrite insertByPriority_perm. fold (sortQueue l). rewrite IH. reflexivity.
Qed.

Lemma insertByPriority_sorted x l :
  StronglySorted notLower l -> StronglySorted notLower (insertByPriority x l).
Proof.
  induction 1 as [| y l Hsorted IH Hall]; cbn.
  - repeat constructor.
  - destruct (req_priority y <=? req_priority x) eqn:Hcmp.
    + apply Z.leb_le in Hcmp.
      constructor; [constructor; assumption |].
      constructor; [exact Hcmp |].
      eapply Forall_impl; [exact Hall |].
      unfold notLower. intros z Hz. lia.
    + apply Z.leb_gt in Hcmp.
      constructor; [exact IH |].
      rewrite insertByPriority_perm.
      constructor; [unfold notLower; lia | exact Hall].
Qed.

Lemma sortQueue_sorted l : StronglySorted notLower (sortQueue l).
Proof.
  induction l as [| x l IH]; cbn; [constructor |].
  apply insertByPriority_sorted. exact IH.
Qed.

Lemma band_insertByPriority pr x l :
  band pr (insertByPriority x l) = band pr (x :: l).
Proof.
  unfold band. induction l as [| y l IH]; cbn; [reflexivity |].
  destruct (req_priority y <=? req_priority x) eqn:Hcmp; [reflexivity |].
  apply Z.leb_gt in Hcmp.
  rewrite (filter_cons _ y), IH, !filter_cons.
  repeat case_decide; try reflexivity; lia.
Qed.

(** The sort is stable: within one priority the order is kept. *)
Lemma sortQueue_stable pr l : band pr (sortQueue l) = band pr l.
Proof.
  induction l as [| x l IH]; [reflexivity |].
  change (sortQueue (x :: l)) with (insertByPriority x (sortQueue l)).
  rewrite band_insertByPriority.
  unfold band in *. rewrite !filter_cons, IH. reflexivity.
Qed.

End SortQueue.

Section Draining.

Variable p : plan.

Lemma queueRequest_busy r s :
  isProcessingQueue s = true ->
  queueRequest r s =
    mkScheduler (sortQueue (requestQueue s ++ [r])) true (pc s) (quotaState s) (log s).
Proof.
  intros Hbusy. unfold queueRequest. cbn. rewrite Hbusy. reflexivity.
Qed.

Lemma run_app s i1 i2 : run p s (i1 ++ i2) = run p (run p s i1) i2.
Proof. unfold run. apply fold_left_app. Qed.

(** Enqueuing while the loop is busy only changes the queue, which ends
    up in priority order with every band in arrival order. *)
Lemma enqueue_while_busy rs s :
  isProcessingQueue s = true ->
  StronglySorted notLower (requestQueue s) ->
  let s' := run p s (map Enqueue rs) in
  isProcessingQueue s' = true /\ pc s' = pc s
  /\ quotaState s' = quotaState s /\ log s' = log s
  /\ StronglySorted notLower (requestQueue s')
  /\ requestQueue s' ≡ₚ requestQueue s ++ rs
  /\ forall pr, band pr (requestQueue s') = band pr (requestQueue s ++ rs).
Proof.
  revert s. induction rs as [| r rs IH]; intros s Hbusy Hsorted s'; subst s'.
  - cbn. rewrite app_nil_r. repeat split; auto.
  - change (run p s (map Enqueue (r :: rs)))
      with (run p (step p s (Enqueue r)) (map Enqueue rs)).
    assert (step p s (Enqueue r) = queueRequest r s) as -> by (destruct (pc s); reflexivity).
    rewrite queueRequest_busy by exact Hbusy.
    specialize (IH (mkScheduler (sortQueue (requestQueue s ++ [r])) true (pc s)
                                (quotaState s) (log s)) eq_refl (sortQueue_sorted _)).
    cbn in IH. destruct IH as (H1 & H2 & H3 & H4 & H5 & H6 & H7).
    repeat split; auto.
    + rewrite H6, sortQueue_perm, <- app_assoc. reflexivity.
    + intros pr. rewrite H7.
      pose proof (sortQueue_stable pr (requestQueue s ++ [r])) as Hst.
      unfold band in *. rewrite filter_app, Hst, !filter_app, <- app_assoc.
      f_equal. rewrite <- filter_app. reflexivity.
Qed.

Lemma calledIds_app l1 l2 : calledIds (l1 ++ l2) = calledIds l1 ++ calledIds l2.
Proof. unfold calledIds. apply omap_app. Qed.

(** A request that settles without a throttle has been called once, and
    after the delay the loop is at its head again. *)
Lemma settle_unthrottled r a s :
  pc s = AwaitingRequest r ->
  throttled a = false ->
  exists q' lg,
    calledIds lg = calledIds (log s) ++ [req_id r]
    /\ step p (step p s (Settle a)) Resume =
       loopHead (mkScheduler (requestQueue s) (isProcessingQueue s) AwaitingDelay q' lg).
Proof.
  intros Hpc Hthr. unfold step at 2. rewrite Hpc. unfold runRequest.
  destruct (checkAndWait p a r (quotaState s)) as [w q1].
  assert (Hlog : forall rest, calledIds rest = [req_id r] ->
            calledIds ((if 0 <? w then log s ++ [Slept w] else log s) ++ rest)
            = calledIds (log s) ++ [req_id r]).
  { intros rest Hrest. destruct (0 <? w);
      rewrite ?calledIds_app, Hrest; cbn; rewrite ?app_nil_r; reflexivity. }
  unfold throttled in Hthr.
  destruct (result_of_call a) as [h | e].
  - eexists _, _. split; [apply (Hlog [Called (req_id r); Resolved (req_id r); Slept 50]);
                          reflexivity |].
    reflexivity.
  - rewrite Hthr.
    eexists _, _. split; [apply (Hlog [Called (req_id r); Rejected (req_id r)]); reflexivity |].
    unfold loopHead. cbn. destruct (requestQueue s); reflexivity.
Qed.

Lemma drain_unthrottled Q : forall s r0 atts,
  pc s = AwaitingRequest r0 ->
  requestQueue s = Q ->
  length atts = S (length Q) ->
  Forall (fun a => throttled a = false) atts ->
  let s' := run p s (settleAll atts) in
  calledIds (log s') = calledIds (log s) ++ map req_id (r0 :: Q)
  /\ pc s' = NotRunning /\ requestQueue s' = [] /\ isProcessingQueue s' = false.
Proof.
  induction Q as [| r1 Q IH]; intros s r0 atts Hpc HQ Hlen Hall s'; subst s';
    destruct atts as [| a atts]; try discriminate;
    inversion Hall as [| ? ? Ha Hrest]; subst;
    destruct (settle_unthrottled r0 a s Hpc Ha) as (q' & lg & Hlg & Hstep);
    change (run p s (settleAll (a :: atts)))
      with (run p (step p (step p s (Settle a)) Resume) (settleAll atts));
    rewrite Hstep; unfold loopHead; cbn [requestQueue]; rewrite HQ.
  - destruct atts; [| discriminate]. cbn. fold (calledIds lg). rewrite Hlg. auto.
  - injection Hlen as Hlen.
    destruct (IH (mkScheduler Q (isProcessingQueue s) (AwaitingRequest r1) q' lg)
                 r1 atts eq_refl eq_refl Hlen Hrest) as (H1 & H2 & H3 & H4).
    cbn [log quotaState isProcessingQueue] in *.
    rewrite H1, Hlg, <- app_assoc. auto.
Qed.

End Draining.

Section BandsDetermineQueue.

Lemma band_below pr x l :
  req_priority x < pr -> Forall (notLower x) l -> band pr (x :: l) = [].
Proof.
  intros Hlt Hall. unfold band.
  rewrite filter_cons_False by lia.
  induction Hall as [| y l Hy _ IH]; [reflexivity |].
  unfold notLower in Hy. rewrite filter_cons_False by lia. exact IH.
Qed.

Lemma band_head x l : band (req_priority x) (x :: l) = x :: band (req_priority x) l.
Proof. unfold band. rewrite filter_cons_True by reflexivity. reflexivity. Qed.

Lemma band_skip pr x l : req_priority x <> pr -> band pr (x :: l) = band pr l.
Proof. intros Hne. unfold band. rewrite filter_cons_False by exact Hne. reflexivity. Qed.

(** Two queues in priority order with the same bands are the same queue. *)
Lemma sorted_bands_unique l1 : forall l2,
  StronglySorted notLower l1 -> StronglySorted notLower l2 ->
  (forall pr, band pr l1 = band pr l2) -> l1 = l2.
Proof.
  induction l1 as [| x l1 IH]; intros [| y l2] H1 H2 Hbands.
  - reflexivity.
  - specialize (Hbands (req_priority y)). rewrite band_head in Hbands. discriminate.
  - specialize (Hbands (req_priority x)). rewrite band_head in Hbands. discriminate.
  - apply StronglySorted_inv in H1 as [H1 Hall1].
    apply StronglySorted_inv in H2 as [H2 Hall2].
    assert (Hpri : req_priority x = req_priority y).
    { destruct (Z.lt_trichotomy (req_priority x) (req_priority y)) as [Hlt | [Heq | Hgt]].
      - pose proof (Hbands (req_priority y)) as Hb.
        rewrite band_head, (band_below _ x l1 Hlt Hall1) in Hb. discriminate.
      - exact Heq.
      - pose proof (Hbands (req_priority x)) as Hb.
        rewrite band_head, (band_below _ y l2 Hgt Hall2) in Hb. discriminate. }
    pose proof (Hbands (req_priority x)) as Hb.
    rewrite band_head, Hpri, band_head in Hb. injection Hb as -> Hb.
    f_equal. apply IH; [assumption | assumption |].
    intros pr. destruct (decide (req_priority y = pr)) as [<- | Hne].
    + exact Hb.
    + specialize (Hbands pr). rewrite !band_skip in Hbands by exact Hne. exact Hbands.
Qed.

End BandsDetermineQueue.

Section PauseQueue.

Variable p : plan.

(** Whatever order the queue was in, one request enqueued while the loop
    is busy leaves the whole queue sorted, and so do several. *)
Lemma enqueue_resorts news s :
  isProcessingQueue s = true ->
  news <> [] ->
  let s' := run p s (map Enqueue news) in
  isProcessingQueue s' = true /\ pc s' = pc s
  /\ quotaState s' = quotaState s /\ log s' = log s
  /\ requestQueue s' = sortQueue (requestQueue s ++ news).
Proof.
  intros Hbusy Hne. destruct news as [| r rs]; [contradiction |]. cbn zeta.
  change (run p s (map Enqueue (r :: rs)))
    with (run p (step p s (Enqueue r)) (map Enqueue rs)).
  assert (step p s (Enqueue r) = queueRequest r s) as -> by (destruct (pc s); reflexivity).
  rewrite queueRequest_busy by exact Hbusy.
  destruct (enqueue_while_busy p rs
              (mkScheduler (sortQueue (requestQueue s ++ [r])) true (pc s)
                           (quotaState s) (log s)) eq_refl (sortQueue_sorted _))
    as (H1 & H2 & H3 & H4 & H5 & _ & H7).
  cbn in H2, H3, H4, H7.
  repeat split; try assumption.
  apply sorted_bands_unique; [exact H5 | apply sortQueue_sorted |].
  intros pr. rewrite H7, sortQueue_stable.
  unfold band. rewrite filter_app.
  pose proof (sortQueue_stable pr (requestQueue s ++ [r])) as Hst.
  unfold band in Hst. rewrite Hst, <- filter_app, <- app_assoc. reflexivity.
Qed.

(** The head of the sorted queue: the first request of the queue unless
    some other request has a strictly higher priority; and no request has
    a higher priority than the head. *)
Lemma sortQueue_head x l :
  exists next rest,
    sortQueue (x :: l) = next :: rest
    /\ Forall (notLower next) (x :: l)
    /\ (Forall (notLower x) l -> next = x)
    /\ (next <> x -> next ∈ l /\ req_priority x < req_priority next).
Proof.
  pose proof (sortQueue_sorted (x :: l)) as Hsorted.
  pose proof (sortQueue_perm (x :: l)) as Hperm.
  change (sortQueue (x :: l)) with (insertByPriority x (sortQueue l)) in *.
  pose proof (sortQueue_perm l) as Hl.
  destruct (sortQueue l) as [| y sl] eqn:Hsl; cbn in *.
  - exists x, []. split; [reflexivity |].
    apply Permutation_nil_l in Hl. subst l.
    split; [repeat constructor; unfold notLower; lia |].
    split; [reflexivity | congruence].
  - destruct (Z.leb_spec (req_priority y) (req_priority x)) as [Hle | Hlt].
    + exists x, (y :: sl). split; [reflexivity |].
      split; [| split; [reflexivity | congruence]].
      apply StronglySorted_inv in Hsorted as [_ Hall].
      constructor; [unfold notLower; lia |].
      rewrite <- Hl. exact Hall.
    + exists y, (insertByPriority x sl). split; [reflexivity |].
      assert (Hy : y ∈ l) by (rewrite <- Hl; apply list_elem_of_here).
      split; [| split].
      * apply StronglySorted_inv in Hsorted as [_ Hall].
        rewrite <- Hperm. constructor; [unfold notLower; lia | exact Hall].
      * intros Hall. rewrite Forall_forall in Hall.
        specialize (Hall y Hy). unfold notLower in Hall. lia.
      * intros _. split; [exact Hy | exact Hlt].
Qed.

End PauseQueue.

(** C3, as stated, does not hold.  [queueRequest] starts the drain loop as
    soon as it finds it idle, and the loop shifts the head of the queue
    before it first suspends: the request that arrives at an idle manager
    is taken at once.  Requests of priorities 1, 3, 2 enqueued back to back,
    with quota available throughout, run in the order 1, 3, 2. *)
Lemma idle_scheduler_runs_first_arrival_first :
  let idle := mkScheduler [] false NotRunning (mkQuota ∅ (mkPool (Some ∅) [])) [] in
  let req (pr : Z) := mkRequest (Z.to_nat pr) "userTimeline" None pr 0 in
  let ok := mkAttempt 1000 1000 1000 (Succeeds None) in
  let s := run pro idle (map Enqueue [req 1; req 3; req 2] ++ settleAll [ok; ok; ok]) in
  log s = [Called 1%nat; Resolved 1%nat; Slept 50;
           Called 3%nat; Resolved 3%nat; Slept 50;
           Called 2%nat; Resolved 2%nat; Slept 50]
  /\ calledIds (log s) <> [3; 2; 1]%nat.
Proof. vm_compute. split; [reflexivity | discriminate]. Qed.

(** C3, amended.  Requests that are enqueued while the drain loop is busy
    with another request, and that all settle without a throttle, are
    executed after it in the order of the sorted queue: non-increasing
    priority, and arrival order within one priority. *)
Theorem busy_scheduler_drains_by_priority p s r0 rs atts :
  pc s = AwaitingRequest r0 ->
  isProcessingQueue s = true ->
  requestQueue s = [] ->
  length atts = S (length rs) ->
  Forall (fun a => throttled a = false) atts ->
  let s' := run p s (map Enqueue rs ++ settleAll atts) in
  calledIds (log s') = calledIds (log s) ++ req_id r0 :: map req_id (sortQueue rs)
  /\ StronglySorted notLower (sortQueue rs)
  /\ sortQueue rs ≡ₚ rs
  /\ (forall pr, band pr (sortQueue rs) = band pr rs)
  /\ pc s' = NotRunning /\ requestQueue s' = [] /\ isProcessingQueue s' = false.
Proof.
  intros Hpc Hbusy Hempty Hlen Hall s'. subst s'.
  assert (Hsorted0 : StronglySorted notLower (requestQueue s))
    by (rewrite Hempty; constructor).
  destruct (enqueue_while_busy p rs s Hbusy Hsorted0)
    as (Hb & Hpc1 & _ & Hlog & Hsorted & Hperm & Hbands).
  rewrite Hempty in Hperm, Hbands. cbn in Hperm, Hbands.
  assert (Hqueue : requestQueue (run p s (map Enqueue rs)) = sortQueue rs).
  { apply sorted_bands_unique; [exact Hsorted | apply sortQueue_sorted |].
    intros pr. rewrite Hbands, sortQueue_stable. reflexivity. }
  rewrite run_app.
  destruct (drain_unthrottled p (sortQueue rs) (run p s (map Enqueue rs)) r0 atts)
    as (Hcalled & Hpc' & Hq' & Hb').
  - rewrite Hpc1. exact Hpc.
  - exact Hqueue.
  - rewrite <- Hqueue, Hperm. exact Hlen.
  - exact Hall.
  - rewrite Hcalled, Hlog.
    repeat split; auto using sortQueue_sorted, sortQueue_perm, sortQueue_stable.
Qed.

Lemma busy_scheduler_drains_by_priority_witness :
  let r0 := mkRequest 0%nat "userLookup" None 1 0 in
  let busy := mkScheduler [] true (AwaitingRequest r0)
                          (mkQuota ∅ (mkPool (Some ∅) [])) [] in
  let req (pr : Z) := mkRequest (Z.to_nat pr) "userTimeline" None pr 0 in
  let ok := mkAttempt 1000 1000 1000 (Succeeds None) in
  let s := run pro busy (map Enqueue [req 1; req 3; req 2]
                         ++ settleAll [ok; ok; ok; ok]) in
  calledIds (log s) = [0; 3; 2; 1]%nat.
Proof.
  intros r0 busy req ok s.
  destruct (busy_scheduler_drains_by_priority pro busy r0 [req 1; req 3; req 2]
              [ok; ok; ok; ok] eq_refl eq_refl eq_refl eq_refl) as (Hcalled & _).
  - repeat constructor.
  - exact Hcalled.
Defined.

(** C2, as stated, does not hold: the throttled request is put back with
    [unshift], at the head of the queue, not behind the requests of its new
    priority.  With requests of priorities 3, 2, 1 waiting, a throttled
    request of priority 3 comes back with priority 2 in front of all of
    them and is the next one the loop takes. *)
Lemma throttled_request_goes_to_head :
  let x := mkRequest 10 "userTimeline" None 3 0 in
  let y := mkRequest 11 "userTimeline" None 2 0 in
  let z := mkRequest 12 "userTimeline" None 1 0 in
  let r := mkRequest 1 "userTimeline" None 3 0 in
  let s := mkScheduler [x; y; z] true (AwaitingRequest r)
                       (mkQuota ∅ (mkPool (Some ∅) [])) [] in
  let a := mkAttempt 1000 1000 1000 (Fails (mkFailure (Some 429) None)) in
  let s1 := step pro s (Settle a) in
  requestQueue s1 = [demoted r; x; y; z]
  /\ insertAtBandTail (demoted r) (requestQueue s) = [x; y; demoted r; z]
  /\ requestQueue s1 <> insertAtBandTail (demoted r) (requestQueue s)
  /\ pc (step pro s1 Resume) = AwaitingRequest (demoted r).
Proof. vm_compute. repeat split; try reflexivity. discriminate. Qed.

(** C2, amended.  When the awaited request fails with status or code 429,
    the loop neither resolves nor rejects it: it lowers the priority of the
    request by one, not below 0, puts the request back at the head of the
    queue, and sleeps 1000 ms.  Until that delay has elapsed nothing is
    executed.  If nothing is enqueued meanwhile, the request that was put
    back is the one the loop takes when the delay ends.  A request
    enqueued during the delay sorts the whole queue again, the request
    that was put back included, by descending priority and keeping the
    order of equal priorities: then the loop takes the request that was
    put back if no other queued request has a priority above its lowered
    one, and otherwise a request of strictly higher priority, the first of
    the highest priority queued. *)
Theorem throttled_request_is_retried_first p s r a e :
  pc s = AwaitingRequest r ->
  result_of_call a = Fails e ->
  is429 e = true ->
  let s1 := step p s (Settle a) in
  requestQueue s1 = demoted r :: requestQueue s
  /\ req_priority (demoted r) = Z.max 0 (req_priority r - 1)
  /\ pc s1 = AwaitingDelay
  /\ (exists pre, log s1 = log s ++ pre ++ [Called (req_id r); Slept 1000]
                  /\ Forall (fun ev => exists w, ev = Slept w) pre)
  /\ (forall a', step p s1 (Settle a') = s1)
  /\ step p s1 Resume =
     mkScheduler (requestQueue s) (isProcessingQueue s)
                 (AwaitingRequest (demoted r)) (quotaState s1) (log s1)
  /\ (isProcessingQueue s = true ->
      forall news, news <> [] ->
        let s2 := run p s1 (map Enqueue news) in
        let others := requestQueue s ++ news in
        pc s2 = AwaitingDelay
        /\ log s2 = log s1
        /\ quotaState s2 = quotaState s1
        /\ requestQueue s2 = sortQueue (demoted r :: others)
        /\ (forall a', step p s2 (Settle a') = s2)
        /\ exists next rest,
             requestQueue s2 = next :: rest
             /\ step p s2 Resume =
                mkScheduler rest true (AwaitingRequest next) (quotaState s1) (log s1)
             /\ Forall (notLower next) (demoted r :: others)
             /\ (Forall (notLower (demoted r)) others -> next = demoted r)
             /\ (next <> demoted r ->
                 next ∈ others /\ req_priority (demoted r) < req_priority next)).
Proof.
  intros Hpc Hres H429 s1.
  assert (Hs1 : exists w q1,
             s1 = mkScheduler (demoted r :: requestQueue s) (isProcessingQueue s)
                    AwaitingDelay q1
                    ((if 0 <? w then log s ++ [Slept w] else log s)
                     ++ [Called (req_id r); Slept 1000])).
  { subst s1. unfold step. rewrite Hpc. unfold runRequest.
    destruct (checkAndWait p a r (quotaState s)) as [w q1].
    rewrite Hres, H429. eauto. }
  destruct Hs1 as (w & q1 & ->). cbn [requestQueue pc log quotaState].
  split; [reflexivity |]. split; [reflexivity |]. split; [reflexivity |].
  split.
  { exists (if 0 <? w then [Slept w] else []).
    destruct (0 <? w); cbn.
    - rewrite <- app_assoc. split; [reflexivity |]. repeat constructor. eauto.
    - split; [reflexivity | constructor]. }
  split; [intros a'; reflexivity |].
  split; [reflexivity |].
  intros Hbusy news Hnews. cbn zeta.
  set (s1 := mkScheduler _ _ _ _ _).
  destruct (enqueue_resorts p news s1 Hbusy Hnews) as (Hb2 & Hpc2 & Hq2 & Hlog2 & Hqueue).
  cbn [requestQueue pc log quotaState s1] in Hpc2, Hq2, Hlog2, Hqueue.
  change ((demoted r :: requestQueue s) ++ news)
    with (demoted r :: (requestQueue s ++ news)) in Hqueue.
  split; [exact Hpc2 |]. split; [exact Hlog2 |]. split; [exact Hq2 |].
  split; [exact Hqueue |].
  split; [intros a'; unfold step; rewrite Hpc2; reflexivity |].
  destruct (sortQueue_head (demoted r) (requestQueue s ++ news))
    as (next & rest & Hsort & Htop & Hfirst & Hother).
  exists next, rest. rewrite Hqueue.
  split; [exact Hsort |].
  split.
  { unfold step. rewrite Hpc2. unfold loopHead. rewrite Hqueue, Hsort, Hb2, Hq2, Hlog2.
    reflexivity. }
  split; [exact Htop |]. split; [exact Hfirst | exact Hother].
Qed.

Lemma throttled_request_is_retried_first_witness :
  let x := mkRequest 10 "userTimeline" None 3 0 in
  let urgent := mkRequest 11 "userLookup" None 3 1500 in
  let r := mkRequest 1 "userTimeline" None 3 0 in
  let s := mkScheduler [x] true (AwaitingRequest r)
                       (mkQuota ∅ (mkPool (Some ∅) [])) [] in
  let a := mkAttempt 1000 1000 1000 (Fails (mkFailure (Some 429) None)) in
  let s1 := step pro s (Settle a) in
  requestQueue s1 = [demoted r; x]
  /\ pc s1 = AwaitingDelay
  /\ pc (step pro s1 Resume) = AwaitingRequest (demoted r)
  /\ requestQueue (run pro s1 [Enqueue urgent]) = [x; urgent; demoted r]
  /\ pc (step pro (run pro s1 [Enqueue urgent]) Resume) = AwaitingRequest x.
Proof.
  intros x urgent r s a s1.
  destruct (throttled_request_is_retried_first pro s r a (mkFailure (Some 429) None)
              eq_refl eq_refl eq_refl) as (Hq & _ & Hpc & _ & _ & Hresume & Hpause).
  destruct (Hpause eq_refl [urgent]) as (_ & _ & _ & Hqueue & _ & next & rest & Hhead & Hstep & _);
    [discriminate |].
  split; [exact Hq |]. split; [exact Hpc |].
  split; [fold s1 in Hresume; rewrite Hresume; reflexivity |].
  split; [exact Hqueue |].
  fold s1 in Hstep, Hhead, Hqueue.
  change (map Enqueue [urgent]) with [Enqueue urgent] in Hstep, Hhead, Hqueue.
  rewrite Hqueue in Hhead. injection Hhead as <- <-.
  rewrite Hstep. reflexivity.
Defined.

(** ** The freshness cache *)

Import TweetCache.

Section NewestFirst.

Lemma newestFirst_filter (P : tweet -> Prop) `{!forall x, Decision (P x)} l :
  newestFirst l -> newestFirst (filter P l).
Proof.
  unfold newestFirst. induction 1 as [| x l Hsorted IH Hall]; [constructor |].
  rewrite filter_cons. case_decide; [| exact IH].
  constructor; [exact IH |].
  apply Forall_forall. intros y Hy%list_elem_of_filter.
  rewrite Forall_forall in Hall. apply Hall. tauto.
Qed.

Lemma newestFirst_take n l : newestFirst l -> newestFirst (take n l).
Proof.
  unfold newestFirst. intros Hsorted. revert n.
  induction Hsorted as [| x l Hsorted IH Hall]; intros [| n]; cbn; try constructor.
  - apply IH.
  - apply Forall_forall. intros y Hy.
    rewrite Forall_forall in Hall. apply Hall.
    eapply elem_of_sublist; [exact Hy | apply sublist_take].
Qed.

End NewestFirst.

(** C8, as stated, does not hold.  [addNewTweet] puts the item at the
    front and does not sort: an item older than the cached ones ends up
    before them.  And when the item is already cached the call returns
    before [lastFetch] is written, so the entry is not refreshed. *)
Lemma late_tweet_breaks_newest_first :
  let now := 1700000000000 in
  let cached := mkTweet "1001" (Some (now - 60000)) in
  let late := mkTweet "1000" (Some (now - 3600000)) in
  let tc := mkTweetCache {[ "cz_binance" := [cached] ]} {[ "cz_binance" := now - 1000 ]} in
  let tc1 := addNewTweet "cz_binance" late now (now + 1) tc in
  let tc2 := addNewTweet "cz_binance" cached (now + 600000) (now + 600001) tc1 in
  cache tc1 !! "cz_binance" = Some [late; cached]
  /\ ~ newestFirst [late; cached]
  /\ lastFetch tc2 !! "cz_binance" = Some (now + 1)
  /\ getCachedTweets "cz_binance" (now + 600002) tc2 = None.
Proof.
  cbv zeta. split; [vm_compute; reflexivity |].
  split; [| split; vm_compute; reflexivity].
  intros Hsorted. apply StronglySorted_inv in Hsorted as [_ Hall].
  apply Forall_inv in Hall. unfold newer_or_equal in Hall. cbn in Hall. lia.
Qed.

(** C8, amended.  An item whose id is already cached changes nothing, the
    fetch time included.  Otherwise the item is put in front of the cached
    ones, the entry is cut to the retention window of 24 hours and to the
    50 first items, and the fetch time becomes the current time (the
    second reading of the clock), so that the entry is served as fresh for
    the next five minutes.  The entry is not sorted: it is newest first
    when the cached items were and the item is at least as new as all of
    them. *)
Theorem addNewTweet_merges username t now fetchedAt tc :
  let cached := default [] (cache tc !! username) in
  let tc' := addNewTweet username t now fetchedAt tc in
  (hasTweet (tweet_id t) cached = true -> tc' = tc)
  /\ (hasTweet (tweet_id t) cached = false ->
      exists fresh,
        fresh = take MAX_TWEETS_PER_ACCOUNT
                     (filter (fun x => isRecent now x = true) (t :: cached))
        /\ cache tc' !! username = Some fresh
        /\ lastFetch tc' !! username = Some fetchedAt
        /\ (length fresh <= MAX_TWEETS_PER_ACCOUNT)%nat
        /\ Forall (fun x => isRecent now x = true) fresh
        /\ (isRecent now t = true -> head fresh = Some t)
        /\ (forall t', fetchedAt <= t' < fetchedAt + CACHE_DURATION ->
                       getCachedTweets username t' tc' = Some fresh)
        /\ (newestFirst (t :: cached) -> newestFirst fresh)).
Proof.
  intros cached tc'. subst tc'. unfold addNewTweet. fold cached.
  split; intros Hdup; rewrite Hdup; [reflexivity |].
  eexists. split; [reflexivity |]. cbn [cache lastFetch].
  split; [apply lookup_insert_eq |].
  split; [apply lookup_insert_eq |].
  split; [rewrite length_take; apply Nat.le_min_l |].
  split.
  { apply Forall_take, Forall_forall. intros x Hx%list_elem_of_filter. tauto. }
  split.
  { intros Hrecent. rewrite filter_cons_True by exact Hrecent. reflexivity. }
  split.
  { intros t' [Hlo Hhi]. unfold getCachedTweets. cbn [cache lastFetch].
    rewrite !lookup_insert_eq. unfold default. cbn [from_option id].
    rewrite (proj2 (Z.ltb_lt _ _)) by lia. reflexivity. }
  intros Hsorted. apply newestFirst_take, newestFirst_filter. exact Hsorted.
Qed.

Lemma addNewTweet_merges_witness :
  let now := 1700000000000 in
  let older := mkTweet "1000" (Some (now - 3600000)) in
  let stale := mkTweet "0900" (Some (now - 90000000)) in
  let newer := mkTweet "1001" (Some (now - 60000)) in
  let tc := mkTweetCache {[ "cz_binance" := [older; stale] ]} {[ "cz_binance" := 0 ]} in
  let tc' := addNewTweet "cz_binance" newer now (now + 1) tc in
  cache tc' !! "cz_binance" = Some [newer; older]
  /\ lastFetch tc' !! "cz_binance" = Some (now + 1)
  /\ newestFirst [newer; older].
Proof.
  intros now older stale newer tc tc'.
  destruct (addNewTweet_merges "cz_binance" newer now (now + 1) tc) as [_ Hnew].
  destruct Hnew as (fresh & Hfresh & Hcache & Hfetch & _ & _ & _ & _ & Hsorted);
    [vm_compute; reflexivity |].
  assert (Hcached : default [] (cache tc !! "cz_binance") = [older; stale])
    by (vm_compute; reflexivity).
  rewrite Hcached in Hfresh, Hsorted.
  assert (fresh = [newer; older]) as -> by (rewrite Hfresh; vm_compute; reflexivity).
  split; [exact Hcache |]. split; [exact Hfetch |].
  apply Hsorted. unfold newestFirst.
  repeat constructor; unfold newer_or_equal; cbn; lia.
Defined.

Example addNewTweet_in_order :
  let now := 1700000000000 in
  let older := mkTweet "1000" (Some (now - 3600000)) in
  let stale := mkTweet "0900" (Some (now - 90000000)) in
  let newer := mkTweet "1001" (Some (now - 60000)) in
  let tc := mkTweetCache {[ "cz_binance" := [older; stale] ]} {[ "cz_binance" := 0 ]} in
  let tc' := addNewTweet "cz_binance" newer now (now + 1) tc in
  cache tc' !! "cz_binance" = Some [newer; older]
  /\ getCachedTweets "cz_binance" (now + 1000) tc' = Some [newer; older].
Proof. vm_compute. split; reflexivity. Qed.

(** ** Saving tweets *)

Section Saving.

Import TwitterService.

Variable username : string.

Lemma rowOf_length t row : rowOf username t = Some row -> length row = 11%nat.
Proof.
  unfold rowOf. destruct (createdMs t); [| discriminate].
  intros [= <-]. reflexivity.
Qed.

Lemma rowsOf_Some batch rows :
  rowsOf username batch = Some rows ->
  length rows = length batch
  /\ Forall (fun row => length row = 11%nat) rows
  /\ Forall (fun t => is_Some (createdMs t)) batch.
Proof.
  revert rows. induction batch as [| t batch IH]; intros rows; cbn.
  - intros [= <-]. repeat split; constructor.
  - destruct (rowOf username t) as [row |] eqn:Hrow; [| discriminate].
    destruct (rowsOf username batch) as [rows' |]; [| discriminate].
    intros [= <-]. destruct (IH rows' eq_refl) as (Hlen & Hwidth & Hdated).
    split; [cbn; congruence |]. split.
    + constructor; [eapply rowOf_length; exact Hrow | exact Hwidth].
    + constructor; [| exact Hdated].
      unfold rowOf in Hrow. destruct (createdMs t); [eauto | discriminate].
Qed.

Lemma rowsOf_None batch :
  rowsOf username batch = None ->
  exists t, t ∈ batch /\ createdMs t = None.
Proof.
  induction batch as [| t batch IH]; cbn; [discriminate |].
  unfold rowOf at 1. destruct (createdMs t) eqn:Hms.
  - destruct (rowsOf username batch); [discriminate |].
    intros _. destruct (IH eq_refl) as (t' & Hin & Hbad).
    exists t'. split; [right; exact Hin | exact Hbad].
  - intros _. exists t. split; [left | exact Hms].
Qed.

Lemma countChar_append c s1 s2 :
  countChar c (s1 ++ s2)%string = (countChar c s1 + countChar c s2)%nat.
Proof.
  induction s1 as [| c' s1 IH]; [reflexivity |].
  change (String c' s1 ++ s2)%string with (String c' (s1 ++ s2)%string).
  cbn [countChar]. rewrite IH. lia.
Qed.

Lemma placeholders_count (rows : list (list sqlValue)) :
  countChar placeholderMark (placeholders (statementOf rows)) = (12 * length rows)%nat.
Proof.
  unfold statementOf. cbn [placeholders].
  induction rows as [| row rows IH]; [reflexivity |].
  cbn [map String.concat length].
  destruct rows as [| row' rows]; [reflexivity |].
  cbn [map] in IH |- *.
  rewrite !countChar_append, IH. cbn [length].
  change (countChar placeholderMark "(?, ?, ?, ?, ?, ?, ?, ?, ?, ?, ?, ?)") with 12%nat.
  change (countChar placeholderMark ", ") with 0%nat. lia.
Qed.

Lemma flatParams_count (rows : list (list sqlValue)) :
  Forall (fun row => length row = 11%nat) rows ->
  length (flatParams (statementOf rows)) = (11 * length rows)%nat.
Proof.
  unfold statementOf. cbn [flatParams].
  induction 1 as [| row rows Hrow Hrows IH]; [reflexivity |].
  cbn [concat length]. rewrite length_app, IH, Hrow. lia.
Qed.

Variable tweets : list apiTweet.

Lemma batched_nil : batched [].
Proof. intros k batch Hk. rewrite lookup_nil in Hk. discriminate. Qed.

Lemma batched_cons batch batches :
  (0 < length batch <= BATCH_SIZE)%nat ->
  (batches <> [] -> length batch = BATCH_SIZE) ->
  batched batches ->
  batched (batch :: batches).
Proof.
  intros Hlen Hfull Hrest [| k] b Hk; cbn in Hk.
  - injection Hk as <-. split; [exact Hlen |].
    intros Hmore. apply Hfull. destruct batches; [cbn in Hmore; lia | discriminate].
  - destruct (Hrest k b Hk) as [Hb Hbfull]. split; [exact Hb |].
    intros Hmore. apply Hbfull. cbn in Hmore. lia.
Qed.

Lemma slice_batch i :
  slice i (i + BATCH_SIZE) tweets = take BATCH_SIZE (drop i tweets).
Proof. unfold slice. replace (i + BATCH_SIZE - i)%nat with BATCH_SIZE by lia. reflexivity. Qed.

Lemma saveBatches_batches fuel : forall i executed,
  (length tweets <= i + BATCH_SIZE * fuel)%nat ->
  exists new ending batches,
    saveBatches fuel i tweets username executed = (executed ++ new, ending)
    /\ Forall2 (savedAs username) batches new
    /\ batched batches
    /\ (batches <> [] -> (i < length tweets)%nat)
    /\ match ending with
       | Returned => concat batches = drop i tweets
       | Threw =>
           exists bad,
             bad = slice (i + length (concat batches))
                         (i + length (concat batches) + BATCH_SIZE) tweets
             /\ bad <> []
             /\ rowsOf username bad = None
             /\ concat batches = take (length (concat batches)) (drop i tweets)
       end.
Proof.
  induction fuel as [| fuel IH]; intros i executed Hfuel; cbn [saveBatches].
  { exists [], Returned, []. rewrite app_nil_r.
    split; [reflexivity |]. split; [constructor |]. split; [apply batched_nil |].
    split; [congruence |]. cbn. rewrite drop_ge by lia. reflexivity. }
  destruct (Nat.ltb_spec i (length tweets)) as [Hin | Hout].
  - rewrite slice_batch.
    destruct (rowsOf username (take BATCH_SIZE (drop i tweets))) as [rows |] eqn:Hrows.
    + destruct (IH (i + BATCH_SIZE)%nat (executed ++ [statementOf rows]))
        as (new & ending & batches & Hrun & Hsaved & Hshape & Hmore & Hend); [lia |].
      exists (statementOf rows :: new), ending,
             (take BATCH_SIZE (drop i tweets) :: batches).
      split; [rewrite Hrun, <- app_assoc; reflexivity |].
      split; [constructor; [exists rows; split; [exact Hrows | reflexivity] | exact Hsaved] |].
      split.
      { apply batched_cons; [| | exact Hshape].
        - rewrite length_take, length_drop. unfold BATCH_SIZE. lia.
        - intros Hne. specialize (Hmore Hne).
          rewrite length_take, length_drop. lia. }
      split; [intros _; exact Hin |].
      destruct ending.
      * cbn [concat]. rewrite Hend, <- drop_drop. apply take_drop.
      * destruct Hend as (bad & Hbad & Hne & Hnone & Hprefix).
        exists bad. cbn [concat]. rewrite length_app.
        assert (length (take BATCH_SIZE (drop i tweets)) = BATCH_SIZE) as Hfull.
        { rewrite length_take, length_drop.
          assert (i + BATCH_SIZE + length (concat batches) < length tweets)%nat; [| lia].
          destruct (Nat.lt_ge_cases (i + BATCH_SIZE + length (concat batches))
                                    (length tweets)) as [Hlt | Hge]; [exact Hlt |].
          exfalso. apply Hne. rewrite Hbad. unfold slice.
          rewrite drop_ge by lia. apply take_nil. }
        rewrite Hfull.
        split; [rewrite Hbad; f_equal; lia |].
        split; [exact Hne |]. split; [exact Hnone |].
        rewrite <- take_take_drop, drop_drop. f_equal. exact Hprefix.
    + exists [], Threw, []. rewrite app_nil_r.
      split; [reflexivity |]. split; [constructor |]. split; [apply batched_nil |].
      split; [congruence |].
      exists (take BATCH_SIZE (drop i tweets)). cbn [concat length].
      rewrite Nat.add_0_r, slice_batch.
      split; [reflexivity |].
      split; [| split; [exact Hrows | reflexivity]].
      intros Hnil. apply (f_equal length) in Hnil.
      rewrite length_take, length_drop in Hnil. unfold BATCH_SIZE in Hnil.
      cbn [length] in Hnil. lia.
  - exists [], Returned, []. rewrite app_nil_r.
    split; [reflexivity |]. split; [constructor |]. split; [apply batched_nil |].
    split; [congruence |]. cbn. rewrite drop_ge by lia. reflexivity.
Qed.

Lemma batched_tail batch batches : batched (batch :: batches) -> batched batches.
Proof.
  intros Hshape k b Hk. destruct (Hshape (S k) b Hk) as [Hlen Hfull].
  split; [exact Hlen |]. intros Hmore. apply Hfull. cbn. lia.
Qed.

Lemma batched_count batches :
  batched batches ->
  length batches = ((length (concat batches) + 24) / 25)%nat.
Proof.
  induction batches as [| batch batches IH]; intros Hshape; [reflexivity |].
  destruct (Hshape 0%nat batch eq_refl) as [Hlen Hfull].
  specialize (IH (batched_tail _ _ Hshape)).
  cbn [concat length]. rewrite length_app.
  unfold BATCH_SIZE in *.
  destruct batches as [| batch' batches].
  - cbn [concat length]. rewrite Nat.add_0_r.
    apply Nat.div_unique with (r := (length batch - 1)%nat); lia.
  - rewrite Hfull by (cbn; lia). rewrite IH.
    replace (25 + length (concat (batch' :: batches)) + 24)%nat
      with (1 * 25 + (length (concat (batch' :: batches)) + 24))%nat by lia.
    rewrite Nat.div_add_l by lia. reflexivity.
Qed.

Lemma saveTweetsToDb_batches :
  exists batches,
    Forall2 (savedAs username) batches (saveTweetsToDb true tweets username).1
    /\ batched batches
    /\ match (saveTweetsToDb true tweets username).2 with
       | Returned => concat batches = tweets
       | Threw =>
           exists bad later,
             tweets = concat batches ++ bad ++ later
             /\ (0 < length bad <= BATCH_SIZE)%nat
             /\ rowsOf username bad = None
       end.
Proof.
  unfold saveTweetsToDb.
  destruct (saveBatches_batches (length tweets) 0 [])
    as (new & ending & batches & Hrun & Hsaved & Hshape & _ & Hend);
    [unfold BATCH_SIZE; lia |].
  rewrite Hrun. cbn [fst snd app].
  exists batches. split; [exact Hsaved |]. split; [exact Hshape |].
  destruct ending; [exact Hend |].
  destruct Hend as (bad & Hbad & Hne & Hnone & Hprefix).
  cbn [Nat.add drop] in Hbad, Hprefix.
  exists bad, (drop (length (concat batches) + BATCH_SIZE) tweets).
  split; [| split; [| exact Hnone]].
  - change (drop 0 tweets) with tweets in Hprefix.
    rewrite Hbad, slice_batch.
    transitivity (take (length (concat batches)) tweets
                  ++ drop (length (concat batches)) tweets);
      [symmetry; apply take_drop |].
    rewrite <- Hprefix. f_equal.
    rewrite <- drop_drop. symmetry. apply take_drop.
  - split.
    + destruct bad; [contradiction | cbn; lia].
    + rewrite Hbad, slice_batch, length_take. lia.
Qed.



End Saving.

(** ** On-demand sync *)

Import TrackerService.

Section Delivery.


End Delivery.




(** ** Backfill *)

Import BackfillTrace.

Section BackfillTraces.







End BackfillTraces.

Section BackfillFlags.







Variable withinBudget : Z -> bool.








End BackfillFlags.



Example backfill_two_accounts :
  let st0 := initializeBackfillSystem ["cz_binance"; "LabsNoor"] (fun _ => None) in
  let old := mkTweet "1690000000000000000" (Some 1600000000000) in
  let pass f := mkBackfillPass true f in
  let session1 := [pass (Fetched [] 0); pass (Fetched [old] 1);
                   pass (Fetched [] 0); pass (Fetched [] 0)] in
  let session2 := [pass (Fetched [] 0); pass (Fetched [] 0)] in
  let after1 := backfillSessions (fun used => used <? 10) [session1] st0 [] in
  let after2 := backfillSessions (fun used => used <? 10) [session1; session2] st0 [] in
  snd after1 = [BackfillFetch 0 true; BackfillFetch 1 false; BackfillFetch 1 true]
  /\ map completed (accountProgress (fst after1)) = [true; true]
  /\ snd after2 = [BackfillFetch 0 true; BackfillFetch 1 false; BackfillFetch 1 true;
                   CycleReset]
  /\ map completed (accountProgress (fst after2)) = [false; false].
Proof. vm_compute. repeat split; reflexivity. Qed.

(** * Further properties of the code *)

(** ** The drain loop keeps its books *)

Import Housekeeping.

Section Bookkeeping.

Variable p : plan.

Lemma resolvedIds_app l1 l2 : resolvedIds (l1 ++ l2) = resolvedIds l1 ++ resolvedIds l2.
Proof. unfold resolvedIds. apply omap_app. Qed.

Lemma rejectedIds_app l1 l2 : rejectedIds (l1 ++ l2) = rejectedIds l1 ++ rejectedIds l2.
Proof. unfold rejectedIds. apply omap_app. Qed.

Lemma enqueuedIds_app i1 i2 : enqueuedIds (i1 ++ i2) = enqueuedIds i1 ++ enqueuedIds i2.
Proof. unfold enqueuedIds. apply omap_app. Qed.

Lemma coherent_idle s :
  coherent s -> isProcessingQueue s = false ->
  pc s = NotRunning /\ requestQueue s = [].
Proof.
  intros [Hflag Hempty] Hidle.
  assert (Hpc : pc s = NotRunning).
  { destruct (pc s) eqn:Hpc; [reflexivity | |];
      (assert (isProcessingQueue s = true) by (apply Hflag; discriminate));
      congruence. }
  split; [exact Hpc | apply Hempty; exact Hpc].
Qed.

Lemma coherent_busy s :
  coherent s -> pc s <> NotRunning -> isProcessingQueue s = true.
Proof. intros [Hflag _] Hpc. apply Hflag. exact Hpc. Qed.

Lemma coherent_loopHead Q q lg pc0 :
  coherent (loopHead (mkScheduler Q true pc0 q lg)).
Proof.
  unfold loopHead, coherent. cbn. destruct Q as [| r Q]; cbn.
  - split; [split; [discriminate | congruence] | reflexivity].
  - split; [split; [discriminate | reflexivity] | discriminate].
Qed.

Lemma accounted_loopHead Q b q lg pc0 :
  accountedIds (loopHead (mkScheduler Q b pc0 q lg))
  ≡ₚ map req_id Q ++ resolvedIds lg ++ rejectedIds lg.
Proof.
  unfold loopHead, accountedIds, inFlight. cbn.
  destruct Q as [| r Q]; cbn; solve_Permutation.
Qed.

Lemma queueRequest_idle r s :
  coherent s -> isProcessingQueue s = false ->
  queueRequest r s = mkScheduler [] true (AwaitingRequest r) (quotaState s) (log s).
Proof.
  intros Hco Hflag. destruct (coherent_idle s Hco Hflag) as [Hpc HQ].
  unfold queueRequest, processQueue. cbn. rewrite Hflag, HQ. reflexivity.
Qed.

Lemma queueRequest_coherent r s : coherent s -> coherent (queueRequest r s).
Proof.
  intros Hco. destruct (isProcessingQueue s) eqn:Hflag.
  - rewrite queueRequest_busy by exact Hflag.
    destruct Hco as [Hf He]. split; cbn.
    + split; [intros _; apply Hf; exact Hflag | reflexivity].
    + intros Hpc. apply Hf in Hflag. contradiction.
  - rewrite queueRequest_idle by assumption.
    split; cbn; [split; [discriminate | reflexivity] | discriminate].
Qed.

Lemma queueRequest_accounted r s :
  coherent s -> accountedIds (queueRequest r s) ≡ₚ accountedIds s ++ [req_id r].
Proof.
  intros Hco. destruct (isProcessingQueue s) eqn:Hflag.
  - rewrite queueRequest_busy by exact Hflag.
    unfold accountedIds, inFlight. cbn.
    rewrite sortQueue_perm, map_app. cbn. solve_Permutation.
  - rewrite queueRequest_idle by assumption.
    destruct (coherent_idle s Hco Hflag) as [Hpc HQ].
    unfold accountedIds, inFlight. cbn. rewrite Hpc, HQ. cbn.
    solve_Permutation.
Qed.

(** The state in which [runRequest] leaves the loop, whatever the quota
    side did. *)
Lemma runRequest_shape a r s :
  exists q' pre,
    resolvedIds pre = [] /\ rejectedIds pre = [] /\ calledIds pre = []
    /\ runRequest p a r s =
       match result_of_call a with
       | Succeeds _ =>
           mkScheduler (requestQueue s) (isProcessingQueue s) AwaitingDelay q'
                       (log s ++ pre ++ [Called (req_id r); Resolved (req_id r); Slept 50])
       | Fails e =>
           if is429 e then
             mkScheduler (demoted r :: requestQueue s) (isProcessingQueue s)
                         AwaitingDelay q'
                         (log s ++ pre ++ [Called (req_id r); Slept 1000])
           else
             loopHead (mkScheduler (requestQueue s) (isProcessingQueue s) (pc s) q'
                         (log s ++ pre ++ [Called (req_id r); Rejected (req_id r)]))
       end.
Proof.
  unfold runRequest.
  destruct (checkAndWait p a r (quotaState s)) as [w q1].
  destruct (0 <? w).
  - destruct (result_of_call a) as [h | e]; [| destruct (is429 e)];
      eexists _, [Slept w]; rewrite <- !app_assoc; repeat split; reflexivity.
  - destruct (result_of_call a) as [h | e]; [| destruct (is429 e)];
      eexists _, []; repeat split; reflexivity.
Qed.

Lemma step_coherent s i : coherent s -> coherent (step p s i).
Proof.
  intros Hco. destruct i as [r | a |]; unfold step.
  - destruct (pc s); apply queueRequest_coherent; exact Hco.
  - destruct (pc s) as [| r |] eqn:Hpc; try exact Hco.
    assert (Hflag : isProcessingQueue s = true)
      by (apply coherent_busy; [exact Hco | rewrite Hpc; discriminate]).
    destruct (runRequest_shape a r s) as (q' & pre & _ & _ & _ & ->).
    rewrite Hflag.
    destruct (result_of_call a) as [h | e]; [| destruct (is429 e)].
    + split; cbn; [split; [discriminate | reflexivity] | discriminate].
    + split; cbn; [split; [discriminate | reflexivity] | discriminate].
    + apply coherent_loopHead.
  - destruct (pc s) eqn:Hpc; try exact Hco.
    assert (Hflag : isProcessingQueue s = true)
      by (apply coherent_busy; [exact Hco | rewrite Hpc; discriminate]).
    destruct s as [Q b pc0 q lg]. cbn in *. subst b. apply coherent_loopHead.
Qed.

Lemma step_accounted s i :
  coherent s -> accountedIds (step p s i) ≡ₚ accountedIds s ++ enqueuedIds [i].
Proof.
  intros Hco. destruct i as [r | a |]; unfold step.
  - destruct (pc s); apply queueRequest_accounted; exact Hco.
  - cbn [enqueuedIds omap]. rewrite app_nil_r.
    destruct (pc s) as [| r |] eqn:Hpc; try reflexivity.
    destruct (runRequest_shape a r s) as (q' & pre & Hres & Hrej & _ & ->).
    destruct (result_of_call a) as [h | e]; [| destruct (is429 e)].
    + unfold accountedIds, inFlight. cbn. rewrite Hpc.
      rewrite !resolvedIds_app, !rejectedIds_app, Hres, Hrej. cbn.
      rewrite !app_nil_r. solve_Permutation.
    + unfold accountedIds, inFlight. cbn. rewrite Hpc.
      rewrite !resolvedIds_app, !rejectedIds_app, Hres, Hrej. cbn.
      rewrite !app_nil_r. solve_Permutation.
    + rewrite accounted_loopHead.
      unfold accountedIds, inFlight. rewrite Hpc.
      rewrite !resolvedIds_app, !rejectedIds_app, Hres, Hrej. cbn.
      rewrite !app_nil_r. solve_Permutation.
  - cbn [enqueuedIds omap]. rewrite app_nil_r.
    destruct (pc s) eqn:Hpc; try reflexivity.
    destruct s as [Q b pc0 q lg]. cbn in Hpc. subst pc0.
    rewrite accounted_loopHead. unfold accountedIds, inFlight. cbn.
    reflexivity.
Qed.

Lemma run_coherent inputs : forall s, coherent s -> coherent (run p s inputs).
Proof.
  induction inputs as [| i inputs IH]; intros s Hco; [exact Hco |].
  apply (IH (step p s i)). apply step_coherent. exact Hco.
Qed.

Lemma run_accounted inputs : forall s,
  coherent s -> accountedIds (run p s inputs) ≡ₚ accountedIds s ++ enqueuedIds inputs.
Proof.
  induction inputs as [| i inputs IH]; intros s Hco.
  - cbn. rewrite app_nil_r. reflexivity.
  - change (run p s (i :: inputs)) with (run p (step p s i) inputs).
    rewrite IH by (apply step_coherent; exact Hco).
    rewrite step_accounted by exact Hco.
    change (i :: inputs) with ([i] ++ inputs).
    rewrite enqueuedIds_app, app_assoc. reflexivity.
Qed.

Lemma freshManager_coherent q : coherent (freshManager q).
Proof. split; cbn; [split; [discriminate | congruence] | reflexivity]. Qed.

End Bookkeeping.

(** X1.  No request is lost and none is settled twice: at every moment of
    every run of a manager, the requests handed to [queueRequest] are
    exactly those waiting in the queue, the one in flight, those resolved
    and those rejected.  With distinct requests no request is in two of
    these places or in one of them twice. *)
Theorem requests_are_conserved p q inputs :
  let s := run p (freshManager q) inputs in
  enqueuedIds inputs
  ≡ₚ map req_id (requestQueue s) ++ inFlight s
     ++ resolvedIds (log s) ++ rejectedIds (log s)
  /\ (NoDup (enqueuedIds inputs) ->
      NoDup (map req_id (requestQueue s) ++ inFlight s
             ++ resolvedIds (log s) ++ rejectedIds (log s))).
Proof.
  intros s.
  pose proof (run_accounted p inputs (freshManager q) (freshManager_coherent q)) as H.
  fold s in H. unfold accountedIds in H. cbn in H.
  split; [symmetry; exact H |].
  intros Hnd. rewrite H. exact Hnd.
Qed.

(** X2.  The manager is never idle with work pending: through every run,
    [isProcessingQueue] is set exactly while the loop is suspended on a
    request or on a delay, and whenever the loop has stopped the queue is
    empty. *)
Theorem idle_manager_has_empty_queue p q inputs :
  let s := run p (freshManager q) inputs in
  (isProcessingQueue s = true <-> pc s <> NotRunning)
  /\ (isProcessingQueue s = false -> requestQueue s = [] /\ pc s = NotRunning).
Proof.
  intros s.
  pose proof (run_coherent p inputs (freshManager q) (freshManager_coherent q)) as Hco.
  fold s in Hco. split; [apply Hco |].
  intros Hidle. destruct (coherent_idle s Hco Hidle). auto.
Qed.

(** ** What is counted, and for how long the loop waits *)

Section Counting.

Variable p : plan.

Lemma canMakeRequest_leaves_table e a now q l :
  limits p e = Some l ->
  outages (db q) = [] ->
  outages (db (snd (canMakeRequest p e a now q))) = []
  /\ is_Some (rate_limits (db (snd (canMakeRequest p e a now q)))).
Proof.
  intros Hl Hout.
  unfold canMakeRequest, getCurrentUsage, createRateLimitTable, select_usage,
    create_table, next_outage.
  rewrite (limitOf_own p e l Hl).
  destruct q as [cache0 [tbl outs]]. cbn in *. subst outs. cbn.
  destruct tbl as [t |]; cbn.
  - destruct (t !! (cacheKey e a, windowStartOf l now)); cbn; eauto.
  - eauto.
Qed.

Lemma recordRequest_counts_one e a h now q l k w :
  limits p e = Some l ->
  outages (db q) = [] ->
  is_Some (rate_limits (db q)) ->
  stored_count k w (db (recordRequest p e a h now q)) =
    stored_count k w (db q)
    + (if decide ((k, w) = (cacheKey e a, windowStartOf l now)) then 1 else 0).
Proof.
  intros Hl Hout [t Ht].
  unfold recordRequest, recordIn, incrementUsage. rewrite (limitOf_own p e l Hl).
  destruct (upsert_usage (cacheKey e a) (windowStartOf l now) (db q))
    as [[[] | err] d'] eqn:Hu.
  - cbn. rewrite (upsert_usage_stored_count _ _ _ _ _ k w Hu).
    case_decide; lia.
  - exfalso. revert Hu. unfold upsert_usage, next_outage.
    rewrite Hout, Ht. discriminate.
Qed.

Lemma checkAndWait_counts a r q k w :
  stored_count k w (db (snd (checkAndWait p a r q))) = stored_count k w (db q).
Proof.
  unfold checkAndWait.
  pose proof (canMakeRequest_stored_count p (req_endpoint r) (req_accountId r)
                (t_check a) q k w) as H.
  destruct (canMakeRequest p (req_endpoint r) (req_accountId r) (t_check a) q).
  exact H.
Qed.

Lemma quotaState_runRequest a r s :
  quotaState (runRequest p a r s) =
    match result_of_call a with
    | Succeeds h => recordRequest p (req_endpoint r) (req_accountId r) h (t_record a)
                                  (snd (checkAndWait p a r (quotaState s)))
    | Fails _ => snd (checkAndWait p a r (quotaState s))
    end.
Proof.
  unfold runRequest.
  destruct (checkAndWait p a r (quotaState s)) as [w q1]. cbn [snd].
  destruct (result_of_call a) as [h | e]; [reflexivity |].
  destruct (is429 e); [reflexivity |].
  rewrite quotaState_loopHead. reflexivity.
Qed.

End Counting.

(** X3.  The stored counters count the calls that returned, and only
    those.  A call that throws, throttled or not, leaves every counter as
    it was and resolves nothing.  A call that returns is resolved whether
    or not it could be recorded; with the store reachable it adds exactly
    one to the counter of its key in the window of the recording and
    changes no other counter. *)
Theorem only_returned_calls_are_counted p s r a :
  pc s = AwaitingRequest r ->
  let s' := step p s (Settle a) in
  let key := cacheKey (req_endpoint r) (req_accountId r) in
  match result_of_call a with
  | Fails _ =>
      (forall k w, stored_count k w (db (quotaState s'))
                   = stored_count k w (db (quotaState s)))
      /\ resolvedIds (log s') = resolvedIds (log s)
  | Succeeds _ =>
      resolvedIds (log s') = resolvedIds (log s) ++ [req_id r]
      /\ rejectedIds (log s') = rejectedIds (log s)
      /\ forall l, limits p (req_endpoint r) = Some l ->
                   outages (db (quotaState s)) = [] ->
                   forall k w,
                     stored_count k w (db (quotaState s'))
                     = stored_count k w (db (quotaState s))
                       + (if decide ((k, w) = (key, windowStartOf l (t_record a)))
                          then 1 else 0)
  end.
Proof.
  intros Hpc s' key. subst s'. unfold step. rewrite Hpc.
  pose proof (quotaState_runRequest p a r s) as Hq.
  destruct (runRequest_shape p a r s) as (q' & pre & Hres & Hrej & _ & Hshape).
  destruct (result_of_call a) as [h | e].
  - rewrite Hshape at 1 2. cbn [log].
    rewrite !resolvedIds_app, !rejectedIds_app, Hres, Hrej. cbn.
    split; [reflexivity |]. split; [rewrite app_nil_r; reflexivity |].
    intros l Hl Hout k w. rewrite Hq.
    rewrite checkAndWait_is_check.
    destruct (canMakeRequest_leaves_table p _ (req_accountId r) (t_check a)
                (quotaState s) l Hl Hout) as [Hout1 Htbl].
    rewrite (recordRequest_counts_one p _ _ _ _ _ l k w Hl Hout1 Htbl).
    rewrite canMakeRequest_stored_count. reflexivity.
  - split.
    + intros k w. rewrite Hq. apply checkAndWait_counts.
    + rewrite Hshape. destruct (is429 e).
      * cbn [log]. rewrite !resolvedIds_app, Hres. cbn. rewrite app_nil_r. reflexivity.
      * assert (Hlog : forall sch, log (loopHead sch) = log sch)
          by (intros sch; unfold loopHead; destruct (requestQueue sch); reflexivity).
        rewrite Hlog. cbn [log].
        rewrite !resolvedIds_app, Hres. cbn. rewrite app_nil_r. reflexivity.
Qed.

Lemma only_returned_calls_are_counted_witness :
  let r := mkRequest 4 "userLookup" (Some "cz_binance") 1 0 in
  let s := mkScheduler [] true (AwaitingRequest r) (mkQuota ∅ (mkPool None [])) [] in
  let throttledCall := mkAttempt 1000 1000 1001 (Fails (mkFailure (Some 429) None)) in
  let s' := step pro s (Settle throttledCall) in
  (forall k w, stored_count k w (db (quotaState s')) = stored_count k w (db (quotaState s)))
  /\ resolvedIds (log s') = resolvedIds (log s).
Proof.
  intros r s throttledCall s'.
  exact (only_returned_calls_are_counted pro s r throttledCall eq_refl).
Defined.

(** X4.  The wait before a refused request is never negative; it is zero
    for a name that [this.limits] does not have; for a name it only
    inherits it is zero when the count could be read, and also when the
    cache entry of the key, if there is one, has a positive [remaining] or
    no numeric reset time; and for a configured endpoint, when the count
    could be read, it is at most one window length. *)
Theorem quota_wait_is_bounded p a r q :
  0 <= fst (checkAndWait p a r q)
  /\ (limitOf p (req_endpoint r) = Undefined -> fst (checkAndWait p a r q) = 0)
  /\ (limits p (req_endpoint r) = None -> outages (db q) = [] ->
      fst (checkAndWait p a r q) = 0)
  /\ (limits p (req_endpoint r) = None ->
      (forall entry,
          rateLimitCache q !! cacheKey (req_endpoint r) (req_accountId r) = Some entry ->
          positive (cached_remaining entry) = true \/ cached_resetTime entry = NaN) ->
      fst (checkAndWait p a r q) = 0)
  /\ (forall l, limits p (req_endpoint r) = Some l ->
                outages (db q) = [] ->
                t_check a <= t_wait a ->
                fst (checkAndWait p a r q) <= windowMs l).
Proof.
  split; [| split; [| split; [| split]]].
  - apply checkAndWait_nonneg.
  - intros Hl. unfold checkAndWait, canMakeRequest. rewrite Hl. reflexivity.
  - intros Hl Hout. unfold checkAndWait, canMakeRequest.
    destruct (limitOf_other p _ Hl) as [-> | ->]; [| reflexivity].
    destruct (getCurrentUsage_available (req_endpoint r) NaN (req_accountId r) (db q) Hout)
      as (c & d' & ->).
    cbn [positive fst]. unfold getWaitTime. cbn [rateLimitCache].
    rewrite lookup_insert_eq. reflexivity.
  - intros Hl Hentry. unfold checkAndWait, canMakeRequest.
    destruct (limitOf_other p _ Hl) as [-> | ->]; [| reflexivity].
    destruct (getCurrentUsage (req_endpoint r) NaN (req_accountId r) (db q))
      as [[c | err] d'].
    + cbn [positive fst]. unfold getWaitTime. cbn [rateLimitCache].
      rewrite lookup_insert_eq. reflexivity.
    + cbn [fst]. unfold getWaitTime. cbn [rateLimitCache].
      destruct (rateLimitCache q !! cacheKey (req_endpoint r) (req_accountId r))
        as [entry |] eqn:Hcached; [| reflexivity].
      destruct (Hentry entry eq_refl) as [-> | Hreset]; [reflexivity |].
      rewrite Hreset. destruct (positive _); reflexivity.
  - intros l Hl Hout Hclock.
    destruct (checkAndWait_available p a r q l Hl Hout) as (q1 & -> & _ & _).
    cbn [fst].
    pose proof (limits_positive p _ l Hl) as [_ Hwin].
    pose proof (windowStartOf_le l (t_check a) ltac:(lia)).
    destruct (0 <? _); lia.
Qed.

Lemma quota_wait_is_bounded_witness :
  let key := cacheKey "userTimeline" (Some "cz_binance") in
  let q := mkQuota ∅ (mkPool (Some {[ (key, 0) := 280 ]}) []) in
  let r := mkRequest 1 "userTimeline" (Some "cz_binance") 3 2500 in
  let a := mkAttempt 3000 3000 900000 (Succeeds None) in
  fst (checkAndWait pro a r q) = 897000
  /\ fst (checkAndWait pro a r q) <= 900000.
Proof.
  intros key q r a.
  split; [vm_compute; reflexivity |].
  destruct (quota_wait_is_bounded pro a r q) as (_ & _ & _ & _ & Hbound).
  apply (Hbound (mkLimit 280 900000)); [reflexivity | reflexivity | cbn; lia].
Defined.

(** ** Housekeeping of the stored counters *)

Section Cleanup.

Lemma delete_older_stored_count cutoff d r d' k w :
  delete_older cutoff d = (r, d') ->
  stored_count k w d' =
    match r with
    | Returned _ => if decide (cutoff <= w) then stored_count k w d else 0
    | Threw _ => stored_count k w d
    end.
Proof.
  unfold delete_older, next_outage, stored_count.
  destruct d as [tbl outs]. cbn.
  destruct outs as [| [] outs]; cbn; destruct tbl as [t |]; cbn;
    intros; simplify_eq; cbn; try reflexivity.
  all: rewrite map_lookup_filter; destruct (t !! (k, w)) as [c |]; cbn;
    case_decide; try reflexivity.
  all: try (rewrite option_guard_True by (cbn; assumption); reflexivity).
  all: rewrite option_guard_False by (cbn; assumption); reflexivity.
Qed.

Lemma delete_older_outages cutoff d :
  outages d = [] -> outages (snd (delete_older cutoff d)) = [].
Proof.
  unfold delete_older, next_outage. destruct d as [tbl outs]. cbn.
  intros ->. destruct tbl; reflexivity.
Qed.

End Cleanup.

(** X5.  [cleanupOldRecords] touches neither the cache nor any window that
    started within the last 24 hours; a window it changes is older and is
    emptied; with the store reachable every older window is emptied.  No
    check made at or after the cleanup, with the store reachable, answers
    differently because of it. *)
Theorem cleanup_keeps_recent_windows now q :
  let q' := cleanupOldRecords now q in
  rateLimitCache q' = rateLimitCache q
  /\ (forall k w, now - twentyFourHoursMs <= w ->
                  stored_count k w (db q') = stored_count k w (db q))
  /\ (forall k w, stored_count k w (db q') <> stored_count k w (db q) ->
                  w < now - twentyFourHoursMs /\ stored_count k w (db q') = 0)
  /\ (outages (db q) = [] -> is_Some (rate_limits (db q)) ->
      forall k w, w < now - twentyFourHoursMs -> stored_count k w (db q') = 0)
  /\ (forall p e a t, now <= t -> outages (db q) = [] ->
        fst (canMakeRequest p e a t q') = fst (canMakeRequest p e a t q)).
Proof.
  intros q'. subst q'. unfold cleanupOldRecords.
  pose proof (delete_older_outages (now - twentyFourHoursMs) (db q)) as Houts.
  destruct (delete_older (now - twentyFourHoursMs) (db q)) as [r d'] eqn:Hdel.
  pose proof (fun k w => delete_older_stored_count _ _ _ _ k w Hdel) as Hcount.
  cbn [rateLimitCache db snd] in *.
  split; [reflexivity |].
  assert (Hrecent : forall k w, now - twentyFourHoursMs <= w ->
                      stored_count k w d' = stored_count k w (db q)).
  { intros k w Hw. rewrite Hcount. destruct r; [| reflexivity].
    rewrite decide_True by exact Hw. reflexivity. }
  split; [exact Hrecent |].
  split.
  { intros k w Hne. rewrite Hcount in Hne |- *. destruct r; [| congruence].
    case_decide; [congruence |]. split; [lia | reflexivity]. }
  split.
  { intros Hout [t Ht] k w Hw. rewrite Hcount.
    destruct r as [n | err].
    - rewrite decide_False by lia. reflexivity.
    - exfalso. revert Hdel. unfold delete_older, next_outage.
      rewrite Hout, Ht. discriminate. }
  intros p e a t Ht Hout.
  destruct (limits p e) as [l |] eqn:Hl.
  - destruct (canMakeRequest_available p e a t q l Hl Hout) as (d1 & -> & _).
    destruct (canMakeRequest_available p e a t (mkQuota (rateLimitCache q) d') l Hl
                (Houts Hout)) as (d2 & -> & _).
    cbn [fst db]. rewrite Hrecent; [reflexivity |].
    pose proof (limits_positive p e l Hl) as [_ Hwin].
    pose proof (windowStartOf_next l t ltac:(lia)).
    unfold twentyFourHoursMs. lia.
  - unfold canMakeRequest.
    destruct (limitOf_other p e Hl) as [-> | ->]; [| reflexivity].
    cbn [db].
    destruct (getCurrentUsage e NaN a d') as [[c1 | err1] d1];
      destruct (getCurrentUsage e NaN a (db q)) as [[c2 | err2] d2]; reflexivity.
Qed.

(** X6.  Provider headers whose [remaining] or [reset] is missing,
    unparsable or zero are ignored: the recording leaves the same state as
    one without headers. *)
Theorem zero_or_missing_headers_are_ignored p e a h now q :
  or_null (x_rate_limit_remaining h) = None
  \/ or_null (x_rate_limit_reset h) = None ->
  recordRequest p e a (Some h) now q = recordRequest p e a None now q.
Proof.
  intros Hmissing.
  assert (Hin : forall ws lim, recordIn e a (Some h) now ws lim q
                               = recordIn e a None now ws lim q).
  { intros ws lim. unfold recordIn.
    destruct (incrementUsage e ws a (db q)) as [[u | err] d']; [| reflexivity].
    f_equal. unfold updateFromTwitterHeaders.
    destruct Hmissing as [-> | Hreset]; [reflexivity |].
    rewrite Hreset. destruct (or_null (x_rate_limit_remaining h)); reflexivity. }
  unfold recordRequest.
  destruct (limitOf p e) as [l | |]; [apply Hin | apply Hin | reflexivity].
Qed.

Lemma zero_or_missing_headers_are_ignored_witness :
  let q0 := mkQuota ∅ (mkPool (Some ∅) []) in
  let q := snd (canMakeRequest pro "userTimeline" None 1000 q0) in
  let exhaustedReport := mkHeaders (Some 0) (Some 1700000900) (Some 300) 2005 in
  recordRequest pro "userTimeline" None (Some exhaustedReport) 2000 q
  = recordRequest pro "userTimeline" None None 2000 q.
Proof.
  intros q0 q exhaustedReport.
  apply (zero_or_missing_headers_are_ignored pro "userTimeline" None exhaustedReport).
  left. reflexivity.
Defined.

(** ** The cache never drifts from the store *)

Section CacheAgrees.

Variable p : plan.

Lemma stored_at_same k (ws : num) d d' :
  (forall w, stored_count k w d' = stored_count k w d) ->
  stored_at k ws d' = stored_at k ws d.
Proof. intros Hsame. destruct ws as [w |]; [apply Hsame | reflexivity]. Qed.

Lemma cacheAgrees_same_counts cache0 d d' :
  (forall k w, stored_count k w d' = stored_count k w d) ->
  cacheAgrees (mkQuota cache0 d) -> cacheAgrees (mkQuota cache0 d').
Proof.
  intros Hsame Hag k entry Hk. cbn [rateLimitCache db] in *.
  rewrite (stored_at_same k _ d d') by (intros w; apply Hsame).
  apply (Hag k entry Hk).
Qed.

Lemma canMakeRequest_agrees e a now q :
  cacheAgrees q -> cacheAgrees (snd (canMakeRequest p e a now q)).
Proof.
  intros Hag. unfold canMakeRequest.
  assert (Hq : cacheAgrees (mkQuota (rateLimitCache q) (db q)))
    by (destruct q; exact Hag).
  destruct (limitOf p e) as [l | |]; [| | exact Hag].
  - destruct (getCurrentUsage e (windowStartOf l now) a (db q)) as [[c | err] d'] eqn:Hg;
      cbn [snd].
    + pose proof (fun k w => getCurrentUsage_stored_count _ _ _ _ _ _ k w Hg) as Hsame.
      apply (cacheAgrees_same_counts _ _ _ Hsame) in Hq.
      intros k entry Hk. cbn [rateLimitCache db] in *.
      destruct (decide (cacheKey e a = k)) as [<- | Hne].
      * rewrite lookup_insert_eq in Hk. injection Hk as <-. cbn.
        rewrite Hsame. apply (getCurrentUsage_returns _ _ _ _ _ _ Hg).
      * rewrite lookup_insert_ne in Hk by exact Hne. apply (Hq k entry Hk).
    + apply (cacheAgrees_same_counts _ (db q)); [| exact Hq].
      intros k w. eapply getCurrentUsage_stored_count; exact Hg.
  - destruct (getCurrentUsage e NaN a (db q)) as [[c | err] d'] eqn:Hg; cbn [snd].
    + pose proof (fun k w => getCurrentUsage_stored_count _ _ _ _ _ _ k w Hg) as Hsame.
      apply (cacheAgrees_same_counts _ _ _ Hsame) in Hq.
      intros k entry Hk. cbn [rateLimitCache db] in *.
      destruct (decide (cacheKey e a = k)) as [<- | Hne].
      * rewrite lookup_insert_eq in Hk. injection Hk as <-. cbn.
        apply (getCurrentUsage_returns_NaN _ _ _ _ _ Hg).
      * rewrite lookup_insert_ne in Hk by exact Hne. apply (Hq k entry Hk).
    + apply (cacheAgrees_same_counts _ (db q)); [| exact Hq].
      intros k w. eapply getCurrentUsage_stored_count; exact Hg.
Qed.

Lemma updateFromTwitterHeaders_keeps_count e h a now cache k entry' :
  updateFromTwitterHeaders e h a now cache !! k = Some entry' ->
  exists entry, cache !! k = Some entry
                /\ cached_count entry' = cached_count entry
                /\ cached_windowStart entry' = cached_windowStart entry.
Proof.
  unfold updateFromTwitterHeaders.
  destruct (or_null (x_rate_limit_remaining h)) as [r |]; [| eauto].
  destruct (or_null (x_rate_limit_reset h)) as [t |]; [| eauto].
  destruct (cache !! cacheKey e a) as [cached |] eqn:Hc; [| eauto].
  destruct (decide (cacheKey e a = k)) as [<- | Hne].
  - rewrite lookup_insert_eq. intros [= <-]. eauto.
  - rewrite lookup_insert_ne by exact Hne. eauto.
Qed.

Lemma same_Num (n : num) (w : Z) : same n w = true -> n = Num w.
Proof.
  destruct n as [z |]; cbn; [| discriminate].
  intros H%Z.eqb_eq. congruence.
Qed.

Lemma recordIn_agrees e a h now (ws lim : num) q :
  cacheAgrees q -> cacheAgrees (recordIn e a h now ws lim q).
Proof.
  intros Hag. unfold recordIn, incrementUsage.
  assert (Hq : cacheAgrees (mkQuota (rateLimitCache q) (db q)))
    by (destruct q; exact Hag).
  set (key := cacheKey e a).
  destruct (upsert_usage key ws (db q)) as [[u | err] d'] eqn:Hu.
  - intros k entry' Hk. cbn [rateLimitCache db] in *.
    set (cache1 := match rateLimitCache q !! key with
                   | Some cached => _
                   | None => _
                   end) in Hk.
    assert (Hfrom : exists entry,
               cache1 !! k = Some entry
               /\ cached_count entry' = cached_count entry
               /\ cached_windowStart entry' = cached_windowStart entry).
    { destruct h as [hd |]; [| eauto].
      eapply updateFromTwitterHeaders_keeps_count. exact Hk. }
    destruct Hfrom as (entry & Hentry & -> & ->). clear Hk entry'.
    subst cache1.
    destruct ws as [w |].
    + assert (Hcount : forall w0, stored_count k w0 d' =
                if decide ((k, w0) = (key, w)) then stored_count k w0 (db q) + 1
                else stored_count k w0 (db q))
        by (intros w0; apply (upsert_usage_stored_count _ _ _ _ _ k w0 Hu)).
      destruct (rateLimitCache q !! key) as [cached |] eqn:Hcached.
      * destruct (same (cached_windowStart cached) w) eqn:Hws.
        -- apply same_Num in Hws.
           destruct (decide (key = k)) as [<- | Hne].
           ++ rewrite lookup_insert_eq in Hentry. injection Hentry as <-. cbn.
              rewrite Hws. cbn. rewrite Hcount, decide_True by reflexivity.
              pose proof (Hag key cached Hcached) as Hc. rewrite Hws in Hc.
              cbn in Hc. rewrite Hc. reflexivity.
           ++ rewrite lookup_insert_ne in Hentry by exact Hne.
              pose proof (Hag k entry Hentry) as Hc.
              destruct (cached_windowStart entry) as [w0 |]; cbn in *; [| exact Hc].
              rewrite Hcount, decide_False by congruence. exact Hc.
        -- pose proof (Hag k entry Hentry) as Hc.
           destruct (cached_windowStart entry) as [w0 |] eqn:Hw0; cbn in *; [| exact Hc].
           rewrite Hcount, decide_False; [exact Hc |].
           intros [= -> ->]. rewrite Hcached in Hentry. injection Hentry as ->.
           rewrite Hw0 in Hws. cbn in Hws. rewrite Z.eqb_refl in Hws. discriminate.
      * pose proof (Hag k entry Hentry) as Hc.
        destruct (cached_windowStart entry) as [w0 |]; cbn in *; [| exact Hc].
        rewrite Hcount, decide_False; [exact Hc |].
        intros [= -> _]. congruence.
    + assert (Hcache : match rateLimitCache q !! key with
                       | Some cached =>
                           if same (cached_windowStart cached) NaN
                           then <[key := mkEntry (cached_endpoint cached)
                                           (cached_windowStart cached)
                                           (cached_count cached + 1) (cached_limit cached)
                                           match lim with
                                           | Num requests =>
                                               Num (Z.max 0 (requests - (cached_count cached + 1)))
                                           | NaN => NaN
                                           end
                                           (cached_resetTime cached) now]> (rateLimitCache q)
                           else rateLimitCache q
                       | None => rateLimitCache q
                       end = rateLimitCache q).
      { destruct (rateLimitCache q !! key) as [cached |]; [| reflexivity].
        destruct (cached_windowStart cached); reflexivity. }
      rewrite Hcache in Hentry.
      rewrite (stored_at_same k _ (db q) d')
        by (intros w0; apply (proj1 (upsert_usage_NaN _ _ _ _ k w0 Hu))).
      apply (Hag k entry Hentry).
  - apply (cacheAgrees_same_counts _ (db q)); [| exact Hq].
    intros k w.
    destruct ws as [w0 |].
    + rewrite (upsert_usage_stored_count _ _ _ _ _ k w Hu). case_decide; reflexivity.
    + apply (proj1 (upsert_usage_NaN _ _ _ _ k w Hu)).
Qed.

Lemma recordRequest_agrees e a h now q :
  cacheAgrees q -> cacheAgrees (recordRequest p e a h now q).
Proof.
  intros Hag. unfold recordRequest.
  destruct (limitOf p e) as [l | |]; [| | exact Hag]; apply recordIn_agrees; exact Hag.
Qed.

Lemma apply_call_agrees c q : cacheAgrees q -> cacheAgrees (apply_call p q c).
Proof.
  intros Hag. destruct c as [e a now | e a h now | e a t1 h t2]; cbn.
  - apply canMakeRequest_agrees. exact Hag.
  - apply recordRequest_agrees. exact Hag.
  - pose proof (canMakeRequest_agrees e a t1 q Hag) as H1.
    destruct (canMakeRequest p e a t1 q) as [[] q1]; cbn in H1; [| exact H1].
    apply recordRequest_agrees. exact H1.
Qed.

Lemma step_agrees s i :
  cacheAgrees (quotaState s) -> cacheAgrees (quotaState (step p s i)).
Proof.
  intros Hag. destruct i as [r | a |]; unfold step.
  - assert (Hq : quotaState (queueRequest r s) = quotaState s)
      by apply quotaState_queueRequest.
    destruct (pc s); rewrite Hq; exact Hag.
  - destruct (pc s) as [| r |]; try exact Hag.
    rewrite quotaState_runRequest, checkAndWait_is_check.
    pose proof (canMakeRequest_agrees (req_endpoint r) (req_accountId r) (t_check a)
                  (quotaState s) Hag) as H1.
    destruct (result_of_call a); [apply recordRequest_agrees |]; exact H1.
  - destruct (pc s); try exact Hag.
    rewrite quotaState_loopHead. exact Hag.
Qed.

End CacheAgrees.

(** X7.  The in-memory status never drifts from the durable counters:
    whatever is checked and recorded, with whatever provider headers and
    through whatever outages of the store, the count of every cache entry
    equals the stored count of its key and window; and so it is through
    every run of the drain loop. *)
Theorem cache_count_is_stored_count p q0 :
  cacheAgrees q0 ->
  (forall history k entry,
      rateLimitCache (apply_calls p q0 history) !! k = Some entry ->
      cached_count entry
      = stored_at k (cached_windowStart entry) (db (apply_calls p q0 history)))
  /\ (forall inputs k entry,
      rateLimitCache (quotaState (run p (freshManager q0) inputs)) !! k = Some entry ->
      cached_count entry
      = stored_at k (cached_windowStart entry)
                  (db (quotaState (run p (freshManager q0) inputs)))).
Proof.
  intros Hag. split.
  - intros history. revert q0 Hag.
    induction history as [| c history IH]; intros q0 Hag; [exact Hag |].
    apply (IH (apply_call p q0 c)). apply apply_call_agrees. exact Hag.
  - intros inputs.
    assert (Hrun : forall s, cacheAgrees (quotaState s) ->
                             cacheAgrees (quotaState (run p s inputs))).
    { induction inputs as [| i inputs IH]; intros s Hs; [exact Hs |].
      apply (IH (step p s i)). apply step_agrees. exact Hs. }
    apply (Hrun (freshManager q0)). exact Hag.
Qed.

Lemma cache_count_is_stored_count_witness :
  let q0 := mkQuota ∅ (mkPool None [false; false; true]) in
  let history := [CallCheck "userLookup" (Some "cz_binance") 1000;
                  CallRecord "userLookup" (Some "cz_binance") None 1001;
                  CallRecord "userLookup" (Some "cz_binance")
                             (Some (mkHeaders (Some 7) (Some 1700000900) None 1003)) 1002] in
  let key := cacheKey "userLookup" (Some "cz_binance") in
  let entry := mkEntry "userLookup" 0 1 900 7 1700000900000 1003 in
  rateLimitCache (apply_calls pro q0 history) !! key = Some entry
  /\ cached_count entry
     = stored_at key (cached_windowStart entry) (db (apply_calls pro q0 history)).
Proof.
  intros q0 history key entry.
  assert (Hentry : rateLimitCache (apply_calls pro q0 history) !! key = Some entry)
    by (vm_compute; reflexivity).
  split; [exact Hentry |].
  destruct (cache_count_is_stored_count pro q0) as [Hcalls _].
  - intros k e Hk. cbn in Hk. rewrite lookup_empty in Hk. discriminate.
  - apply (Hcalls history key entry). exact Hentry.
Defined.

(** X8.  Two quota counters are shared only by the same endpoint and the
    same account: for metered endpoints the key determines the endpoint
    and the account, where a missing and an empty account are the same. *)
Theorem quota_keys_are_separate p e a l e' a' l' :
  limits p e = Some l ->
  limits p e' = Some l' ->
  cacheKey e a = cacheKey e' a' ->
  e = e' /\ truthyAccount a = truthyAccount a'.
Proof.
  intros Hl Hl' Hkey.
  assert (e = e') as <- by (eapply cacheKey_endpoint; eassumption).
  split; [reflexivity |].
  apply limits_known in Hl. clear Hl'.
  unfold cacheKey, truthyAccount in *.
  destruct a as [a |]; [destruct (String.eqb a "") |];
    (destruct a' as [a' |]; [destruct (String.eqb a' "") |]);
    try reflexivity;
    destruct Hl as [-> | [-> | [-> | ->]]];
    cbn in Hkey; simplify_eq; reflexivity.
Qed.

Lemma quota_keys_are_separate_witness :
  cacheKey "userTimeline" (Some "") = cacheKey "userTimeline" None
  /\ "userTimeline" = "userTimeline"
  /\ truthyAccount (Some "") = truthyAccount None.
Proof.
  split; [reflexivity |].
  apply (quota_keys_are_separate pro "userTimeline" (Some "") (mkLimit 280 900000)
           "userTimeline" None (mkLimit 280 900000)); reflexivity.
Defined.

(** ** The freshness cache: writing, sweeping, statistics *)

Import TweetCacheMore.

Section CacheWrites.

Lemma isRecent_dated now t : isRecent now t = true -> is_Some (created_at t).
Proof. unfold isRecent. destruct (created_at t); [eauto | discriminate]. Qed.

Lemma insertNewest_perm x l : insertNewest x l ≡ₚ x :: l.
Proof.
  induction l as [| y l IH]; cbn; [reflexivity |].
  destruct (notNewer y x); [reflexivity |].
  rewrite IH. apply Permutation_swap.
Qed.

Lemma sortNewest_perm l : sortNewest l ≡ₚ l.
Proof.
  induction l as [| x l IH]; cbn; [reflexivity |].
  rewrite insertNewest_perm, IH. reflexivity.
Qed.

Lemma insertNewest_sorted x l :
  is_Some (created_at x) ->
  Forall (fun t => is_Some (created_at t)) l ->
  newestFirst l ->
  newestFirst (insertNewest x l).
Proof.
  intros [cx Hx] Hdated. unfold newestFirst.
  induction 1 as [| y l Hsorted IH Hall]; cbn.
  - repeat constructor.
  - inversion Hdated as [| ? ? [cy Hy] Hdated']; subst.
    unfold notNewer. rewrite Hx, Hy.
    destruct (Z.leb_spec cy cx) as [Hle | Hlt].
    + constructor; [constructor; assumption |].
      constructor.
      * unfold newer_or_equal. rewrite Hx, Hy. exact Hle.
      * eapply Forall_impl; [exact Hall |].
        intros z Hz. unfold newer_or_equal in *. rewrite Hx. rewrite Hy in Hz.
        destruct (created_at z); [lia | contradiction].
    + constructor; [apply IH; exact Hdated' |].
      rewrite insertNewest_perm. constructor; [| exact Hall].
      unfold newer_or_equal. rewrite Hx, Hy. lia.
Qed.

Lemma sortNewest_sorted l :
  Forall (fun t => is_Some (created_at t)) l -> newestFirst (sortNewest l).
Proof.
  induction 1 as [| x l Hx Hl IH]; cbn; [constructor |].
  apply insertNewest_sorted; [exact Hx | | exact IH].
  rewrite sortNewest_perm. exact Hl.
Qed.

Lemma newestFirst_split l1 l2 :
  newestFirst (l1 ++ l2) ->
  forall t u, t ∈ l1 -> u ∈ l2 -> newer_or_equal t u.
Proof.
  unfold newestFirst. induction l1 as [| x l1 IH]; cbn; intros Hsorted t u Ht Hu.
  - apply elem_of_nil in Ht. contradiction.
  - inversion Hsorted as [| ? ? Hrest Hall]; subst.
    apply elem_of_cons in Ht as [-> | Ht].
    + rewrite Forall_forall in Hall. apply Hall.
      apply elem_of_app. right. exact Hu.
    + apply IH; assumption.
Qed.

Lemma recent_filter_dated now l :
  Forall (fun t => is_Some (created_at t)) (filter (fun t => isRecent now t = true) l).
Proof.
  apply Forall_forall. intros t [Ht _]%list_elem_of_filter.
  eapply isRecent_dated; exact Ht.
Qed.


End CacheWrites.

(** X9.  Writing a fetched list and reading it back.  An empty list is not
    cached.  Otherwise the entry that [cacheTweets] writes holds exactly
    the tweets of the list from the last 24 hours (counted from the first
    reading of the clock, [now]), newest first, cut to the 50 newest
    places; it is served by every read made less than five minutes after
    the write (the second reading, [fetchedAt]) and by none made later;
    other accounts are untouched. *)
Theorem cached_tweets_are_served_until_stale username tweets now fetchedAt tc :
  let tc' := cacheTweets username tweets now fetchedAt tc in
  (tweets = [] -> tc' = tc)
  /\ (tweets <> [] ->
      exists entry,
        cache tc' !! username = Some entry
        /\ (forall later, later < fetchedAt + CACHE_DURATION ->
              getCachedTweets username later tc' = Some entry)
        /\ (forall later, fetchedAt + CACHE_DURATION <= later ->
              getCachedTweets username later tc' = None)
        /\ newestFirst entry
        /\ (length entry <= 50)%nat
        /\ (forall t, t ∈ entry -> t ∈ tweets /\ isRecent now t = true)
        /\ (exists dropped,
              entry ++ dropped ≡ₚ filter (fun t => isRecent now t = true) tweets
              /\ (length dropped
                  = length (filter (fun t => isRecent now t = true) tweets) - 50)%nat
              /\ forall t u, t ∈ entry -> u ∈ dropped -> newer_or_equal t u)
        /\ forall other, other <> username ->
             cache tc' !! other = cache tc !! other
             /\ lastFetch tc' !! other = lastFetch tc !! other).
Proof.
  cbn zeta. split; [intros ->; reflexivity |].
  intros Hne. destruct tweets as [| t0 rest]; [contradiction |].
  unfold cacheTweets.
  set (recent := filter (fun t => isRecent now t = true) (t0 :: rest)).
  exists (take MAX_TWEETS_PER_ACCOUNT (sortNewest recent)).
  cbn [cache lastFetch].
  split; [apply lookup_insert_eq |].
  split.
  { intros later Hlater. unfold getCachedTweets. cbn [cache lastFetch].
    rewrite !lookup_insert_eq. cbn.
    destruct (Z.ltb_spec (later - fetchedAt) CACHE_DURATION); [reflexivity | lia]. }
  split.
  { intros later Hlater. unfold getCachedTweets. cbn [cache lastFetch].
    rewrite !lookup_insert_eq. cbn.
    destruct (Z.ltb_spec (later - fetchedAt) CACHE_DURATION); [lia | reflexivity]. }
  split.
  { apply newestFirst_take, sortNewest_sorted, recent_filter_dated. }
  split.
  { rewrite length_take. unfold MAX_TWEETS_PER_ACCOUNT. lia. }
  split.
  { intros t Ht.
    assert (t ∈ recent) as Hin.
    { rewrite <- (sortNewest_perm recent).
      eapply elem_of_sublist; [exact Ht | apply sublist_take]. }
    apply list_elem_of_filter in Hin. tauto. }
  split.
  { exists (drop MAX_TWEETS_PER_ACCOUNT (sortNewest recent)).
    rewrite take_drop. split; [apply sortNewest_perm |]. split.
    - rewrite length_drop, (Permutation_length (sortNewest_perm recent)).
      reflexivity.
    - apply newestFirst_split. rewrite take_drop.
      apply sortNewest_sorted, recent_filter_dated. }
  intros other Hother. rewrite !lookup_insert_ne by congruence. split; reflexivity.
Qed.

Lemma cached_tweets_are_served_until_stale_witness :
  let now := 1700000000000 in
  let fresh := mkTweet "1724000000000000001" (Some (now - 60000)) in
  let stale := mkTweet "1690000000000000000" (Some (now - 90000000)) in
  let newest := mkTweet "1724000000000000002" (Some (now - 1000)) in
  let tc' := cacheTweets "cz_binance" [fresh; stale; newest] now (now + 1) emptyCache in
  cache tc' !! "cz_binance" = Some [newest; fresh]
  /\ getCachedTweets "cz_binance" (now + 300000) tc' = Some [newest; fresh]
  /\ getCachedTweets "cz_binance" (now + 300001) tc' = None.
Proof.
  intros now fresh stale newest tc'.
  destruct (cached_tweets_are_served_until_stale "cz_binance" [fresh; stale; newest]
              now (now + 1) emptyCache) as [_ Hwrite].
  destruct Hwrite as (entry & Hentry & Hserved & Hstale & _); [discriminate |].
  fold tc' in Hentry, Hserved, Hstale.
  assert (Hcached : cache tc' !! "cz_binance" = Some [newest; fresh])
    by (vm_compute; reflexivity).
  assert (entry = [newest; fresh]) as -> by congruence.
  split; [exact Hcached |].
  split; [apply Hserved | apply Hstale]; unfold CACHE_DURATION; lia.
Defined.

Section CacheSweep.

Lemma cleanup_cache now tc username :
  cache (cleanup now tc) !! username
  = if decide (swept now tc username) then None else cache tc !! username.
Proof.
  unfold cleanup. cbn [cache].
  destruct (cache tc !! username) as [entry |] eqn:Hentry.
  - case_decide as Hswept.
    + apply map_lookup_filter_None. right. intros entry' Heq. cbn. tauto.
    + apply map_lookup_filter_Some. split; [exact Hentry | exact Hswept].
  - assert (filter (fun e : string * list tweet => ~ swept now tc e.1) (cache tc)
              !! username = None) as ->.
    { apply map_lookup_filter_None. left. exact Hentry. }
    case_decide; reflexivity.
Qed.

Lemma cleanup_lastFetch now tc username :
  lastFetch (cleanup now tc) !! username
  = if decide (swept now tc username) then None else lastFetch tc !! username.
Proof.
  unfold cleanup. cbn [lastFetch].
  case_decide as Hswept.
  - apply map_lookup_filter_None.
    destruct (lastFetch tc !! username) as [fetched |] eqn:Hfetched; [right | left; reflexivity].
    intros fetched' Heq. cbn. assert (fetched' = fetched) as -> by congruence.
    unfold swept in Hswept. rewrite Hfetched in Hswept. tauto.
  - destruct (lastFetch tc !! username) as [fetched |] eqn:Hfetched.
    + apply map_lookup_filter_Some. split; [exact Hfetched |]. cbn.
      unfold swept in Hswept. rewrite Hfetched in Hswept. exact Hswept.
    + apply map_lookup_filter_None. left. exact Hfetched.
Qed.

End CacheSweep.

(** X10.  The sweep never changes what a reader sees.  [cleanup] deletes
    an account from both maps exactly when its fetch time is more than
    ten minutes old, and leaves every other account as it was; a read at
    the time of the sweep or later returns the same with or without the
    sweep. *)
Theorem sweep_is_invisible_to_readers now tc :
  let tc' := cleanup now tc in
  (forall username later, now <= later ->
     getCachedTweets username later tc' = getCachedTweets username later tc)
  /\ (forall username fetched,
        lastFetch tc !! username = Some fetched ->
        CACHE_DURATION * 2 < now - fetched ->
        cache tc' !! username = None /\ lastFetch tc' !! username = None)
  /\ (forall username,
        (forall fetched, lastFetch tc !! username = Some fetched ->
                         now - fetched <= CACHE_DURATION * 2) ->
        cache tc' !! username = cache tc !! username
        /\ lastFetch tc' !! username = lastFetch tc !! username).
Proof.
  cbn zeta. split; [| split].
  - intros username later Hlater. unfold getCachedTweets.
    rewrite cleanup_cache, cleanup_lastFetch.
    case_decide as Hswept; [| reflexivity].
    unfold swept in Hswept.
    destruct (lastFetch tc !! username) as [fetched |]; [| contradiction].
    unfold overdue in Hswept. cbn.
    destruct (Z.ltb_spec (later - 0) CACHE_DURATION);
      destruct (Z.ltb_spec (later - fetched) CACHE_DURATION);
      try reflexivity; unfold CACHE_DURATION in *; lia.
  - intros username fetched Hfetched Hold.
    rewrite cleanup_cache, cleanup_lastFetch.
    destruct (decide (swept now tc username)) as [| Hkeep]; [split; reflexivity |].
    exfalso. apply Hkeep. unfold swept. rewrite Hfetched. exact Hold.
  - intros username Hfresh.
    rewrite cleanup_cache, cleanup_lastFetch.
    destruct (decide (swept now tc username)) as [Hswept |]; [| split; reflexivity].
    exfalso. unfold swept in Hswept.
    destruct (lastFetch tc !! username) as [fetched |]; [| contradiction].
    specialize (Hfresh fetched eq_refl). unfold overdue in Hswept. lia.
Qed.

Section CacheInvariant.

Variable skew : Z.

Lemma wellKept_empty : wellKept skew emptyCache.
Proof. intros username entry Hentry. cbn in Hentry. rewrite lookup_empty in Hentry. discriminate. Qed.

Lemma isRecent_earlier t_cut fetched t :
  fetched <= t_cut + skew -> isRecent t_cut t = true -> isRecent (fetched - skew) t = true.
Proof.
  unfold isRecent. intros Hskew. destruct (created_at t) as [c |]; [| discriminate].
  intros H%Z.ltb_lt. apply Z.ltb_lt. lia.
Qed.

Lemma wellKept_write username kept t_cut t_set tc :
  t_set <= t_cut + skew ->
  (forall t, t ∈ kept -> isRecent t_cut t = true) ->
  wellKept skew tc ->
  wellKept skew (mkTweetCache
                   (<[username := take MAX_TWEETS_PER_ACCOUNT kept]> (cache tc))
                   (<[username := t_set]> (lastFetch tc))).
Proof.
  intros Hskew Hrecent Hkept other entry. cbn [cache lastFetch].
  destruct (decide (other = username)) as [-> | Hother].
  - rewrite !lookup_insert_eq. intros [= <-]. split.
    + rewrite length_take. lia.
    + exists t_set. split; [reflexivity |].
      apply Forall_forall. intros t Ht.
      apply (isRecent_earlier t_cut); [exact Hskew |].
      apply Hrecent. eapply elem_of_sublist; [exact Ht | apply sublist_take].
  - rewrite !lookup_insert_ne by congruence. apply Hkept.
Qed.

Lemma wellKept_cacheTweets username tweets t_cut t_set tc :
  t_set <= t_cut + skew ->
  wellKept skew tc -> wellKept skew (cacheTweets username tweets t_cut t_set tc).
Proof.
  intros Hskew Hkept. destruct tweets as [| t0 rest]; [exact Hkept |].
  unfold cacheTweets. apply (wellKept_write _ _ t_cut); [exact Hskew | | exact Hkept].
  intros t Ht. rewrite sortNewest_perm in Ht.
  apply list_elem_of_filter in Ht. tauto.
Qed.

Lemma wellKept_addNewTweet username t t_cut t_set tc :
  t_set <= t_cut + skew ->
  wellKept skew tc -> wellKept skew (addNewTweet username t t_cut t_set tc).
Proof.
  intros Hskew Hkept. unfold addNewTweet.
  destruct (hasTweet _ _); [exact Hkept |].
  apply (wellKept_write _ _ t_cut); [exact Hskew | | exact Hkept].
  intros x Hx. apply list_elem_of_filter in Hx. tauto.
Qed.

Lemma wellKept_cleanup now tc : wellKept skew tc -> wellKept skew (cleanup now tc).
Proof.
  intros Hkept username entry.
  rewrite cleanup_cache, cleanup_lastFetch.
  case_decide; [discriminate |]. apply Hkept.
Qed.

Lemma wellKept_applyOp tc op :
  readingsWithin skew op -> wellKept skew tc -> wellKept skew (applyOp tc op).
Proof.
  destruct op; cbn.
  - apply wellKept_cacheTweets.
  - apply wellKept_addNewTweet.
  - intros _. apply wellKept_cleanup.
Qed.

Lemma wellKept_foldl ops tc :
  Forall (readingsWithin skew) ops -> wellKept skew tc ->
  wellKept skew (foldl applyOp tc ops).
Proof.
  intros Hops. revert tc.
  induction Hops as [| op ops Hop Hops IH]; intros tc Hkept; cbn; [exact Hkept |].
  apply IH, wellKept_applyOp; assumption.
Qed.

End CacheInvariant.

Section CacheBounds.

Lemma readingsWithin_mono skew skew' op :
  skew <= skew' -> readingsWithin skew op -> readingsWithin skew' op.
Proof. destruct op; cbn; try tauto; lia. Qed.

Lemma readingsWithin_some ops : exists skew, Forall (readingsWithin skew) ops.
Proof.
  induction ops as [| op ops [skew Hops]]; [exists 0; constructor |].
  assert (exists skew0, readingsWithin skew0 op) as [skew0 Hop].
  { destruct op as [u l t_cut t_set | u t t_cut t_set | now];
      [exists (t_set - t_cut) | exists (t_set - t_cut) | exists 0]; cbn; try lia; exact I. }
  exists (Z.max skew skew0). constructor.
  - apply (readingsWithin_mono skew0); [lia | exact Hop].
  - eapply Forall_impl; [exact Hops |].
    intros op'. apply readingsWithin_mono. lia.
Qed.

Lemma totalTweets_bound (m : gmap string (list tweet)) :
  (forall username entry, m !! username = Some entry ->
                          (length entry <= MAX_TWEETS_PER_ACCOUNT)%nat) ->
  (map_fold (fun _ (tweets : list tweet) total => (total + length tweets)%nat) 0%nat m
   <= MAX_TWEETS_PER_ACCOUNT * size m)%nat.
Proof.
  apply (map_fold_weak_ind
           (fun total (m : gmap string (list tweet)) =>
              (forall username entry, m !! username = Some entry ->
                                      (length entry <= MAX_TWEETS_PER_ACCOUNT)%nat) ->
              (total <= MAX_TWEETS_PER_ACCOUNT * size m)%nat)).
  - intros _. rewrite map_size_empty. lia.
  - intros username entry m' total Hfresh IH Hcap.
    rewrite map_size_insert_None by exact Hfresh.
    assert (length entry <= MAX_TWEETS_PER_ACCOUNT)%nat
      by (apply (Hcap username); apply lookup_insert_eq).
    assert (total <= MAX_TWEETS_PER_ACCOUNT * size m')%nat.
    { apply IH. intros other entry' Hother. apply (Hcap other).
      rewrite lookup_insert_ne; [exact Hother |]. intros ->. congruence. }
    lia.
Qed.

End CacheBounds.

(** X11.  Whatever sequence of writes ([cacheTweets]), stream merges
    ([addNewTweet]) and sweeps ([cleanup]) an initially empty cache has
    seen, every entry holds at most 50 tweets, has a fetch time, and holds
    only tweets with a valid creation date; and the statistics never
    report more than 50 tweets per cached account.  A write reads the
    clock twice, first for the 24-hour cut and then for the fetch time:
    when in every write the second reading came at most [skew] after the
    first, every cached tweet was created less than 24 hours plus [skew]
    before the fetch time of its entry.  With [skew = 0] the bound is 24
    hours; one millisecond between the readings is enough for an entry to
    hold a tweet created exactly 24 hours before its fetch time. *)
Theorem cache_entries_stay_capped_and_recent ops now :
  let tc := foldl applyOp emptyCache ops in
  (forall username entry,
     cache tc !! username = Some entry ->
     (length entry <= 50)%nat
     /\ is_Some (lastFetch tc !! username)
     /\ forall t, t ∈ entry -> is_Some (created_at t))
  /\ (forall skew username entry fetched,
        Forall (readingsWithin skew) ops ->
        cache tc !! username = Some entry ->
        lastFetch tc !! username = Some fetched ->
        forall t, t ∈ entry ->
          exists created, created_at t = Some created
                          /\ fetched - skew - twentyFourHours < created)
  /\ (totalTweets (getStats now tc) <= 50 * totalAccounts (getStats now tc))%nat
  /\ (let old := mkTweet "1" (Some (1700000000000 - twentyFourHours + 1)) in
      let tc1 := applyOp emptyCache (Put "cz_binance" [old] 1700000000000 1700000000001) in
      cache tc1 !! "cz_binance" = Some [old]
      /\ lastFetch tc1 !! "cz_binance" = Some 1700000000001
      /\ created_at old = Some (1700000000001 - twentyFourHours)).
Proof.
  cbn zeta.
  destruct (readingsWithin_some ops) as [skew0 Hskew0].
  pose proof (wellKept_foldl skew0 ops emptyCache Hskew0 (wellKept_empty skew0)) as Hkept0.
  split; [| split; [| split]].
  - intros username entry Hentry.
    destruct (Hkept0 username entry Hentry) as [Hlen [fetched [Hfetched Hall]]].
    split; [exact Hlen |]. split; [eauto |].
    intros t Ht. rewrite Forall_forall in Hall.
    eapply isRecent_dated. apply (Hall t Ht).
  - intros skew username entry fetched Hops Hentry Hfetched t Ht.
    pose proof (wellKept_foldl skew ops emptyCache Hops (wellKept_empty skew)) as Hkept.
    destruct (Hkept username entry Hentry) as [_ [fetched' [Hfetched' Hall]]].
    assert (fetched' = fetched) as -> by congruence.
    rewrite Forall_forall in Hall. specialize (Hall t Ht).
    unfold isRecent in Hall. destruct (created_at t) as [created |]; [| discriminate].
    exists created. split; [reflexivity |]. apply Z.ltb_lt. exact Hall.
  - unfold getStats. cbn [totalTweets totalAccounts].
    apply totalTweets_bound. intros username entry Hentry.
    apply (Hkept0 username entry Hentry).
  - vm_compute. repeat split; reflexivity.
Qed.

Lemma cache_entries_stay_capped_and_recent_witness :
  let old := mkTweet "1" (Some (1700000000000 - twentyFourHours + 1)) in
  let ops := [Put "cz_binance" [old] 1700000000000 1700000000001] in
  Forall (readingsWithin 1) ops
  /\ exists created,
       created_at old = Some created
       /\ 1700000000001 - 1 - twentyFourHours < created.
Proof.
  intros old ops.
  assert (Hops : Forall (readingsWithin 1) ops) by (repeat constructor; cbn; lia).
  split; [exact Hops |].
  destruct (cache_entries_stay_capped_and_recent ops (fun _ => 0)) as (_ & Hrecent & _).
  apply (Hrecent 1 "cz_binance" [old] 1700000000001 Hops);
    [vm_compute; reflexivity | vm_compute; reflexivity | apply list_elem_of_here].
Defined.

(** ** Backfill sessions: cost and account list *)

Import BackfillBudget.

Section BackfillCost.

Variable withinBudget : Z -> bool.
Variable budget : Z.
Hypothesis budget_bounds : forall used, withinBudget used = true -> used < budget.

Lemma fetches_app t1 t2 : fetches (t1 ++ t2) = (fetches t1 + fetches t2)%nat.
Proof. unfold fetches. rewrite filter_app, length_app. reflexivity. Qed.

Lemma backfillLoop_cost passes : forall startAccount requestsUsed st trace,
  exists new,
    snd (backfillLoop withinBudget startAccount requestsUsed passes st trace)
    = trace ++ new
    /\ Z.of_nat (fetches new) <= Z.max 0 (budget - requestsUsed)
    /\ (length new <= length passes)%nat
    /\ forall pre post, new = pre ++ CycleReset :: post -> post = [].
Proof.
  induction passes as [| ps passes IH]; intros start used st trace; cbn [backfillLoop].
  { exists []. rewrite app_nil_r. cbn. repeat split; try lia.
    intros [| ? ?] post Heq; discriminate. }
  assert (Hstop : exists new : list backfillEvent,
             trace = trace ++ new
             /\ Z.of_nat (fetches new) <= Z.max 0 (budget - used)
             /\ (length new <= length (ps :: passes))%nat
             /\ forall pre post, new = pre ++ CycleReset :: post -> post = []).
  { exists []. rewrite app_nil_r. cbn. repeat split; try lia.
    intros [| ? ?] post Heq; discriminate. }
  destruct (withinBudget used) eqn:Hbudget; cbn [andb negb]; [| exact Hstop].
  apply budget_bounds in Hbudget.
  destruct (running ps); cbn [negb]; [| exact Hstop].
  destruct (accountProgress st !! currentAccount st) as [a0 |]; [| exact Hstop].
  assert (Hfetch : forall used' st1 i b,
             used + 1 <= used' ->
             exists new,
               snd (backfillLoop withinBudget start used' passes st1
                                 (trace ++ [BackfillFetch i b]))
               = trace ++ new
               /\ Z.of_nat (fetches new) <= Z.max 0 (budget - used)
               /\ (length new <= length (ps :: passes))%nat
               /\ forall pre post, new = pre ++ CycleReset :: post -> post = []).
  { intros used' st1 i b Hused.
    destruct (IH start used' st1 (trace ++ [BackfillFetch i b]))
      as (new & Heq & Hcount & Hlen & Hlast).
    exists (BackfillFetch i b :: new).
    split; [rewrite Heq, <- app_assoc; reflexivity |].
    split; [| split].
    - change (BackfillFetch i b :: new) with ([BackfillFetch i b] ++ new).
      rewrite fetches_app.
      replace (fetches [BackfillFetch i b]) with 1%nat by reflexivity. lia.
    - cbn. lia.
    - intros [| ev pre] post Hsplit; [discriminate |].
      injection Hsplit as _ Hsplit. eapply Hlast; exact Hsplit. }
  destruct (completed a0).
  - cbn [currentAccount totalTweetsBackfilled accountProgress].
    destruct (Nat.eqb (nextAccount st) start).
    + cbn [snd]. exists [CycleReset]. split; [reflexivity |].
      split; [replace (fetches [CycleReset]) with 0%nat by reflexivity; lia |].
      split; [cbn; lia |].
      intros [| ev pre] post Hsplit.
      * injection Hsplit as <-. reflexivity.
      * destruct pre; discriminate.
    + destruct (IH start used
                  (mkBackfillState (nextAccount st) (totalTweetsBackfilled st)
                                   (accountProgress st)) trace)
        as (new & Heq & Hcount & Hlen & Hlast).
      exists new. split; [exact Heq |]. split; [exact Hcount |].
      split; [cbn; lia | exact Hlast].
  - destruct (fetched ps) as [oldTweets newTweets | |].
    + destruct (last oldTweets) as [oldest |]; apply Hfetch; lia.
    + apply Hfetch; lia.
    + apply Hfetch; lia.
Qed.

End BackfillCost.

(** X12.  A backfill session stays within its request budget.  When the
    budget test only passes below [budget], one call of
    [runSmartBackfill] extends the trace by at most [budget] calls of
    [fetchLatestTweets]; and a cycle reset, when the session makes one, is
    the last thing it does. *)
Theorem backfill_session_within_budget withinBudget budget passes st trace :
  (forall used, withinBudget used = true -> used < budget) ->
  exists new,
    snd (runSmartBackfill withinBudget passes st trace) = trace ++ new
    /\ Z.of_nat (fetches new) <= Z.max 0 budget
    /\ forall pre post, new = pre ++ CycleReset :: post -> post = [].
Proof.
  intros Hbudget. unfold runSmartBackfill.
  destruct (backfillLoop_cost withinBudget budget Hbudget passes
              (currentAccount st) 0 st trace) as (new & Heq & Hcount & _ & Hlast).
  exists new. split; [exact Heq |].
  split; [| exact Hlast].
  replace (budget - 0) with budget in Hcount by lia. exact Hcount.
Qed.

Lemma backfill_session_within_budget_witness :
  let st0 := initializeBackfillSystem ["cz_binance"; "LabsNoor"] (fun _ => None) in
  let old := mkTweet "1690000000000000000" (Some 1600000000000) in
  let passes := repeat (mkBackfillPass true (Fetched [old] 1)) 10 in
  exists new,
    snd (runSmartBackfill (fun used => used <? 5) passes st0 []) = [] ++ new
    /\ Z.of_nat (fetches new) <= Z.max 0 5
    /\ forall pre post, new = pre ++ CycleReset :: post -> post = [].
Proof.
  cbn zeta.
  apply (backfill_session_within_budget (fun used => used <? 5) 5).
  intros used Hused. apply Z.ltb_lt. exact Hused.
Defined.

Section BackfillAccounts.

Variable withinBudget : Z -> bool.

Lemma nextAccount_valid st :
  (0 < length (accountProgress st))%nat ->
  (nextAccount st < length (accountProgress st))%nat.
Proof. intros Hpos. unfold nextAccount. apply Nat.mod_upper_bound. lia. Qed.

Lemma usernames_insert i a a' l :
  l !! i = Some a -> username a' = username a ->
  map username (<[i := a']> l) = map username l.
Proof.
  intros Hi Hname.
  change (map username ?l) with (username <$> l).
  rewrite list_fmap_insert, Hname.
  apply list_insert_id. rewrite list_lookup_fmap, Hi. reflexivity.
Qed.

Lemma usernames_setCompleted b l :
  map username (map (setCompleted b) l) = map username l.
Proof. rewrite map_map. apply map_ext. intros a. reflexivity. Qed.

Lemma backfillLoop_accounts names passes : forall startAccount requestsUsed st trace,
  usernames st = names /\ cursorValid st ->
  usernames (fst (backfillLoop withinBudget startAccount requestsUsed passes st trace))
  = names
  /\ cursorValid (fst (backfillLoop withinBudget startAccount requestsUsed passes st trace)).
Proof.
  unfold cursorValid, usernames.
  induction passes as [| ps passes IH]; intros start used st trace [Hnames Hvalid];
    cbn [backfillLoop]; [split; assumption |].
  destruct (negb (withinBudget used && running ps)); [split; assumption |].
  destruct (accountProgress st !! currentAccount st) as [a0 |] eqn:Hi;
    [| split; assumption].
  assert (Hnext : (nextAccount st < length (accountProgress st))%nat)
    by (apply nextAccount_valid; lia).
  assert (Hwrite : forall a', username a' = username a0 ->
            map username (<[currentAccount st := a']> (accountProgress st)) = names
            /\ (nextAccount st
                < length (<[currentAccount st := a']> (accountProgress st)))%nat).
  { intros a' Hname. split.
    - rewrite <- Hnames. eapply usernames_insert; [exact Hi | exact Hname].
    - rewrite length_insert. exact Hnext. }
  destruct (completed a0).
  - cbn [currentAccount totalTweetsBackfilled accountProgress].
    destruct (Nat.eqb (nextAccount st) start).
    + cbn [fst accountProgress currentAccount].
      split; [rewrite usernames_setCompleted; exact Hnames |].
      rewrite length_map. exact Hnext.
    + apply IH. cbn [currentAccount accountProgress]. split; assumption.
  - destruct (fetched ps) as [oldTweets newTweets | |].
    + destruct (last oldTweets) as [oldest |]; apply IH;
        cbn [currentAccount accountProgress]; apply Hwrite; reflexivity.
    + apply IH. cbn [currentAccount accountProgress]. split; assumption.
    + apply IH. cbn [currentAccount accountProgress]. split; assumption.
Qed.

Lemma backfillSessions_accounts names sessions : forall st trace,
  usernames st = names /\ cursorValid st ->
  usernames (fst (backfillSessions withinBudget sessions st trace)) = names
  /\ cursorValid (fst (backfillSessions withinBudget sessions st trace)).
Proof.
  induction sessions as [| passes sessions IH]; intros st trace Hinv; cbn;
    [exact Hinv |].
  pose proof (backfillLoop_accounts names passes (currentAccount st) 0 st trace Hinv)
    as H1.
  unfold runSmartBackfill.
  destruct (backfillLoop withinBudget (currentAccount st) 0 passes st trace)
    as [st1 trace1].
  apply IH. exact H1.
Qed.

End BackfillAccounts.

(** X13.  Backfill never loses, renames or reorders an account, and its
    cursor always points at one.  Whatever the sessions meet, from the
    state that [initializeBackfillSystem] sets up for a non-empty account
    list, the usernames in [accountProgress] are the initial list and
    [currentAccount] is a valid index into it. *)
Theorem backfill_keeps_the_account_list withinBudget accounts oldest sessions :
  accounts <> [] ->
  let final := fst (backfillSessions withinBudget sessions
                      (initializeBackfillSystem accounts oldest) []) in
  usernames final = accounts
  /\ (currentAccount final < length accounts)%nat
  /\ exists info, accountProgress final !! currentAccount final = Some info.
Proof.
  intros Hne final.
  destruct (backfillSessions_accounts withinBudget accounts sessions
              (initializeBackfillSystem accounts oldest) []) as [Hnames Hcur].
  { unfold usernames, cursorValid, initializeBackfillSystem. cbn.
    split.
    - rewrite map_map. cbn. apply map_id.
    - rewrite length_map. destruct accounts; [contradiction | cbn; lia]. }
  fold final in Hnames, Hcur. unfold cursorValid in Hcur.
  split; [exact Hnames |].
  split.
  - rewrite <- Hnames. unfold usernames. rewrite length_map. exact Hcur.
  - apply lookup_lt_is_Some_2 in Hcur. exact Hcur.
Qed.

Lemma backfill_keeps_the_account_list_witness :
  let old := mkTweet "1690000000000000000" (Some 1600000000000) in
  let pass f := mkBackfillPass true f in
  let sessions := [[pass (Fetched [] 0); pass (Fetched [old] 1); pass FetchThrew];
                   [pass (Fetched [] 0); pass SaveThrew]] in
  let final := fst (backfillSessions (fun used => used <? 10) sessions
                      (initializeBackfillSystem ["cz_binance"; "LabsNoor"]
                                                (fun _ => None)) []) in
  usernames final = ["cz_binance"; "LabsNoor"]
  /\ (currentAccount final < length ["cz_binance"; "LabsNoor"])%nat
  /\ exists info, accountProgress final !! currentAccount final = Some info.
Proof.
  cbn zeta.
  apply (backfill_keeps_the_account_list (fun used => used <? 10)
           ["cz_binance"; "LabsNoor"]).
  discriminate.
Defined.

(** ** On-demand sync: the cooldown between runs *)

Import SyncTimes.

Section SyncCooldown.

Variable t0 : Z.

Lemma syncAccount_first_run u e s :
  delivery_throws u e = false -> t0 <= t_synced e ->
  exists new,
    fetchesIssued (syncAccount u e s) = fetchesIssued s ++ new
    /\ forall v, v ∈ new \/ syncedSince t0 s v -> syncedSince t0 (syncAccount u e s) v.
Proof.
  intros Hok Hlate. unfold syncAccount.
  destruct (_ <? minSyncIntervalMs).
  - exists []. rewrite app_nil_r. split; [reflexivity |].
    intros v [Hv | Hv]; [apply elem_of_nil in Hv; contradiction | exact Hv].
  - rewrite Hok. cbn [fetchesIssued].
    exists [u]. split; [reflexivity |].
    intros v Hv. unfold syncedSince. cbn [accountSync].
    destruct (decide (v = u)) as [-> | Hne].
    + exists (t_synced e). rewrite lookup_insert_eq. split; [reflexivity | exact Hlate].
    + rewrite lookup_insert_ne by congruence.
      destruct Hv as [Hv | Hv]; [| exact Hv].
      apply list_elem_of_singleton in Hv. contradiction.
Qed.

Lemma sync_first_run us : forall es s,
  Forall (fun e => (forall u, delivery_throws u e = false) /\ t0 <= t_synced e) es ->
  exists new,
    fetchesIssued (syncLatestTweets us es s) = fetchesIssued s ++ new
    /\ forall v, v ∈ new \/ syncedSince t0 s v -> syncedSince t0 (syncLatestTweets us es s) v.
Proof.
  induction us as [| u us IH]; intros es s Hes; cbn [syncLatestTweets].
  { exists []. rewrite app_nil_r. split; [reflexivity |].
    intros v [Hv | Hv]; [apply elem_of_nil in Hv; contradiction | exact Hv]. }
  destruct es as [| e es].
  { exists []. rewrite app_nil_r. split; [reflexivity |].
    intros v [Hv | Hv]; [apply elem_of_nil in Hv; contradiction | exact Hv]. }
  inversion Hes as [| ? ? [Hok Hlate] Hes']; subst.
  destruct (syncAccount_first_run u e s (Hok u) Hlate) as (new1 & Heq1 & Hkeep1).
  destruct (IH es (syncAccount u e s) Hes') as (new2 & Heq2 & Hkeep2).
  exists (new1 ++ new2). split; [rewrite Heq2, Heq1, app_assoc; reflexivity |].
  intros v Hv. apply Hkeep2.
  destruct Hv as [Hv | Hv].
  - apply elem_of_app in Hv as [Hv | Hv]; [right; apply Hkeep1; left; exact Hv | left; exact Hv].
  - right. apply Hkeep1. right. exact Hv.
Qed.

Lemma syncAccount_second_run u e s :
  t_cooldown e < t0 + minSyncIntervalMs ->
  exists new,
    fetchesIssued (syncAccount u e s) = fetchesIssued s ++ new
    /\ forall v, syncedSince t0 s v -> (v ∉ new) /\ syncedSince t0 (syncAccount u e s) v.
Proof.
  intros Hearly. unfold syncAccount.
  destruct (Z.ltb_spec (t_cooldown e - default 0 (accountSync s !! u)) minSyncIntervalMs)
    as [Hcool | Hdue].
  - exists []. rewrite app_nil_r. split; [reflexivity |].
    intros v Hv. split; [apply not_elem_of_nil | exact Hv].
  - exists [u].
    assert (Hu : ~ syncedSince t0 s u).
    { intros (ts & Hts & Hle). rewrite Hts in Hdue. cbn in Hdue. lia. }
    split; [destruct (delivery_throws u e); reflexivity |].
    intros v Hv.
    assert (v <> u) as Hne by (intros ->; contradiction).
    split; [rewrite list_elem_of_singleton; exact Hne |].
    unfold syncedSince in *.
    destruct (delivery_throws u e); cbn [accountSync]; [exact Hv |].
    rewrite lookup_insert_ne by congruence. exact Hv.
Qed.

Lemma sync_second_run us : forall es s,
  Forall (fun e => t_cooldown e < t0 + minSyncIntervalMs) es ->
  exists new,
    fetchesIssued (syncLatestTweets us es s) = fetchesIssued s ++ new
    /\ forall v, syncedSince t0 s v -> (v ∉ new) /\ syncedSince t0 (syncLatestTweets us es s) v.
Proof.
  induction us as [| u us IH]; intros es s Hes; cbn [syncLatestTweets].
  { exists []. rewrite app_nil_r. split; [reflexivity |].
    intros v Hv. split; [apply not_elem_of_nil | exact Hv]. }
  destruct es as [| e es].
  { exists []. rewrite app_nil_r. split; [reflexivity |].
    intros v Hv. split; [apply not_elem_of_nil | exact Hv]. }
  inversion Hes as [| ? ? Hearly Hes']; subst.
  destruct (syncAccount_second_run u e s Hearly) as (new1 & Heq1 & Hkeep1).
  destruct (IH es (syncAccount u e s) Hes') as (new2 & Heq2 & Hkeep2).
  exists (new1 ++ new2). split; [rewrite Heq2, Heq1, app_assoc; reflexivity |].
  intros v Hv. destruct (Hkeep1 v Hv) as [Hout1 Hv1].
  destruct (Hkeep2 v Hv1) as [Hout2 Hv2].
  split; [| exact Hv2].
  rewrite elem_of_app. tauto.
Qed.

End SyncCooldown.

(** X14.  An account fetched by one sync is not fetched again by a sync
    made within the cooldown.  If the first run of [syncLatestTweets]
    meets no exception while handling what it fetched and writes its sync
    times at [t0] or later, then a second run whose cooldown tests all
    fall before [t0] + 45 s issues no fetch for any account the first run
    fetched. *)
Theorem no_refetch_within_cooldown t0 us1 es1 us2 es2 s :
  Forall (fun e => (forall u, delivery_throws u e = false) /\ t0 <= t_synced e) es1 ->
  Forall (fun e => t_cooldown e < t0 + minSyncIntervalMs) es2 ->
  let s1 := syncLatestTweets us1 es1 s in
  let s2 := syncLatestTweets us2 es2 s1 in
  exists new1 new2,
    fetchesIssued s1 = fetchesIssued s ++ new1
    /\ fetchesIssued s2 = fetchesIssued s1 ++ new2
    /\ forall u, u ∈ new1 -> u ∉ new2.
Proof.
  intros Hfirst Hsecond s1 s2.
  destruct (sync_first_run t0 us1 es1 s Hfirst) as (new1 & Heq1 & Hkeep1).
  destruct (sync_second_run t0 us2 es2 s1 Hsecond) as (new2 & Heq2 & Hkeep2).
  exists new1, new2. split; [exact Heq1 |]. split; [exact Heq2 |].
  intros u Hu. apply Hkeep2. apply Hkeep1. left. exact Hu.
Qed.

Lemma no_refetch_within_cooldown_witness :
  let t0 := 1700000000000 in
  let us := ["cz_binance"; "LabsNoor"] in
  let es1 := [mkSyncPass t0 (FetchOk []) true (t0 + 300);
              mkSyncPass (t0 + 420) FetchFailed true (t0 + 700)] in
  let es2 := [mkSyncPass (t0 + 30000) (FetchOk []) true (t0 + 30300);
              mkSyncPass (t0 + 30420) (FetchOk []) true (t0 + 30700)] in
  let s := mkSyncState ∅ [] in
  let s1 := syncLatestTweets us es1 s in
  let s2 := syncLatestTweets us es2 s1 in
  exists new1 new2,
    fetchesIssued s1 = fetchesIssued s ++ new1
    /\ fetchesIssued s2 = fetchesIssued s1 ++ new2
    /\ forall u, u ∈ new1 -> u ∉ new2.
Proof.
  cbn zeta.
  apply (no_refetch_within_cooldown 1700000000000).
  - repeat constructor; try (intros u; reflexivity); cbn; lia.
  - repeat constructor; cbn; unfold minSyncIntervalMs; lia.
Defined.

(** ** The Twitter service *)

Import TwitterService.

Section UserIds.

Lemma getUserId_hit username now l userCache cached :
  userCache !! username = Some cached ->
  now < expiresAt cached ->
  getUserId username now l userCache = (Some (user_id cached), userCache, []).
Proof.
  intros Hcached Hfresh. unfold getUserId. rewrite Hcached.
  destruct (Z.ltb_spec now (expiresAt cached)); [reflexivity | lia].
Qed.

Lemma getUserId_others username now l userCache other :
  other <> username ->
  (getUserId username now l userCache).1.2 !! other = userCache !! other.
Proof.
  intros Hother. unfold getUserId.
  destruct (userCache !! username) as [cached |];
    [destruct (now <? expiresAt cached) |];
    destruct l; cbn; try reflexivity;
    apply lookup_insert_ne; congruence.
Qed.

End UserIds.

(** X15.  A resolved user id is served from memory for twelve hours, and
    failures are never remembered.  After a [getUserId] that asked the
    API and found the user, every [getUserId] for that username made less
    than twelve hours after the answer returns the same id and queues no
    request; a lookup that finds no user or throws leaves the cache as it
    was; and no call touches another username's entry. *)
Theorem user_id_is_cached_for_twelve_hours username now userCache l :
  let '(answer, userCache1, calls) := getUserId username now l userCache in
  (forall userId t_done,
     l = UserFound userId t_done -> calls <> [] ->
     answer = Some userId
     /\ forall later l',
          later < t_done + USER_CACHE_TTL_MS ->
          getUserId username later l' userCache1 = (Some userId, userCache1, []))
  /\ (l = UserMissing \/ l = LookupThrew -> userCache1 = userCache)
  /\ (calls = [] ->
      userCache1 = userCache
      /\ exists cached, userCache !! username = Some cached
                        /\ now < expiresAt cached
                        /\ answer = Some (user_id cached))
  /\ (forall other, other <> username -> userCache1 !! other = userCache !! other).
Proof.
  pose proof (getUserId_others username now l userCache) as Hothers.
  destruct (getUserId username now l userCache) as [[answer userCache1] calls] eqn:Hcall.
  cbn [fst snd] in Hothers.
  split; [| split; [| split]]; [| | | exact Hothers].
  - intros userId t_done -> Hcalls. unfold getUserId in Hcall.
    assert ((answer, userCache1, calls)
            = (Some userId,
               <[username := mkCachedUser userId (t_done + USER_CACHE_TTL_MS)]> userCache,
               [UserLookup username 1])) as Hrequest.
    { destruct (userCache !! username) as [cached |];
        [destruct (now <? expiresAt cached) |]; try (rewrite <- Hcall; reflexivity).
      injection Hcall as _ _ <-. contradiction. }
    injection Hrequest as -> -> ->.
    split; [reflexivity |].
    intros later l' Hlater.
    apply (getUserId_hit username later l' _
             (mkCachedUser userId (t_done + USER_CACHE_TTL_MS)));
      [apply lookup_insert_eq | exact Hlater].
  - intros Hfail. unfold getUserId in Hcall.
    destruct (userCache !! username) as [cached |];
      [destruct (now <? expiresAt cached) |];
      destruct Hfail as [-> | ->]; injection Hcall as _ <- _; reflexivity.
  - intros ->. unfold getUserId in Hcall.
    destruct (userCache !! username) as [cached |] eqn:Hcached.
    + destruct (Z.ltb_spec now (expiresAt cached)) as [Hfresh | Hstale].
      * injection Hcall as <- <-. split; [reflexivity |].
        exists cached. repeat split; [exact Hfresh].
      * destruct l; discriminate.
    + destruct l; discriminate.
Qed.



(** X17.  Tweets are saved in batches of 25, in order.  With the pool
    initialised, [saveTweetsToDb] executes one statement per batch; the
    batches are consecutive slices of the list, none empty, all but the
    last of 25 tweets, and each statement binds the rows of its batch in
    order.  When every tweet has a valid date or an id that [BigInt]
    accepts, the call returns after ceil(n/25) statements that cover the
    whole list; otherwise it throws at the first batch holding a tweet
    with neither, after saving the batches before it and nothing after. *)
Theorem tweets_are_saved_in_batches_of_25 tweets username :
  let executed := (saveTweetsToDb true tweets username).1 in
  let ending := (saveTweetsToDb true tweets username).2 in
  exists batches,
    Forall2 (savedAs username) batches executed
    /\ batched batches
    /\ (ending = Returned <-> Forall (fun t => is_Some (createdMs t)) tweets)
    /\ (ending = Returned ->
        concat batches = tweets
        /\ length executed = ((length tweets + 24) / 25)%nat)
    /\ (ending = Threw ->
        exists bad later t,
          tweets = concat batches ++ bad ++ later
          /\ (0 < length bad <= 25)%nat
          /\ t ∈ bad /\ created t = None /\ id_bigint t = None).
Proof.
  cbn zeta.
  destruct (saveTweetsToDb_batches username tweets)
    as (batches & Hsaved & Hshape & Hend).
  exists batches. split; [exact Hsaved |]. split; [exact Hshape |].
  assert (Hdated : Forall (fun t => is_Some (createdMs t)) (concat batches)).
  { clear Hend Hshape. induction Hsaved as [| batch s batches executed Hs Hrest IH];
      [constructor |].
    cbn [concat]. apply Forall_app. split; [| exact IH].
    destruct Hs as (rows & Hrows & _). apply rowsOf_Some in Hrows. tauto. }
  destruct (saveTweetsToDb true tweets username).2.
  - split; [split; [intros _; rewrite <- Hend; exact Hdated | reflexivity] |].
    split; [| discriminate].
    intros _. split; [exact Hend |].
    rewrite <- (Forall2_length _ _ _ Hsaved), <- Hend.
    apply batched_count. exact Hshape.
  - destruct Hend as (bad & later & Hsplit & Hlen & Hnone).
    destruct (rowsOf_None username bad Hnone) as (t & Hin & Hbad).
    split; [| split; [discriminate |]].
    + split; [discriminate |]. intros Hall. exfalso.
      rewrite Hsplit in Hall. rewrite !Forall_app in Hall.
      destruct Hall as (_ & Hall & _). rewrite Forall_forall in Hall.
      destruct (Hall t Hin) as [ms Hms]. congruence.
    + intros _. exists bad, later, t.
      split; [exact Hsplit |]. split; [exact Hlen |]. split; [exact Hin |].
      unfold createdMs in Hbad.
      destruct (created t); [discriminate |].
      destruct (id_bigint t); [discriminate |]. split; reflexivity.
Qed.

(** X18.  Every statement that [saveTweetsToDb] executes is written with
    twelve placeholders for each row and binds eleven parameters for each
    row, for between 1 and 25 rows: the number of placeholders never
    equals the number of bound parameters. *)
Theorem placeholders_outnumber_parameters dbReady tweets username s :
  s ∈ (saveTweetsToDb dbReady tweets username).1 ->
  (exists rows, (0 < rows <= 25)%nat
                /\ countChar placeholderMark (placeholders s) = (12 * rows)%nat
                /\ length (flatParams s) = (11 * rows)%nat)
  /\ countChar placeholderMark (placeholders s) <> length (flatParams s).
Proof.
  intros Hin.
  assert (exists rows, (0 < rows <= 25)%nat
                       /\ countChar placeholderMark (placeholders s) = (12 * rows)%nat
                       /\ length (flatParams s) = (11 * rows)%nat)
    as (rows & Hrows & Hmarks & Hparams).
  { destruct dbReady; [| cbn in Hin; apply elem_of_nil in Hin; contradiction].
    destruct (saveTweetsToDb_batches username tweets)
      as (batches & Hsaved & Hshape & _).
    apply list_elem_of_lookup in Hin as [k Hk].
    destruct (Forall2_lookup_r _ _ _ _ _ Hsaved Hk) as (batch & Hbatch & Hs).
    destruct Hs as (rows & Hrows & ->).
    destruct (Hshape k batch Hbatch) as [Hlen _].
    apply rowsOf_Some in Hrows as (Hcount & Hwidth & _).
    exists (length rows). unfold BATCH_SIZE in Hlen.
    split; [lia |].
    split; [apply placeholders_count | apply flatParams_count; exact Hwidth]. }
  split; [exists rows; repeat split; assumption || lia |].
  lia.
Qed.

Lemma placeholders_outnumber_parameters_witness :
  let t := mkApiTweet "1724000000000000001" (Some 1724000000000000001)
                      "gm" (Some 1700000000000)
                      (Some (mkPublicMetrics (Some 12) (Some 340) None (Some 0) None)) in
  let s := statementOf
             [[SqlText "1724000000000000001"; SqlText "gm"; SqlDate (Some 1700000000000);
               SqlNumber 1700000000000; SqlNumber 12; SqlNumber 340; SqlNumber 0;
               SqlNumber 0; SqlNumber 0;
               SqlText "https://twitter.com/cz_binance/status/1724000000000000001";
               SqlText "cz_binance"]] in
  (saveTweetsToDb true [t] "cz_binance").1 = [s]
  /\ countChar placeholderMark (placeholders s) <> length (flatParams s).
Proof.
  intros t s. split; [reflexivity |].
  apply (placeholders_outnumber_parameters true [t] "cz_binance" s).
  apply list_elem_of_singleton. reflexivity.
Defined.
